(** * Mission runtime of openagent: a shallow embedding in Rocq

    Covers [src/api/mission_runner.rs] (the per-mission runner, the history
    context builder, the Claude and OpenCode stream adapters and the
    OpenCode storage fallback) and [src/workspace.rs] (MCP key sanitising
    and uniquifying). *)

From Stdlib Require Import ZArith Ascii String List Lia.
From stdpp Require Import base relations list gmap sets strings pretty sorting.
Import ListNotations.

Open Scope string_scope.
Set Warnings "-register-all -notation-for-abbreviation".
(** stdpp declares [String.append] [simpl never]; we want it to compute. *)
Arguments String.append : simpl nomatch.

(* ------------------------------------------------------------------ *)
(** ** Shared data: results, events, JSON *)

(** Uuids are modelled as natural numbers. *)
Notation Uuid := N (only parsing).

(** A small JSON value type, enough for the payloads the adapters build
    and the records the storage fallback reads: integer numbers are [JInt],
    [JOther] stands for the values no code here inspects (floats, arrays). *)
Inductive json :=
| JNull
| JBool (b : bool)
| JString (s : string)
| JInt (n : Z)
| JOther
| JObject (fields : list (string * json)).

(** Modelled from the spec: [TerminalReason] of [crate::agents::types]
    (not in src/), one of Cancelled, LlmError, Completed. *)
Inductive TerminalReason := Cancelled | LlmError | Completed.

(** Modelled from the spec: [AgentResult] of [crate::agents::types] (not in
    src/): success flag, output, cost in cents and terminal reason. *)
Record AgentResult := mkAgentResult {
  ar_success : bool;
  ar_output : string;
  ar_cost_cents : N;
  ar_terminal_reason : option TerminalReason
}.

(** Modelled from the spec: [AgentResult::success] (a completed turn). *)
Definition AgentResult_success (output : string) (cents : N) : AgentResult :=
  mkAgentResult true output cents (Some Completed).

(** Modelled from the spec: [AgentResult::failure]. *)
Definition AgentResult_failure (output : string) (cents : N) : AgentResult :=
  mkAgentResult false output cents None.

(** Modelled from the spec: [AgentResult::with_terminal_reason]. *)
Definition with_terminal_reason (r : AgentResult) (t : TerminalReason) : AgentResult :=
  mkAgentResult (ar_success r) (ar_output r) (ar_cost_cents r) (Some t).

(** [AgentEvent] as emitted on the broadcast channel (mission ids are
    [Some mission_id] everywhere in the code). *)
Inductive AgentEvent :=
| UserMessage (id : Uuid) (content : string) (queued : bool) (mission_id : option Uuid)
| Thinking (content : string) (done : bool) (mission_id : option Uuid)
| ToolCall (tool_call_id : string) (name : string) (args : json) (mission_id : option Uuid)
| ToolResult (tool_call_id : string) (name : string) (result : json) (mission_id : option Uuid)
| Error (message : string) (mission_id : option Uuid) (resumable : bool).

(** [str::contains] on byte strings. *)
Fixpoint contains (s pat : string) : bool :=
  if String.prefix pat s then true
  else match s with
       | EmptyString => false
       | String _ s' => contains s' pat
       end.

(* ------------------------------------------------------------------ *)
(** ** The mission runner *)
Module Runner.

Inductive MissionRunState := Queued | Running | WaitingForTool | Finished.

Record QueuedMessage := mkQueuedMessage {
  qm_id : Uuid;
  qm_content : string;
  qm_agent : option string
}.

(** Handles: a cancellation token is an [Arc] shared with the spawned turn,
    so the runner stores a reference ([N]) into the world's token store;
    likewise a [JoinHandle] is a reference into the world's task table. *)
Record MissionRunner := mkRunner {
  mission_id : Uuid;
  workspace_id : Uuid;
  backend_id : string;
  state : MissionRunState;
  agent_override : option string;
  queue : list QueuedMessage;
  history : list (string * string);
  cancel_token : option N;
  running_handle : option N;
  deliverables : list string;
  last_activity : N;
  explicitly_completed : bool
}.

(** What a spawned turn task looks like from the outside: still running
    (with the inputs it was given), or finished. A [JoinError] can only be
    a panic here: the runner never aborts [running_handle]. *)
Inductive JoinOutcome :=
| JoinOk (msg_id : Uuid) (input : string) (result : AgentResult)
| JoinPanicked.

Inductive TaskStatus :=
| TaskRunning (msg_id : Uuid) (input : string) (hist : list (string * string)) (token : N)
| TaskDone (o : JoinOutcome).

(** The shared world: clock, cancellation tokens (tripped or not),
    spawned tasks, the broadcast log, and a supply of fresh references. *)
Record World := mkWorld {
  now : N;
  tokens : gmap N bool;
  tasks : gmap N TaskStatus;
  events : list AgentEvent;
  next_ref : N
}.

Definition is_running (r : MissionRunner) : bool :=
  match state r with
  | Running | WaitingForTool => true
  | _ => false
  end.

Definition set_state (r : MissionRunner) (s : MissionRunState) : MissionRunner :=
  mkRunner (mission_id r) (workspace_id r) (backend_id r) s (agent_override r)
    (queue r) (history r) (cancel_token r) (running_handle r) (deliverables r)
    (last_activity r) (explicitly_completed r).

Definition set_queue (r : MissionRunner) (q : list QueuedMessage) : MissionRunner :=
  mkRunner (mission_id r) (workspace_id r) (backend_id r) (state r) (agent_override r)
    q (history r) (cancel_token r) (running_handle r) (deliverables r)
    (last_activity r) (explicitly_completed r).

Definition set_history (r : MissionRunner) (h : list (string * string)) : MissionRunner :=
  mkRunner (mission_id r) (workspace_id r) (backend_id r) (state r) (agent_override r)
    (queue r) h (cancel_token r) (running_handle r) (deliverables r)
    (last_activity r) (explicitly_completed r).

Definition set_cancel_token (r : MissionRunner) (t : option N) : MissionRunner :=
  mkRunner (mission_id r) (workspace_id r) (backend_id r) (state r) (agent_override r)
    (queue r) (history r) t (running_handle r) (deliverables r)
    (last_activity r) (explicitly_completed r).

Definition set_running_handle (r : MissionRunner) (h : option N) : MissionRunner :=
  mkRunner (mission_id r) (workspace_id r) (backend_id r) (state r) (agent_override r)
    (queue r) (history r) (cancel_token r) h (deliverables r)
    (last_activity r) (explicitly_completed r).

Definition set_explicitly_completed (r : MissionRunner) (b : bool) : MissionRunner :=
  mkRunner (mission_id r) (workspace_id r) (backend_id r) (state r) (agent_override r)
    (queue r) (history r) (cancel_token r) (running_handle r) (deliverables r)
    (last_activity r) b.

(** [touch]: [last_activity := Instant::now()]. *)
Definition touch (r : MissionRunner) (w : World) : MissionRunner :=
  mkRunner (mission_id r) (workspace_id r) (backend_id r) (state r) (agent_override r)
    (queue r) (history r) (cancel_token r) (running_handle r) (deliverables r)
    (now w) (explicitly_completed r).

(** [cancel]: trip the shared token if there is one. *)
Definition cancel (r : MissionRunner) (w : World) : MissionRunner * World :=
  match cancel_token r with
  | Some t =>
      (r, mkWorld (now w) (<[t := true]> (tokens w)) (tasks w) (events w) (next_ref w))
  | None => (r, w)
  end.

(** [start_next]: the spawned future is [run_mission_turn] on a snapshot of
    the history; it is recorded as a running task of the world. *)
Definition start_next (r : MissionRunner) (w : World) : bool * MissionRunner * World :=
  if is_running r then (false, r, w)
  else
    match queue r with
    | [] => (false, r, w)
    | msg :: rest =>
        let r1 := set_state (set_queue r rest) Running in
        let tok := next_ref w in
        let h := N.succ (next_ref w) in
        let r2 := set_cancel_token r1 (Some tok) in
        let ev := UserMessage (qm_id msg) (qm_content msg) false (Some (mission_id r)) in
        let w1 := mkWorld (now w) (<[tok := false]> (tokens w))
                    (<[h := TaskRunning (qm_id msg) (qm_content msg) (history r) tok]> (tasks w))
                    (events w ++ [ev]) (N.succ h) in
        (true, set_running_handle r2 (Some h), w1)
    end.

(** [JoinHandle::is_finished]. *)
Definition handle_finished (w : World) (h : N) : option JoinOutcome :=
  match tasks w !! h with
  | Some (TaskDone o) => Some o
  | _ => None
  end.

(** [poll_completion]. The deliverable check on the success path only logs,
    so it has no effect here. *)
Definition poll_completion (r : MissionRunner) (w : World)
  : option (Uuid * string * AgentResult) * MissionRunner :=
  match running_handle r with
  | None => (None, r)
  | Some h =>
      let r0 := set_running_handle r None in
      match handle_finished w h with
      | None => (None, set_running_handle r0 (Some h))
      | Some (JoinOk mid input res) =>
          let r1 := set_state (touch r0 w) Queued in
          let r2 := if contains (ar_output res) "Mission marked as"
                       || contains (ar_output res) "complete_mission"
                    then set_explicitly_completed r1 true else r1 in
          let r3 := set_history r2 (history r2 ++ [("user", input); ("assistant", ar_output res)]) in
          (Some (mid, input, res), r3)
      | Some JoinPanicked => (None, set_state r0 Finished)
      end
  end.

End Runner.

(* ------------------------------------------------------------------ *)
(** ** Sample inputs used by the witnesses and counterexamples *)
Module RunnerSamples.
Import Runner.
Local Open Scope N_scope.

Definition runner0 : MissionRunner :=
  mkRunner 7 8 "claudecode" Queued None [] [] None None [] 0 false.

Definition world0 : World := mkWorld 5 ∅ ∅ [] 100.

(** A runner whose turn task (handle 3) has finished with [res]. *)
Definition runner_waiting : MissionRunner :=
  mkRunner 7 8 "claudecode" Running None [] [("user", "hi"); ("assistant", "hello")]
    (Some 2) (Some 3) [] 1 false.

Definition world_done (o : JoinOutcome) : World :=
  mkWorld 42 {[2 := false]} {[3 := TaskDone o]} [] 100.

Definition res_completed : AgentResult :=
  AgentResult_success "Done. I called complete_mission." 0.

Definition msg1 : QueuedMessage := mkQueuedMessage 11 "next task" None.

(** A runner that has recorded explicit completion and holds a new message. *)
Definition runner_completed : MissionRunner :=
  mkRunner 7 8 "claudecode" Queued None [msg1] [] (Some 2) None [] 1 true.

End RunnerSamples.

(* ------------------------------------------------------------------ *)
(** ** [build_history_context] *)
Module HistoryContext.

(** ASCII uppercasing, standing for [str::to_uppercase] on the roles the
    runner stores ("user" and "assistant"). Strings are byte strings, so
    [String.length] is Rust's [str::len]. *)
Definition ascii_upper (c : ascii) : ascii :=
  let n := nat_of_ascii c in
  if Nat.leb 97 n && Nat.leb n 122 then ascii_of_nat (n - 32) else c.

Fixpoint to_uppercase (s : string) : string :=
  match s with
  | EmptyString => EmptyString
  | String c s' => String (ascii_upper c) (to_uppercase s')
  end.

Definition nl : string := String (ascii_of_nat 10) EmptyString.

(** [format!("{}: {}\n\n", role.to_uppercase(), content)] *)
Definition entry (p : string * string) : string :=
  to_uppercase (fst p) ++ ": " ++ snd p ++ nl ++ nl.

(** The loop over [history.iter().rev()], with [result] and [total_chars]. *)
Fixpoint build_go (max_chars : nat) (l : list (string * string)) (result : string)
    (total_chars : nat) : string :=
  match l with
  | [] => result
  | p :: rest =>
      let e := entry p in
      if Nat.ltb max_chars (total_chars + String.length e) && negb (String.eqb result "")
      then result
      else build_go max_chars rest (e ++ result) (total_chars + String.length e)
  end.

Definition build_history_context (history : list (string * string)) (max_chars : nat) : string :=
  build_go max_chars (rev history) "" 0.

(** Concatenation of the entries of a list, in order. *)
Fixpoint cat_entries (l : list (string * string)) : string :=
  match l with
  | [] => ""
  | p :: rest => entry p ++ cat_entries rest
  end.

End HistoryContext.

(* ------------------------------------------------------------------ *)
(** ** [src/workspace.rs]: MCP key sanitising and uniquifying *)
Module Workspace.
Local Open Scope Z_scope.

(** Rust [String]s as sequences of Unicode scalar values (code points). *)
Abbreviation ustring := (list Z).

(** The two Unicode tables [sanitize_key] relies on: [char::is_alphanumeric]
    and [str::to_lowercase]. *)
Class UnicodeTables := {
  is_alphanumeric : Z -> bool;
  to_lowercase : ustring -> ustring
}.

Definition ascii_alnum (c : Z) : bool :=
  ((48 <=? c) && (c <=? 57)) || ((65 <=? c) && (c <=? 90)) || ((97 <=? c) && (c <=? 122)).

Definition ascii_lower (c : Z) : Z :=
  if (65 <=? c) && (c <=? 90) then c + 32 else c.

(** What every faithful table satisfies on ASCII. *)
Class AsciiCompatible `{UnicodeTables} := {
  alnum_ascii : forall c, 0 <= c < 128 -> is_alphanumeric c = ascii_alnum c;
  lower_ascii : forall s, Forall (fun c => 0 <= c < 128) s -> to_lowercase s = map ascii_lower s
}.

(** A concrete table. It agrees with Rust's on every code point below
    U+0100 and on U+0130 (LATIN CAPITAL LETTER I WITH DOT ABOVE, which
    lower-cases to "i" followed by U+0307 COMBINING DOT ABOVE, not
    alphanumeric); other code points are left unclassified. *)
Definition latin1_is_alphanumeric (c : Z) : bool :=
  ascii_alnum c
  || (c =? 170) || (c =? 178) || (c =? 179) || (c =? 181) || (c =? 185) || (c =? 186)
  || ((188 <=? c) && (c <=? 190))
  || ((192 <=? c) && (c <=? 214)) || ((216 <=? c) && (c <=? 246))
  || ((248 <=? c) && (c <=? 255))
  || (c =? 304).

Definition latin1_lower_char (c : Z) : list Z :=
  if (65 <=? c) && (c <=? 90) then [c + 32]
  else if ((192 <=? c) && (c <=? 222)) && negb (c =? 215) then [c + 32]
  else if c =? 304 then [105; 775]
  else [c].

Instance latin1_tables : UnicodeTables := {
  is_alphanumeric := latin1_is_alphanumeric;
  to_lowercase s := concat (map latin1_lower_char s)
}.

Section Keys.
Context `{UnicodeTables}.

(** [sanitize_key]: filter, collect, [to_lowercase], [replace('-', "_")]. *)
Definition sanitize_key (name : ustring) : ustring :=
  map (fun c => if c =? 45 then 95 else c)
    (to_lowercase (List.filter (fun c => is_alphanumeric c || (c =? 95) || (c =? 45)) name)).

End Keys.

(** Decimal rendering of a number, as [format!("{}", i)]. *)
Definition digits (i : N) : ustring :=
  map (fun a => Z.of_nat (nat_of_ascii a)) (list_ascii_of_string (pretty i)).

(** [format!("{}_{}", base, i)] *)
Definition candidate (base : ustring) (i : N) : ustring := (base ++ [95] ++ digits i)%list.

(** The [loop] of [unique_key] from counter [i], with [fuel] iterations. *)
Fixpoint unique_from (base : ustring) (used : gset ustring) (i : N) (fuel : nat)
  : option (ustring * gset ustring) :=
  match fuel with
  | O => None
  | S f =>
      let c := candidate base i in
      if decide (c ∈ used) then unique_from base used (N.succ i) f
      else Some (c, {[c]} ∪ used)
  end.

(** [unique_key]; [used] is the shared [HashSet]. The loop needs at most
    [size used + 1] iterations (proved below), which is the fuel given. *)
Definition unique_key (base : ustring) (used : gset ustring) : option (ustring * gset ustring) :=
  if decide (base ∈ used) then unique_from base used 2 (S (size used))
  else Some (base, {[base]} ∪ used).

(** The key-assigning loop of [write_opencode_config] over the names of
    the enabled MCP servers, in order. *)
Fixpoint assign_keys `{UnicodeTables} (names : list ustring) (used : gset ustring)
  : option (list ustring) :=
  match names with
  | [] => Some []
  | n :: rest =>
      match unique_key (sanitize_key n) used with
      | None => None
      | Some (k, used') =>
          match assign_keys rest used' with
          | None => None
          | Some ks => Some (k :: ks)
          end
      end
  end.

End Workspace.

(* ------------------------------------------------------------------ *)
(** ** [run_claudecode_turn]: the stream-JSON adapter *)

(** Strings are the UTF-8 bytes of a Rust [str]; [String.length] is
    [str::len]. *)
(** [char::is_whitespace]: ' ' and U+0009..U+000D, and above U+007F the
    code points with the Unicode White_Space property (U+0085, U+00A0,
    U+1680, U+2000..U+200A, U+2028, U+2029, U+202F, U+205F, U+3000). *)
Definition char_is_whitespace (c : Z) : bool :=
  (c =? 32)%Z || ((9 <=? c) && (c <=? 13))%Z ||
  ((127 <? c) &&
   ((c =? 133) || (c =? 160) || (c =? 5760) || ((8192 <=? c) && (c <=? 8202)) ||
    (c =? 8232) || (c =? 8233) || (c =? 8239) || (c =? 8287) || (c =? 12288)))%Z.

Definition byte_val (b : ascii) : Z := Z.of_nat (nat_of_ascii b).

Definition is_cont (b : ascii) : bool := (128 <=? byte_val b)%Z && (byte_val b <? 192)%Z.

(** The chars of a UTF-8 byte string, each with its code point and its
    bytes. A Rust [str] is valid UTF-8, where this is the decoding; a byte
    that starts no well-formed sequence is kept as a char of its own with
    code point -1 (not white space). *)
Fixpoint utf8_chars (l : list ascii) : list (Z * list ascii) :=
  match l with
  | [] => []
  | b0 :: r0 =>
      if (byte_val b0 <? 128)%Z then (byte_val b0, [b0]) :: utf8_chars r0
      else if (192 <=? byte_val b0)%Z && (byte_val b0 <? 224)%Z then
        match r0 with
        | b1 :: r1 =>
            if is_cont b1
            then (((byte_val b0 - 192) * 64 + (byte_val b1 - 128))%Z, [b0; b1]) :: utf8_chars r1
            else (-1, [b0])%Z :: utf8_chars r0
        | [] => (-1, [b0])%Z :: utf8_chars r0
        end
      else if (224 <=? byte_val b0)%Z && (byte_val b0 <? 240)%Z then
        match r0 with
        | b1 :: b2 :: r2 =>
            if is_cont b1 && is_cont b2
            then ((((byte_val b0 - 224) * 64 + (byte_val b1 - 128)) * 64 + (byte_val b2 - 128))%Z,
                  [b0; b1; b2]) :: utf8_chars r2
            else (-1, [b0])%Z :: utf8_chars r0
        | _ => (-1, [b0])%Z :: utf8_chars r0
        end
      else if (240 <=? byte_val b0)%Z && (byte_val b0 <? 248)%Z then
        match r0 with
        | b1 :: b2 :: b3 :: r3 =>
            if is_cont b1 && is_cont b2 && is_cont b3
            then (((((byte_val b0 - 240) * 64 + (byte_val b1 - 128)) * 64 + (byte_val b2 - 128)) * 64
                   + (byte_val b3 - 128))%Z, [b0; b1; b2; b3]) :: utf8_chars r3
            else (-1, [b0])%Z :: utf8_chars r0
        | _ => (-1, [b0])%Z :: utf8_chars r0
        end
      else (-1, [b0])%Z :: utf8_chars r0
  end.

(** Drop the leading white-space chars. *)
Fixpoint drop_ws (cs : list (Z * list ascii)) : list (Z * list ascii) :=
  match cs with
  | [] => []
  | (c, _) :: rest => if char_is_whitespace c then drop_ws rest else cs
  end.

Definition chars_bytes (cs : list (Z * list ascii)) : list ascii := List.concat (map snd cs).

(** [str::trim]: the chars with the leading and trailing white space
    removed. *)
Definition str_trim (s : string) : string :=
  string_of_list_ascii
    (chars_bytes (rev (drop_ws (rev (drop_ws (utf8_chars (list_ascii_of_string s))))))).

(** [str::trim().is_empty()] *)
Definition trim_is_empty (s : string) : bool := String.eqb (str_trim s) "".

(** Every char of a byte string is white space. *)
Definition ws_all (l : list ascii) : bool := forallb (fun p => char_is_whitespace p.1) (utf8_chars l).

Module Claude.

Inductive ContentBlock :=
| CBText (text : string)
| CBToolUse (id name : string) (input : json)
| CBThinking (thinking : string)
| CBToolResult (tool_use_id content : string) (is_error : bool)
| CBOther.

Inductive StreamEvent :=
| ContentBlockDelta (index : N) (delta_type : string) (text : option string)
| ContentBlockStart (index : N) (block_type : string) (id name : option string)
| OtherStreamEvent.

(** [ClaudeEvent]; [total_cost_usd] is an [f64] in the code, represented
    here by the cents it converts to ([(usd * 100.0) as u64]). *)
Inductive ClaudeEvent :=
| SystemEv
| StreamEv (ev : StreamEvent)
| AssistantEv (content : list ContentBlock)
| UserEv (content : list ContentBlock) (tool_use_result : option (string * string))
| ResultEv (subtype : string) (is_error : bool) (result : option string)
    (total_cost_cents : option N).

(** One outcome of [lines.next_line()] that is not EOF: a parsed event, a
    line skipped by [continue] (empty or not parseable), or a read error. *)
Inductive ClaudeLine :=
| LineEvent (ev : ClaudeEvent)
| LineSkipped
| LineReadError.

(** The locals of the read loop. *)
Record ClaudeSt := mkClaudeSt {
  pending_tools : gmap string string;
  block_types : gmap N string;
  thinking_buffer : gmap N string;
  text_buffer : gmap N string;
  last_thinking_len : nat;
  final_result : string;
  had_error : bool;
  total_cost : N
}.

Definition claude_init : ClaudeSt := mkClaudeSt ∅ ∅ ∅ ∅ 0 "" false 0.

Section Adapter.
(** [HashMap::values()] of the thinking buffer: its iteration order is
    unspecified (the map is hashed with a random seed). *)
Variable hm_values : gmap N string -> list string.
Variable mission_id : N.

Definition sum_lengths (l : list string) : nat := fold_right (fun s n => String.length s + n) 0 l.

Definition set_thinking (st : ClaudeSt) (tb : gmap N string) (last : nat) : ClaudeSt :=
  mkClaudeSt (pending_tools st) (block_types st) tb (text_buffer st) last
    (final_result st) (had_error st) (total_cost st).

Definition set_text_buffer (st : ClaudeSt) (tb : gmap N string) : ClaudeSt :=
  mkClaudeSt (pending_tools st) (block_types st) (thinking_buffer st) tb
    (last_thinking_len st) (final_result st) (had_error st) (total_cost st).

Definition set_tools (st : ClaudeSt) (bt : gmap N string) (pt : gmap string string) : ClaudeSt :=
  mkClaudeSt pt bt (thinking_buffer st) (text_buffer st)
    (last_thinking_len st) (final_result st) (had_error st) (total_cost st).

Definition set_final (st : ClaudeSt) (fr : string) (err : bool) (cost : N) : ClaudeSt :=
  mkClaudeSt (pending_tools st) (block_types st) (thinking_buffer st) (text_buffer st)
    (last_thinking_len st) fr err cost.

(** [buffer = map.entry(index).or_default(); buffer.push_str(text)] *)
Definition buffer_push (m : gmap N string) (i : N) (t : string) : gmap N string :=
  <[i := default "" (m !! i) ++ t]> m.

(** The [ContentBlockDelta] branch. *)
Definition on_delta (st : ClaudeSt) (index : N) (delta_type : string) (text : option string)
  : ClaudeSt * list AgentEvent :=
  match text with
  | None => (st, [])
  | Some t =>
      if String.eqb t "" then (st, [])
      else if String.eqb delta_type "thinking_delta" then
        let tb := buffer_push (thinking_buffer st) index t in
        let total_len := sum_lengths (hm_values tb) in
        if Nat.ltb (last_thinking_len st) total_len then
          (set_thinking st tb total_len,
           [Thinking (String.concat "" (hm_values tb)) false (Some mission_id)])
        else (set_thinking st tb (last_thinking_len st), [])
      else if String.eqb delta_type "text_delta" then
        (set_text_buffer st (buffer_push (text_buffer st) index t), [])
      else (st, [])
  end.

(** One block of an assistant message. *)
Definition on_assistant_block (acc : ClaudeSt * list AgentEvent) (b : ContentBlock)
  : ClaudeSt * list AgentEvent :=
  let '(st, evs) := acc in
  match b with
  | CBText text =>
      if String.eqb text "" then (st, evs)
      else (set_final st text (had_error st) (total_cost st), evs)
  | CBToolUse id name input =>
      (set_tools st (block_types st) (<[id := name]> (pending_tools st)),
       (evs ++ [ToolCall id name input (Some mission_id)])%list)
  | CBThinking thinking =>
      if String.eqb thinking "" then (st, evs)
      else (st, (evs ++ [Thinking thinking true (Some mission_id)])%list)
  | _ => (st, evs)
  end.

(** One block of a user message. *)
Definition on_user_block (extra : option (string * string)) (st : ClaudeSt)
    (evs : list AgentEvent) (b : ContentBlock) : list AgentEvent :=
  match b with
  | CBToolResult tool_use_id content is_error =>
      let name := default "unknown" (pending_tools st !! tool_use_id) in
      let result_value :=
        match extra with
        | Some (out, err) =>
            JObject [("content", JString content); ("stdout", JString out);
                     ("stderr", JString err); ("is_error", JBool is_error)]
        | None => JString content
        end in
      (evs ++ [ToolResult tool_use_id name result_value (Some mission_id)])%list
  | _ => evs
  end.

(** The body of the read loop for one line: new locals, emitted events,
    and whether the loop [break]s. *)
Definition claude_step (st : ClaudeSt) (line : ClaudeLine) : ClaudeSt * list AgentEvent * bool :=
  match line with
  | LineSkipped => (st, [], false)
  | LineReadError => (st, [], true)
  | LineEvent ev =>
      match ev with
      | SystemEv => (st, [], false)
      | StreamEv (ContentBlockDelta index dt text) =>
          let '(st', evs) := on_delta st index dt text in (st', evs, false)
      | StreamEv (ContentBlockStart index bt id name) =>
          let bts := <[index := bt]> (block_types st) in
          let pts := if String.eqb bt "tool_use" then
                       match id, name with
                       | Some i, Some n => <[i := n]> (pending_tools st)
                       | _, _ => pending_tools st
                       end
                     else pending_tools st in
          (set_tools st bts pts, [], false)
      | StreamEv OtherStreamEvent => (st, [], false)
      | AssistantEv blocks =>
          let '(st', evs) := fold_left on_assistant_block blocks (st, []) in (st', evs, false)
      | UserEv blocks extra =>
          (st, fold_left (on_user_block extra st) blocks [], false)
      | ResultEv subtype is_error result cost =>
          let cost' := default (total_cost st) cost in
          if is_error || String.eqb subtype "error" then
            (set_final st (default "Unknown error" result) true cost', [], true)
          else
            (set_final st (default (final_result st) result) (had_error st) cost', [], true)
      end
  end.

(** After the loop: [child.wait()], the empty-output check, the result. *)
Definition claude_finish (st : ClaudeSt) : AgentResult :=
  let '(fr, err) :=
    if trim_is_empty (final_result st) && negb (had_error st)
    then ("Claude Code produced no output. Check CLI installation or authentication.", true)
    else (final_result st, had_error st) in
  if err then with_terminal_reason (AgentResult_failure fr (total_cost st)) LlmError
  else AgentResult_success fr (total_cost st).

(** The read loop without cancellation: lines are processed until a
    [break] or the end of the input (EOF). *)
Fixpoint claude_run (st : ClaudeSt) (lines : list ClaudeLine) : ClaudeSt * list AgentEvent :=
  match lines with
  | [] => (st, [])
  | l :: rest =>
      let '(st', evs, brk) := claude_step st l in
      if brk then (st', evs)
      else let '(st'', evs') := claude_run st' rest in (st'', (evs ++ evs')%list)
  end.

End Adapter.

(** The [content] of the Thinking events in an event list. *)
Fixpoint thinking_contents (evs : list AgentEvent) : list string :=
  match evs with
  | [] => []
  | Thinking c _ _ :: rest => c :: thinking_contents rest
  | _ :: rest => thinking_contents rest
  end.

(** A thinking delta line. *)
Definition thinking_line (d : N * string) : ClaudeLine :=
  LineEvent (StreamEv (ContentBlockDelta (fst d) "thinking_delta" (Some (snd d)))).

(** One admissible iteration order (that of [map_to_list]), for examples. *)
Definition values_in_map_order (m : gmap N string) : list string := (map_to_list m).*2.

(** Total length of the thinking buffers. *)
Definition buffers_total (m : gmap N string) : nat := sum_lengths ((map_to_list m).*2).

(** Per-index accumulation of a sequence of thinking deltas. *)
Fixpoint push_all (m : gmap N string) (ds : list (N * string)) : gmap N string :=
  match ds with
  | [] => m
  | d :: rest => push_all (buffer_push m (fst d) (snd d)) rest
  end.

(** The buffers in ascending index order (the order the design text
    describes), for comparison with the adapter's. *)
Definition index_le (a b : N * string) : Prop := (a.1 <= b.1)%N.
#[global] Instance index_le_dec : RelDecision index_le :=
  fun a b => decide ((a.1 <= b.1)%N).
Definition values_in_index_order (m : gmap N string) : list string :=
  (merge_sort index_le (map_to_list m)).*2.

(** The Thinking contents the adapter should emit for a sequence of
    thinking deltas: after each delta, the buffers joined in [hm_values]
    order. *)
Fixpoint emitted_contents (hm_values : gmap N string -> list string)
    (m : gmap N string) (ds : list (N * string)) : list string :=
  match ds with
  | [] => []
  | d :: rest =>
      let m' := buffer_push m (fst d) (snd d) in
      String.concat "" (hm_values m') :: emitted_contents hm_values m' rest
  end.

(** The contents of the read loop's Thinking events on thinking deltas,
    started from fresh locals. *)
Definition run_contents (hm_values : gmap N string -> list string) (mid : N)
    (ds : list (N * string)) : list string :=
  thinking_contents (snd (claude_run hm_values mid claude_init (map thinking_line ds))).

End Claude.

(* ------------------------------------------------------------------ *)
(** ** The OpenCode adapter: stdout chunks, the stderr reader, the end *)
Module OpenCode.

(** The bytes of a string in reverse order. *)
Definition str_rev (s : string) : string :=
  string_of_list_ascii (rev (list_ascii_of_string s)).

(** The double quote character. *)
Definition dquote : ascii := ascii_of_nat 34.

Fixpoint drop_dquotes (s : string) : string :=
  match s with
  | String c s' => if Ascii.eqb c dquote then drop_dquotes s' else s
  | EmptyString => EmptyString
  end.

(** [str::trim_matches] of the double quote character. *)
Definition trim_dquotes (s : string) : string := str_rev (drop_dquotes (str_rev (drop_dquotes s))).

(** [str::find] of a pattern: the byte offset of its first occurrence. *)
Fixpoint find_from (s pat : string) (i : nat) : option nat :=
  if String.prefix pat s then Some i
  else match s with
       | EmptyString => None
       | String _ s' => find_from s' pat (S i)
       end.

Definition find (s pat : string) : option nat := find_from s pat 0.

(** [&s[k..]]: panics ([None]) past the end or inside a UTF-8 sequence
    (at a continuation byte 0x80..0xBF). *)
Definition slice_from (s : string) (k : nat) : option string :=
  match String.get k s with
  | None => if Nat.eqb k (String.length s) then Some EmptyString else None
  | Some c =>
      if Nat.leb 128 (nat_of_ascii c) && Nat.ltb (nat_of_ascii c) 192 then None
      else Some (String.substring k (String.length s - k) s)
  end.

(** The locals of the stderr reader task: [last_tool_id], [last_tool_name]. *)
Definition StderrSt : Type := option string * option string.

(** One stderr line (ANSI codes already stripped by [strip_ansi_codes]),
    paired with the uuid [Uuid::new_v4()] would draw for it. The session
    id capture ([extract_opencode_session_id] on the line) only feeds the
    storage fallback and is left out; where it panics, the task ends there
    and emits a prefix of these events. [None]: the task panics (the slice
    after "TOOL.EXECUTE:") and ends. *)
Definition stderr_line (mission_id : Uuid) (bs : StderrSt) (line : string * string)
  : option (StderrSt * list AgentEvent) :=
  let '(raw, uuid) := line in
  let clean := str_trim raw in
  if String.eqb clean "" then Some (bs, [])
  else
    let '(last_tool_id, last_tool_name) := bs in
    let thinking := Thinking clean false (Some mission_id) in
    if contains clean "TOOL.EXECUTE:" then
      match find clean "TOOL.EXECUTE:" with
      | Some name_start =>
          match slice_from clean (name_start + 14) with
          | Some name_part =>
              let tool_name := trim_dquotes (str_trim name_part) in
              let tool_id := "opencode-" ++ uuid in
              Some ((Some tool_id, Some tool_name),
                    [ToolCall tool_id tool_name (JObject []) (Some mission_id); thinking])
          | None => None
          end
      | None => Some (bs, [thinking])
      end
    else if contains clean "TOOL.RESULT:" then
      let tool_id := default ("opencode-" ++ uuid) last_tool_id in
      let tool_name := default "unknown" last_tool_name in
      Some (bs, [ToolResult tool_id tool_name (JObject [("output", JString clean)]) (Some mission_id);
                 thinking])
    else if contains clean "SESSION.ERROR:" || contains clean "Error:" || contains clean "error:" then
      Some (bs, [Error clean (Some mission_id) true; thinking])
    else Some (bs, [thinking]).

(** One outcome of [stdout_reader.read(&mut buffer)] that is not EOF
    ([Ok(0)]): a chunk (lossily decoded) or a read error. *)
Inductive StdoutRead :=
| Chunk (chunk : string)
| ReadError.

(** The body of the stdout loop; the locals are [final_result] and
    [had_error]. *)
Definition stdout_step (mission_id : Uuid) (st : string * bool) (r : StdoutRead)
  : (string * bool) * list AgentEvent * bool :=
  match r with
  | ReadError => (st, [], true)
  | Chunk chunk =>
      if String.eqb chunk "" then (st, [], false)
      else
        let '(final_result, had_error) := st in
        ((final_result ++ chunk,
          had_error || contains chunk "Error:" || contains chunk "error:"),
         [Thinking chunk false (Some mission_id)], false)
  end.

(** After the loop (the stderr task awaited): the exit status ([exit]:
    [Some status] when [child.wait()] reports a non-success status,
    [None] otherwise), the final Thinking marker, the storage fallback
    ([recover final_result]: the text it recovers, [None] when it is not
    needed or finds nothing) and the result. *)
Definition opencode_finish (mission_id : Uuid) (exit : option string)
    (recover : string -> option string) (st : string * bool) : list AgentEvent * AgentResult :=
  let '(final_result, had_error) := st in
  let '(final_result, had_error) :=
    match exit with
    | None => (final_result, had_error)
    | Some status =>
        (if String.eqb final_result "" then "OpenCode CLI exited with status: " ++ status
         else final_result, true)
    end in
  let final_result := default final_result (recover final_result) in
  ([Thinking "" true (Some mission_id)],
   if had_error then with_terminal_reason (AgentResult_failure final_result 0) LlmError
   else AgentResult_success final_result 0).

End OpenCode.

(* ------------------------------------------------------------------ *)
(** ** A turn's read loop under [tokio::select!] with cancellation *)
Module Turn.

(** Where the adapter is: in the loop, past it, or returned. *)
Inductive Phase :=
| Looping
| AfterLoop
| Returned (r : AgentResult).

Definition returned (p : Phase) : bool :=
  match p with Returned _ => true | _ => false end.

(** The value of the [cancel.cancelled()] branch of both adapters. *)
Definition cancelled_result : AgentResult :=
  with_terminal_reason (AgentResult_failure "Cancelled" 0) Cancelled.

Section Loop.
Context {St In BgSt BgIn : Type}.
(** The loop body on one read item: new locals, events, [break]. *)
Variable read_step : St -> In -> St * list AgentEvent * bool.
(** A separate reader task on one line ([None]: it panics). *)
Variable bg_step : BgSt -> BgIn -> option (BgSt * list AgentEvent).
(** The code after the loop. *)
Variable finish : St -> list AgentEvent * AgentResult.

(** The turn from the start of the loop: loop locals, the items the
    child will still produce on stdout (then EOF) and on stderr, whether
    the reader task runs, whether the token has tripped, whether the
    child was killed, the events sent so far, the phase. *)
Record Cfg := mkCfg {
  c_st : St;
  c_input : list In;
  c_bg_st : BgSt;
  c_bg_input : list BgIn;
  c_bg_alive : bool;
  c_tripped : bool;
  c_killed : bool;
  c_events : list AgentEvent;
  c_phase : Phase
}.

(** The interleavings. The select is unbiased: when the token has tripped
    and a line is ready, either branch may be taken. *)
Inductive turn_step : Cfg -> Cfg -> Prop :=
| TripToken c :
    c_tripped c = false -> returned (c_phase c) = false ->
    turn_step c (mkCfg (c_st c) (c_input c) (c_bg_st c) (c_bg_input c) (c_bg_alive c)
                   true (c_killed c) (c_events c) (c_phase c))
| SelectCancelled c :
    c_phase c = Looping -> c_tripped c = true ->
    turn_step c (mkCfg (c_st c) (c_input c) (c_bg_st c) (c_bg_input c) false
                   true true (c_events c) (Returned cancelled_result))
| SelectLine c x rest st' evs brk :
    c_phase c = Looping -> c_input c = x :: rest -> read_step (c_st c) x = (st', evs, brk) ->
    turn_step c (mkCfg st' rest (c_bg_st c) (c_bg_input c) (c_bg_alive c)
                   (c_tripped c) (c_killed c) (c_events c ++ evs)%list
                   (if brk then AfterLoop else Looping))
| SelectEof c :
    c_phase c = Looping -> c_input c = [] ->
    turn_step c (mkCfg (c_st c) [] (c_bg_st c) (c_bg_input c) (c_bg_alive c)
                   (c_tripped c) (c_killed c) (c_events c) AfterLoop)
| ReaderLine c y rest bs' evs :
    c_bg_alive c = true -> c_bg_input c = y :: rest -> bg_step (c_bg_st c) y = Some (bs', evs) ->
    turn_step c (mkCfg (c_st c) (c_input c) bs' rest true
                   (c_tripped c) (c_killed c) (c_events c ++ evs)%list (c_phase c))
| ReaderPanic c y rest :
    c_bg_alive c = true -> c_bg_input c = y :: rest -> bg_step (c_bg_st c) y = None ->
    turn_step c (mkCfg (c_st c) (c_input c) (c_bg_st c) rest false
                   (c_tripped c) (c_killed c) (c_events c) (c_phase c))
| ReaderEof c :
    c_bg_alive c = true -> c_bg_input c = [] ->
    turn_step c (mkCfg (c_st c) (c_input c) (c_bg_st c) [] false
                   (c_tripped c) (c_killed c) (c_events c) (c_phase c))
| LoopExitReturn c evs r :
    c_phase c = AfterLoop -> c_bg_alive c = false -> finish (c_st c) = (evs, r) ->
    turn_step c (mkCfg (c_st c) (c_input c) (c_bg_st c) (c_bg_input c) false
                   (c_tripped c) (c_killed c) (c_events c ++ evs)%list (Returned r)).

(** The start of the loop, the token not yet tripped. *)
Definition turn_start (st : St) (input : list In) (bs : BgSt) (bg_input : list BgIn)
    (bg_alive : bool) : Cfg :=
  mkCfg st input bs bg_input bg_alive false false [] Looping.

(** What holds of a turn about cancellation: it returns Cancelled exactly
    when the child was killed, which happens only in the cancelled branch:
    after a trip, with the reader stopped and the result [cancelled_result];
    the step that kills emits no event. *)
Definition cancel_facts (c : Cfg) : Prop :=
  (forall r, c_phase c = Returned r ->
     (ar_terminal_reason r = Some Cancelled <-> c_killed c = true)) /\
  (c_killed c = true ->
     c_tripped c = true /\ c_bg_alive c = false /\ c_phase c = Returned cancelled_result) /\
  (forall c', turn_step c c' -> c_killed c = false -> c_killed c' = true ->
     c_tripped c = true /\ c_phase c = Looping /\ c_events c' = c_events c /\
     c_phase c' = Returned cancelled_result).

(** The invariant behind [cancel_facts]. *)
Definition turn_inv (c : Cfg) : Prop :=
  (c_killed c = true ->
     c_tripped c = true /\ c_bg_alive c = false /\ c_phase c = Returned cancelled_result) /\
  (forall r, c_phase c = Returned r ->
     c_bg_alive c = false /\ (ar_terminal_reason r = Some Cancelled -> c_killed c = true)).

End Loop.

End Turn.

(** The two adapters as instances of the loop. *)
Module Adapters.
Import Claude OpenCode Turn.

(** The Claude adapter: no separate reader task. *)
Definition claude_no_reader (_ : unit) (_ : unit) : option (unit * list AgentEvent) := None.

Definition claude_end (st : ClaudeSt) : list AgentEvent * AgentResult := ([], claude_finish st).

Definition claude_turn (hm_values : gmap N string -> list string) (mission_id : Uuid) :=
  turn_step (claude_step hm_values mission_id) claude_no_reader claude_end.

Definition ClaudeCfg : Type := @Cfg ClaudeSt ClaudeLine unit unit.

Definition claude_turn_start (lines : list ClaudeLine) : ClaudeCfg :=
  turn_start claude_init lines tt [] false.

(** The OpenCode adapter: the stderr reader runs (stderr is piped). *)
Definition opencode_turn (mission_id : Uuid) (exit : option string)
    (recover : string -> option string) :=
  turn_step (stdout_step mission_id) (stderr_line mission_id)
    (opencode_finish mission_id exit recover).

Definition OpenCodeCfg : Type := @Cfg (string * bool) StdoutRead StderrSt (string * string).

Definition opencode_turn_start (chunks : list StdoutRead) (stderr : list (string * string)) : OpenCodeCfg :=
  turn_start ("", false) chunks (None, None) stderr true.

End Adapters.

(** Sample turns. *)
Module TurnSamples.
Import Claude OpenCode Turn Adapters.

(** Claude: a tool call, then the success result. *)
Definition claude_lines : list ClaudeLine :=
  [LineEvent (AssistantEv [CBToolUse "t1" "bash" JNull]);
   LineEvent (ResultEv "success" false (Some "done") None)].

Definition claude_st_done : ClaudeSt := set_final
  (set_tools claude_init ∅ (<["t1" := "bash"]> ∅)) "done" false 0.

(** Tripped before any line was read. *)
Definition claude_tripped : ClaudeCfg :=
  mkCfg claude_init claude_lines tt [] false true false [] Looping.

Definition claude_returned : ClaudeCfg :=
  mkCfg claude_st_done [] tt [] false true false
    [ToolCall "t1" "bash" JNull (Some 1%N)] (Returned (AgentResult_success "done" 0)).

(** OpenCode: an error line on stderr, no stdout yet. *)
Definition oc_stderr : list (string * string) := [("Error: boom", "u1")].

Definition oc_tripped : OpenCodeCfg :=
  mkCfg ("", false) [] (None, None) oc_stderr true true false [] Looping.

Definition oc_returned : OpenCodeCfg :=
  mkCfg ("", false) [] (None, None) [] false true true
    [Error "Error: boom" (Some 1%N) true; Thinking "Error: boom" false (Some 1%N)]
    (Returned cancelled_result).

End TurnSamples.

(* ------------------------------------------------------------------ *)
(** ** The OpenCode storage fallback *)
Module Storage.

(** [value.get(key)] on a JSON object (a parsed object keeps the last of
    duplicated keys). *)
Fixpoint assoc_last (k : string) (fs : list (string * json)) : option json :=
  match fs with
  | [] => None
  | (k', v) :: rest =>
      match assoc_last k rest with
      | Some w => Some w
      | None => if String.eqb k k' then Some v else None
      end
  end.

Definition jget (v : json) (k : string) : option json :=
  match v with JObject fs => assoc_last k fs | _ => None end.

Definition as_str (v : json) : option string :=
  match v with JString s => Some s | _ => None end.

Definition as_i64 (v : json) : option Z :=
  match v with
  | JInt n => if (- 2 ^ 63 <=? n)%Z && (n <? 2 ^ 63)%Z then Some n else None
  | _ => None
  end.

(** [path.extension()] of a file name: what follows the last dot, unless
    that dot is the first character. *)
Fixpoint last_dot_from (s : string) (i : nat) (acc : option nat) : option nat :=
  match s with
  | EmptyString => acc
  | String c s' => last_dot_from s' (S i) (if Ascii.eqb c "."%char then Some i else acc)
  end.

Definition extension (file_name : string) : option string :=
  match last_dot_from file_name 0 None with
  | None | Some 0 => None
  | Some i => Some (String.substring (S i) (String.length file_name - S i) file_name)
  end.

Definition is_json_file (file_name : string) : bool :=
  match extension file_name with Some e => String.eqb e "json" | None => false end.

(** A directory entry as [read_dir(..).flatten()] yields it: its file name
    and what [read_to_string] then [serde_json::from_str] give ([None]:
    either fails). *)
Record Entry := mkEntry {
  file_name : string;
  contents : option json
}.

(** The storage tree: [message/<session_id>/] and [part/<message_id>/]
    listings (a missing key: the directory does not exist or cannot be
    read). *)
Record StorageTree := mkStorageTree {
  message_dirs : gmap string (list Entry);
  part_dirs : gmap string (list Entry)
}.

Definition role_of (value : json) : string := default "" (jget value "role" ≫= as_str).

Definition created_of (value : json) : Z :=
  default 0%Z (jget value "time" ≫= fun t => jget t "created" ≫= as_i64).

Definition id_of (value : json) : option string := jget value "id" ≫= as_str.

(** The first loop: [latest_time], [latest_message_id]; [None]: a [?]
    returned early. *)
Fixpoint scan_messages (entries : list Entry) (latest_time : Z)
    (latest_message_id : option string) : option (option string) :=
  match entries with
  | [] => Some latest_message_id
  | entry :: rest =>
      if negb (is_json_file (file_name entry))
      then scan_messages rest latest_time latest_message_id
      else
        match contents entry with
        | None => None
        | Some value =>
            if negb (String.eqb (role_of value) "assistant")
            then scan_messages rest latest_time latest_message_id
            else
              let created := created_of value in
              if (latest_time <=? created)%Z
              then scan_messages rest created (id_of value)
              else scan_messages rest latest_time latest_message_id
        end
  end.

(** The body of the second loop on one entry: [Some None] for [continue],
    [Some (Some (start, filename, text))] for a push, [None] for a [?]. *)
Definition read_part (entry : Entry) : option (option (Z * string * string)) :=
  if negb (is_json_file (file_name entry)) then Some None
  else
    match contents entry with
    | None => None
    | Some value =>
        let part_type := default "" (jget value "type" ≫= as_str) in
        if negb (String.eqb part_type "text") then Some None
        else
          let text := default "" (jget value "text" ≫= as_str) in
          if String.eqb text "" then Some None
          else
            let start := default 0%Z (jget value "time" ≫= fun t => jget t "start" ≫= as_i64) in
            Some (Some (start, file_name entry, text))
    end.

Fixpoint collect_parts (entries : list Entry) : option (list (Z * string * string)) :=
  match entries with
  | [] => Some []
  | entry :: rest =>
      match read_part entry with
      | None => None
      | Some p =>
          match collect_parts rest with
          | None => None
          | Some ps => Some (option_list p ++ ps)%list
          end
      end
  end.

(** The comparator of [parts.sort_by]: by start, then by file name (byte
    order); [part_le a b] when it does not answer [Greater]. *)
Definition part_le (a b : Z * string * string) : Prop :=
  (a.1.1 < b.1.1)%Z \/ (a.1.1 = b.1.1 /\ String.le a.1.2 b.1.2).

#[global] Instance part_le_dec : RelDecision part_le.
Proof. intros a b. unfold part_le. apply _. Defined.

Definition texts_concat (parts : list (Z * string * string)) : string :=
  String.concat "" (map (fun p => p.2) parts).

(** [parts.sort_by] is a stable sort, as stdpp's [merge_sort] is. *)
Definition load_latest_opencode_assistant_text (storage : StorageTree) (session_id : string)
  : option string :=
  entries ← message_dirs storage !! session_id;
  latest_message_id ← scan_messages entries 0 None;
  message_id ← latest_message_id;
  part_entries ← part_dirs storage !! message_id;
  parts ← collect_parts part_entries;
  match parts with
  | [] => None
  | _ =>
      let combined := texts_concat (merge_sort part_le parts) in
      if trim_is_empty combined then None else Some combined
  end.

(** Helpers for stating what the fallback reads. *)
Definition parses (entry : Entry) : Prop :=
  is_json_file (file_name entry) = true -> contents entry <> None.

Definition is_assistant (entry : Entry) : bool :=
  is_json_file (file_name entry) &&
  match contents entry with
  | Some value => String.eqb (role_of value) "assistant"
  | None => false
  end.

Definition message_created (entry : Entry) : Z :=
  match contents entry with Some value => created_of value | None => 0%Z end.

Definition message_id_of (entry : Entry) : option string :=
  match contents entry with Some value => id_of value | None => None end.

(** The text parts of a part directory, in listing order. *)
Definition text_parts (entries : list Entry) : list (Z * string * string) :=
  List.concat (map (fun e => match read_part e with Some (Some p) => [p] | _ => [] end) entries).

End Storage.

(** Sample storage trees. *)
Module StorageSamples.
Import Storage.

Definition msg_record (role id : string) (created : Z) : json :=
  JObject [("id", JString id); ("role", JString role);
           ("time", JObject [("created", JInt created)])].

Definition part_record (type text : string) (start : Z) : json :=
  JObject [("type", JString type); ("text", JString text);
           ("time", JObject [("start", JInt start)])].

Definition messages_ses : list Entry :=
  [mkEntry "msg_b.json" (Some (msg_record "assistant" "m1" 5));
   mkEntry "msg_a.json" (Some (msg_record "user" "m0" 7))].

Definition parts_m1 : list Entry :=
  [mkEntry "prt_2.json" (Some (part_record "text" "world" 2));
   mkEntry "prt_tool.json" (Some (part_record "tool" "ls" 0));
   mkEntry "prt_1.json" (Some (part_record "text" "hello " 1))].

Definition tree_hello : StorageTree :=
  mkStorageTree {[ "ses" := messages_ses ]} {[ "m1" := parts_m1 ]}.

(** One text part whose text is a single space. *)
Definition tree_blank : StorageTree :=
  mkStorageTree {[ "ses" := messages_ses ]}
    {[ "m1" := [mkEntry "prt_1.json" (Some (part_record "text" " " 1))] ]}.

(** No text part at all. *)
Definition tree_no_text : StorageTree :=
  mkStorageTree {[ "ses" := messages_ses ]}
    {[ "m1" := [mkEntry "prt_tool.json" (Some (part_record "tool" "ls" 0))] ]}.

End StorageSamples.

(** Sample keys and the key alphabet. *)
Module WorkspaceSamples.
Import Workspace.
Local Open Scope Z_scope.

Definition s_a : ustring := [97].
Definition s_a_2 : ustring := [97; 95; 50].
Definition s_a_3 : ustring := [97; 95; 51].

(** The characters a sanitised ASCII key consists of: [a-z0-9_]. *)
Definition key_char (c : Z) : bool :=
  ((48 <=? c) && (c <=? 57)) || ((97 <=? c) && (c <=? 122)) || (c =? 95).

End WorkspaceSamples.

(* ------------------------------------------------------------------ *)
(** ** The runner's other methods, and the calls its owner makes *)
Module RunnerOps.
Import Runner.

(** [MissionRunner::new]; [last_activity] is [Instant::now()] and the
    deliverable set is empty ([DeliverableSet::default()]). *)
Definition new_runner (mission_id workspace_id : Uuid) (agent_override backend_id : option string)
    (w : World) : MissionRunner :=
  mkRunner mission_id workspace_id (default "opencode" backend_id) Queued agent_override
    [] [] None None [] (now w) false.

(** [queue_message]: [push_back] onto the queue. *)
Definition queue_message (r : MissionRunner) (id : Uuid) (content : string)
    (agent : option string) : MissionRunner :=
  set_queue r (queue r ++ [mkQueuedMessage id content agent])%list.

(** [set_initial_message]; [extract_deliverables] (not in src/) is given
    as the paths it extracts. *)
Definition set_deliverables (r : MissionRunner) (ds : list string) : MissionRunner :=
  mkRunner (mission_id r) (workspace_id r) (backend_id r) (state r) (agent_override r)
    (queue r) (history r) (cancel_token r) (running_handle r) ds
    (last_activity r) (explicitly_completed r).

Definition is_finished (r : MissionRunner) : bool :=
  match state r with Finished => true | _ => false end.

(** [check_finished]: [running_handle.map(is_finished).unwrap_or(true)]. *)
Definition check_finished (r : MissionRunner) (w : World) : bool :=
  match running_handle r with
  | Some h => match handle_finished w h with Some _ => true | None => false end
  | None => true
  end.

Inductive MissionHealth :=
| Healthy
| Stalled (seconds_since_activity : N) (last_state : MissionRunState)
| MissingDeliverables (missing : list string)
| UnexpectedEnd (reason : string).

(** [check_health]; [missing] is what [deliverables.missing_paths()]
    finds on disk (the deliverables whose path does not exist), and the
    clock counts seconds ([Instant::elapsed] saturates at zero). *)
Definition check_health (r : MissionRunner) (w : World) (missing : list string) : MissionHealth :=
  let seconds_since := (now w - last_activity r)%N in
  if is_running r && (60 <? seconds_since)%N then Stalled seconds_since (state r)
  else if negb (is_running r) && negb (explicitly_completed r) &&
          negb (match deliverables r with [] => true | _ => false end)
  then match missing with
       | [] => Healthy
       | _ => MissingDeliverables missing
       end
  else Healthy.

(** What the runner's owner does with it, and what happens around it. *)
Inductive Op :=
| OpQueue (id : Uuid) (content : string) (agent : option string)
| OpSetInitialMessage (deliverables : list string)
| OpStartNext
| OpPoll
| OpCancel
| OpTouch
| OpTaskReturns (h : N) (res : AgentResult)
| OpTaskPanics (h : N)
| OpTick (secs : N).

(** A spawned task that is still running terminates. *)
Definition finish_task (w : World) (h : N) (f : Uuid -> string -> JoinOutcome) : World :=
  match tasks w !! h with
  | Some (TaskRunning mid input _ _) =>
      mkWorld (now w) (tokens w) (<[h := TaskDone (f mid input)]> (tasks w)) (events w) (next_ref w)
  | _ => w
  end.

Definition exec_op (rw : MissionRunner * World) (op : Op) : MissionRunner * World :=
  let '(r, w) := rw in
  match op with
  | OpQueue id content agent => (queue_message r id content agent, w)
  | OpSetInitialMessage ds => (set_deliverables r ds, w)
  | OpStartNext => let '(_, r', w') := start_next r w in (r', w')
  | OpPoll => (snd (poll_completion r w), w)
  | OpCancel => cancel r w
  | OpTouch => (touch r w, w)
  | OpTaskReturns h res => (r, finish_task w h (fun mid input => JoinOk mid input res))
  | OpTaskPanics h => (r, finish_task w h (fun _ _ => JoinPanicked))
  | OpTick secs => (r, mkWorld (now w + secs) (tokens w) (tasks w) (events w) (next_ref w))
  end.

Definition exec_ops (rw : MissionRunner * World) (ops : list Op) : MissionRunner * World :=
  fold_left exec_op ops rw.

(** The (id, content) of the messages an owner queues, in order. *)
Fixpoint queued_by (ops : list Op) : list (Uuid * string) :=
  match ops with
  | [] => []
  | OpQueue id content _ :: rest => (id, content) :: queued_by rest
  | _ :: rest => queued_by rest
  end.

(** The (id, content) of the UserMessage events of an event log. *)
Fixpoint user_messages (evs : list AgentEvent) : list (Uuid * string) :=
  match evs with
  | [] => []
  | UserMessage id content _ _ :: rest => (id, content) :: user_messages rest
  | _ :: rest => user_messages rest
  end.

Definition msg_key (m : QueuedMessage) : Uuid * string := (qm_id m, qm_content m).

(** The runner holds a task handle exactly when it is running. *)
Definition handle_inv (r : MissionRunner) : Prop :=
  running_handle r <> None <-> is_running r = true.

End RunnerOps.

(* ------------------------------------------------------------------ *)
(** ** The OpenCode output helpers *)
Module OpenCodeText.
Import OpenCode Storage.

Definition esc : ascii := ascii_of_nat 27.
Definition lf : ascii := ascii_of_nat 10.
Definition cr : ascii := ascii_of_nat 13.

(** [strip_ansi_codes] on the UTF-8 bytes of the input: ESC, '[' and 'm'
    are ASCII, and no byte of a multi-byte character is ASCII, so going
    byte by byte drops and keeps the same characters as [chars()] does.
    [skip_csi] is the inner [while let] that consumes up to the next 'm'. *)
Fixpoint strip_ansi_codes (s : string) : string :=
  match s with
  | EmptyString => EmptyString
  | String c s' =>
      if Ascii.eqb c esc then
        match s' with
        | String c' s'' => if Ascii.eqb c' "["%char then skip_csi s'' else String c (strip_ansi_codes s')
        | EmptyString => String c (strip_ansi_codes s')
        end
      else String c (strip_ansi_codes s')
  end
with skip_csi (s : string) : string :=
  match s with
  | EmptyString => EmptyString
  | String c s' => if Ascii.eqb c "m"%char then strip_ansi_codes s' else skip_csi s'
  end.

(** [char::is_ascii_alphanumeric] (a byte of a multi-byte character is
    not, so the token stops there as it does at the character). *)
Definition is_ascii_alphanumeric (c : ascii) : bool :=
  let n := nat_of_ascii c in
  (Nat.leb 48 n && Nat.leb n 57) || (Nat.leb 65 n && Nat.leb n 90) || (Nat.leb 97 n && Nat.leb n 122).

Definition token_char (c : ascii) : bool :=
  is_ascii_alphanumeric c || Ascii.eqb c "-"%char || Ascii.eqb c "_"%char.

(** The [for] loop of [parse_opencode_session_token]. *)
Fixpoint take_token (value : string) : string :=
  match value with
  | String c s => if token_char c then String c (take_token s) else EmptyString
  | EmptyString => EmptyString
  end.

Definition parse_opencode_session_token (value : string) : option string :=
  let token := take_token value in
  if String.prefix "ses_" token then Some token
  else if Nat.ltb (String.length token) 8 then None else Some token.

(** [line.strip_suffix('\r')]. *)
Fixpoint strip_cr (l : string) : string :=
  match l with
  | EmptyString => EmptyString
  | String c EmptyString => if Ascii.eqb c cr then EmptyString else l
  | String c l' => String c (strip_cr l')
  end.

(** A line as [str::lines] yields it: a CR is dropped only before the LF
    that ends the line. *)
Definition finish_line (l : string) (terminated : bool) : string :=
  if terminated then strip_cr l else l.

(** [str::lines]: split at LF; a final LF does not start another line.
    [lines_go] gives the first line, whether an LF ends it, and the lines
    after it. *)
Fixpoint lines_go (s : string) : string * bool * list string :=
  match s with
  | EmptyString => (EmptyString, false, [])
  | String c s' =>
      if Ascii.eqb c lf then
        (EmptyString, true,
         match s' with
         | EmptyString => []
         | _ => let '(l, t, ls) := lines_go s' in finish_line l t :: ls
         end)
      else let '(l, t, ls) := lines_go s' in (String c l, t, ls)
  end.

Definition lines (s : string) : list string :=
  match s with
  | EmptyString => []
  | _ => let '(l, t, ls) := lines_go s in finish_line l t :: ls
  end.

(** [str::to_lowercase] restricted to ASCII text, where it lowers A-Z
    byte for byte. *)
Definition ascii_lower_char (c : ascii) : ascii :=
  let n := nat_of_ascii c in
  if Nat.leb 65 n && Nat.leb n 90 then ascii_of_nat (n + 32) else c.

Fixpoint ascii_lowercase (s : string) : string :=
  match s with
  | EmptyString => EmptyString
  | String c s' => String (ascii_lower_char c) (ascii_lowercase s')
  end.

Section Lower.
(** [str::to_lowercase] on UTF-8 bytes (Unicode case mapping, which may
    change the byte length of non-ASCII text). *)
Variable to_lowercase : string -> string.

Definition session_keys : list string := ["session id:"; "session:"; "session_id:"; "session="].

(** The inner [for key in ...] loop on one trimmed line: [None] when
    [trimmed[idx + key.len()..]] panics, [Some None] when no key gives a
    token. *)
Fixpoint try_keys (lower trimmed : string) (keys : list string) : option (option string) :=
  match keys with
  | [] => Some None
  | key :: ks =>
      match find lower key with
      | None => try_keys lower trimmed ks
      | Some idx =>
          match slice_from trimmed (idx + String.length key) with
          | None => None
          | Some rest =>
              match parse_opencode_session_token (str_trim rest) with
              | Some token => Some (Some token)
              | None => try_keys lower trimmed ks
              end
          end
      end
  end.

Fixpoint extract_from_lines (ls : list string) : option (option string) :=
  match ls with
  | [] => Some None
  | line :: rest =>
      let trimmed := str_trim line in
      if String.eqb trimmed "" then extract_from_lines rest
      else
        match try_keys (to_lowercase trimmed) trimmed session_keys with
        | None => None
        | Some (Some token) => Some (Some token)
        | Some None => extract_from_lines rest
        end
  end.

(** [extract_opencode_session_id]; [None]: it panics. *)
Definition extract_opencode_session_id (output : string) : option (option string) :=
  extract_from_lines (lines output).

Definition banner_phrases : list string :=
  ["starting opencode server"; "opencode server started"; "sending prompt";
   "waiting for completion"; "all tasks completed"; "completed"; "session id:"; "session:"].

Definition is_banner (lower : string) : bool := existsb (contains lower) banner_phrases.

Definition opencode_output_needs_fallback (output : string) : bool :=
  let ls := List.filter (fun l => negb (String.eqb l "")) (map str_trim (lines (strip_ansi_codes output))) in
  match ls with
  | [] => true
  | _ => forallb (fun l => is_banner (to_lowercase l)) ls
  end.

(** The fallback block after the OpenCode loop: [captured] is the session
    id the stderr task stored first. [Some None]: the output is kept;
    [Some (Some text)]: replaced by the stored text; [None]: it panics
    (in [extract_opencode_session_id]). *)
Definition storage_fallback (storage : StorageTree) (captured : option string)
    (final_result : string) : option (option string) :=
  if opencode_output_needs_fallback final_result then
    match captured with
    | Some session_id => Some (load_latest_opencode_assistant_text storage session_id)
    | None =>
        match extract_opencode_session_id final_result with
        | None => None
        | Some None => Some None
        | Some (Some session_id) => Some (load_latest_opencode_assistant_text storage session_id)
        end
    end
  else Some None.

End Lower.

Definition no_char (a : ascii) (s : string) : Prop := Forall (fun c => c <> a) (list_ascii_of_string s).

Definition token_stops (rest : string) : Prop :=
  match rest with
  | EmptyString => True
  | String c _ => token_char c = false
  end.

Definition valid_token (t : string) : Prop :=
  Forall (fun c => token_char c = true) (list_ascii_of_string t) /\
  (String.prefix "ses_" t = true \/ 8 <= String.length t).

Definition chars_ok (P : ascii -> Prop) (s : string) : Prop := Forall P (list_ascii_of_string s).

Definition is_ascii_str (s : string) : Prop := chars_ok (fun c => nat_of_ascii c < 128) s.

End OpenCodeText.

(* ------------------------------------------------------------------ *)
(** ** Whole runs of the adapters' read loops *)
Module AdapterRuns.
Import Claude OpenCode.

(** The lines on which the Claude loop [break]s: a read error and the
    Result event. *)
Definition claude_breaks (l : ClaudeLine) : bool :=
  match l with
  | LineReadError | LineEvent (ResultEv _ _ _ _) => true
  | _ => false
  end.

(** Lines that can set the final result: assistant messages and the
    Result event. *)
Definition sets_result (l : ClaudeLine) : bool :=
  match l with
  | LineEvent (AssistantEv _) | LineEvent (ResultEv _ _ _ _) => true
  | _ => false
  end.

(** The message [claude_finish] reports when the CLI produced nothing. *)
Definition no_output_message : string :=
  "Claude Code produced no output. Check CLI installation or authentication.".

(** The OpenCode stdout loop without cancellation, up to EOF or a [break]. *)
Fixpoint stdout_run (mission_id : Uuid) (st : string * bool) (reads : list StdoutRead)
  : (string * bool) * list AgentEvent :=
  match reads with
  | [] => (st, [])
  | r :: rest =>
      let '(st', evs, brk) := stdout_step mission_id st r in
      if brk then (st', evs)
      else let '(st'', evs') := stdout_run mission_id st' rest in (st'', (evs ++ evs')%list)
  end.

(** The stderr reader task over its lines, up to EOF or a panic. *)
Fixpoint stderr_run (mission_id : Uuid) (bs : StderrSt) (lines : list (string * string))
  : StderrSt * list AgentEvent :=
  match lines with
  | [] => (bs, [])
  | l :: rest =>
      match stderr_line mission_id bs l with
      | None => (bs, [])
      | Some (bs', evs) => let '(bs'', evs') := stderr_run mission_id bs' rest in (bs'', (evs ++ evs')%list)
      end
  end.

(** The test the stdout loop applies to each chunk for [had_error]. *)
Definition chunk_has_error (c : string) : bool := contains c "Error:" || contains c "error:".

(** The last tool call the stderr task remembers, as a pair. *)
Definition last_call (bs : StderrSt) : option (string * string) :=
  match bs with
  | (Some id, Some name) => Some (id, name)
  | _ => None
  end.

(** Every ToolResult of an event list names the id and tool of the latest
    ToolCall before it ([last]), or the defaults when there is none. *)
Fixpoint results_paired (last : option (string * string)) (evs : list AgentEvent) : Prop :=
  match evs with
  | [] => True
  | ToolCall id name _ _ :: rest => results_paired (Some (id, name)) rest
  | ToolResult id name _ _ :: rest =>
      match last with
      | Some (id', name') => id = id' /\ name = name'
      | None => name = "unknown" /\ String.prefix "opencode-" id = true
      end /\ results_paired last rest
  | _ :: rest => results_paired last rest
  end.

(** The locals the Claude loop reports besides the text. *)
Definition err_cost (st : ClaudeSt) : bool * N := (had_error st, total_cost st).

End AdapterRuns.



(* ------------------------------------------------------------------ *)
(** ** The MCP map of [opencode.json] *)
Module WorkspaceConfig.
Import Workspace.

(** Modelled from the spec: [McpTransport] of [crate::mcp] (not in src/),
    with the fields [workspace.rs] reads: an HTTP endpoint, or a stdio
    command with its arguments and environment ([HashMap<String, String>]). *)
Inductive McpTransport :=
| Http (endpoint : string)
| Stdio (command : string) (args : list string) (env : gmap string string).

(** Modelled from the spec: [McpServerConfig] of [crate::mcp] (not in
    src/), with the fields [workspace.rs] reads. The name is kept as code
    points, the input of [sanitize_key]. *)
Record McpServerConfig := mkMcpServerConfig {
  name : ustring;
  enabled : bool;
  transport : McpTransport
}.

(** The JSON object [opencode_entry_from_mcp] builds, by its fields:
    [{"type": "http", "endpoint", "enabled"}], or
    [{"type": "local", "command", "enabled"}] with an "environment" field
    when the merged environment is not empty. *)
Inductive OpencodeEntry :=
| EntryHttp (endpoint : string) (enabled : bool)
| EntryLocal (command : list string) (enabled : bool) (environment : option (gmap string string)).

Definition workspace_var : string := "OPEN_AGENT_WORKSPACE".

(** [opencode_entry_from_mcp]; [workspace_dir] is
    [workspace_dir.to_string_lossy()]. *)
Definition opencode_entry_from_mcp (config : McpServerConfig) (workspace_dir : string) : OpencodeEntry :=
  match transport config with
  | Http endpoint => EntryHttp endpoint (enabled config)
  | Stdio command args env =>
      let cmd := command :: args in
      let merged_env :=
        match env !! workspace_var with
        | Some _ => env
        | None => <[workspace_var := workspace_dir]> env
        end in
      EntryLocal cmd (enabled config)
        (if decide (merged_env = ∅) then None else Some merged_env)
  end.

(** The loop of [write_opencode_config] over the enabled configs: the key
    from [unique_key] on the shared [used] set, then [mcp_map.insert].
    [None] only if [unique_key] ran out of its (sufficient) fuel. *)
Fixpoint insert_entries `{UnicodeTables} (workspace_dir : string) (configs : list McpServerConfig)
    (used : gset ustring) (mcp_map : gmap ustring OpencodeEntry)
  : option (gmap ustring OpencodeEntry) :=
  match configs with
  | [] => Some mcp_map
  | config :: rest =>
      let base := sanitize_key (name config) in
      match unique_key base used with
      | None => None
      | Some (key, used') =>
          insert_entries workspace_dir rest used'
            (<[key := opencode_entry_from_mcp config workspace_dir]> mcp_map)
      end
  end.

(** The ["mcp"] map [write_opencode_config] writes. *)
Definition opencode_mcp_map `{UnicodeTables} (workspace_dir : string) (mcp_configs : list McpServerConfig)
  : option (gmap ustring OpencodeEntry) :=
  insert_entries workspace_dir (List.filter enabled mcp_configs) ∅ ∅.

End WorkspaceConfig.

Module WorkspaceDirs.
Local Open Scope N_scope.

(** A lowercase hex digit. *)
Definition hex_digit (n : N) : ascii :=
  if n <? 10 then ascii_of_N (48 + n) else ascii_of_N (87 + n).

(** The [k]-th 4-bit group of a 128-bit uuid, from the least significant. *)
Definition nibble (u : Uuid) (k : nat) : N := N.land (N.shiftr u (4 * N.of_nat k)) 15.

(** The hex digits of nibbles [k + n - 1] down to [k]. *)
Fixpoint hex_nibbles (u : Uuid) (k n : nat) : string :=
  match n with
  | O => EmptyString
  | S n' => String (hex_digit (nibble u (k + n'))) (hex_nibbles u k n')
  end.

(** [Uuid::to_string]: the hyphenated lowercase form, 8-4-4-4-12 digits. *)
Definition uuid_to_string (u : Uuid) : string :=
  hex_nibbles u 24 8 ++ "-" ++ hex_nibbles u 20 4 ++ "-" ++ hex_nibbles u 16 4 ++ "-" ++
  hex_nibbles u 12 4 ++ "-" ++ hex_nibbles u 0 12.

(** [&s[..k]]: [None] when it panics ([k] past the end or not on a
    character boundary of the UTF-8 bytes). *)
Definition slice_to (s : string) (k : nat) : option string :=
  match String.get k s with
  | None => if Nat.eqb k (String.length s) then Some s else None
  | Some c =>
      if Nat.leb 128 (nat_of_ascii c) && Nat.ltb (nat_of_ascii c) 192 then None
      else Some (String.substring 0 k s)
  end.

Fixpoint last_char (s : string) : option ascii :=
  match s with
  | EmptyString => None
  | String c EmptyString => Some c
  | String _ s' => last_char s'
  end.

(** [Path::join] on a Unix path: an absolute component replaces the path;
    otherwise a separator is added unless the path is empty or already ends
    with one. *)
Definition path_join (base p : string) : string :=
  if String.prefix "/" p then p
  else match last_char base with
       | None => p
       | Some c => if Ascii.eqb c "/"%char then base ++ p else base ++ "/" ++ p
       end.

Definition workspaces_root (working_dir : string) : string := path_join working_dir "workspaces".

Definition mission_workspace_dir (working_dir : string) (mission_id : Uuid) : option string :=
  match slice_to (uuid_to_string mission_id) 8 with
  | None => None
  | Some short_id => Some (path_join (workspaces_root working_dir) ("mission-" ++ short_id))
  end.

Definition task_workspace_dir (working_dir : string) (task_id : Uuid) : option string :=
  match slice_to (uuid_to_string task_id) 8 with
  | None => None
  | Some short_id => Some (path_join (workspaces_root working_dir) ("task-" ++ short_id))
  end.

End WorkspaceDirs.

(* ------------------------------------------------------------------ *)
(** ** The backend config readers *)
Module BackendConfig.
Import Storage.

Definition as_bool (v : json) : option bool :=
  match v with JBool b => Some b | _ => None end.

(** The loop shared by [get_claudecode_cli_path_from_config],
    [get_opencode_cli_path_from_config] and
    [get_opencode_permissive_from_config]: the first config whose "id" is
    [backend] and whose "settings" give a value ([pick]); a config without
    a string "id" returns [None] at once ([config.get("id")?.as_str()?]). *)
Fixpoint first_setting {A} (backend : string) (pick : json -> option A) (configs : list json)
  : option A :=
  match configs with
  | [] => None
  | config :: rest =>
      match jget config "id" ≫= as_str with
      | None => None
      | Some id =>
          if String.eqb id backend then
            match jget config "settings" ≫= pick with
            | Some x => Some x
            | None => first_setting backend pick rest
            end
          else first_setting backend pick rest
      end
  end.

(** [settings.get("cli_path").and_then(|v| v.as_str())], kept when not
    empty. *)
Definition cli_path_setting (settings : json) : option string :=
  match jget settings "cli_path" ≫= as_str with
  | Some cli_path => if String.eqb cli_path "" then None else Some cli_path
  | None => None
  end.

(** [settings.get("permissive").and_then(|v| v.as_bool())] *)
Definition permissive_setting (settings : json) : option bool :=
  jget settings "permissive" ≫= as_bool.

(** The readers, given what [read_backend_configs] returns (the first
    candidate file that reads and parses as an array; [None] if none does
    or HOME is unset). *)
Definition get_claudecode_cli_path_from_config (configs : option (list json)) : option string :=
  configs ≫= first_setting "claudecode" cli_path_setting.

Definition get_opencode_cli_path_from_config (configs : option (list json)) : option string :=
  configs ≫= first_setting "opencode" cli_path_setting.

Definition get_opencode_permissive_from_config (configs : option (list json)) : option bool :=
  configs ≫= first_setting "opencode" permissive_setting.

(** A config the loop passes over: it has a string "id", and that id is
    not [backend] or its settings give nothing. *)
Definition passed_over {A} (backend : string) (pick : json -> option A) (config : json) : Prop :=
  exists id, jget config "id" ≫= as_str = Some id /\
             (id <> backend \/ jget config "settings" ≫= pick = None).

(** A claudecode config with a cli_path. *)
Definition claude_cfg : json :=
  JObject [("id", JString "claudecode"); ("settings", JObject [("cli_path", JString "/usr/bin/claude")])].

End BackendConfig.

(* ------------------------------------------------------------------ *)
(** ** Message listings of the storage fallback *)
Module StorageScan.
Import Storage StorageSamples.

(** A [.json] message file that does not read or parse, on which the
    first loop of [load_latest_opencode_assistant_text] returns early. *)
Definition unparsed_json (entry : Entry) : bool :=
  is_json_file (file_name entry) && match contents entry with None => true | Some _ => false end.

(** The sample session with an unreadable message file appended. *)
Definition messages_broken : list Entry :=
  (messages_ses ++ [mkEntry "msg_c.json" None])%list.

Definition tree_broken : StorageTree :=
  mkStorageTree {[ "ses" := messages_broken ]} {[ "m1" := parts_m1 ]}.

(** The sample parts of "m1" with an unreadable part file appended. *)
Definition parts_broken : list Entry :=
  (parts_m1 ++ [mkEntry "prt_3.json" None])%list.

Definition tree_broken_part : StorageTree :=
  mkStorageTree {[ "ses" := messages_ses ]} {[ "m1" := parts_broken ]}.

End StorageScan.

(* ================================================================== *)
(** * Theorems *)

Module StringFacts.

Lemma length_append (s1 s2 : string) :
  String.length (s1 ++ s2) = String.length s1 + String.length s2.
Proof. induction s1; simpl; auto. Qed.

Lemma append_assoc (s1 s2 s3 : string) : (s1 ++ s2) ++ s3 = s1 ++ (s2 ++ s3).
Proof. induction s1; simpl; congruence. Qed.

Lemma append_nil_r (s : string) : s ++ "" = s.
Proof. induction s; simpl; congruence. Qed.

Lemma append_nonempty_l (s1 s2 : string) : s1 <> "" -> s1 ++ s2 <> "".
Proof. destruct s1; [congruence | discriminate]. Qed.

End StringFacts.

Module TrimProofs.

Lemma chars_bytes_cons (c : Z) (bs : list ascii) (r : list (Z * list ascii)) :
  chars_bytes ((c, bs) :: r) = (bs ++ chars_bytes r)%list.
Proof. reflexivity. Qed.

Lemma utf8_chars_bytes_len (n : nat) : forall l, length l <= n ->
  chars_bytes (utf8_chars l) = l /\ Forall (fun p => p.2 <> []) (utf8_chars l).
Proof.
  assert (Hstep : forall c bs r l', bs <> [] ->
            chars_bytes r = l' /\ Forall (fun p => p.2 <> []) r ->
            chars_bytes ((c, bs) :: r) = (bs ++ l')%list /\ Forall (fun p => p.2 <> []) ((c, bs) :: r)).
  { intros c bs r l' Hbs [H1 H2]. rewrite chars_bytes_cons, H1. split; [reflexivity | constructor; assumption]. }
  induction n as [|n IH]; intros l Hl.
  - destruct l; [split; [reflexivity | constructor] | simpl in Hl; lia].
  - destruct l as [|b0 r0]; [split; [reflexivity | constructor]|].
    simpl in Hl.
    assert (IH0 := IH r0 ltac:(lia)).
    cbn [utf8_chars].
    destruct (byte_val b0 <? 128)%Z; [apply (Hstep _ [b0]); [discriminate | exact IH0]|].
    destruct ((192 <=? byte_val b0)%Z && (byte_val b0 <? 224)%Z).
    { destruct r0 as [|b1 r1]; cbn beta iota; [apply (Hstep _ [b0]); [discriminate | exact IH0]|].
      destruct (is_cont b1); [|apply (Hstep _ [b0]); [discriminate | exact IH0]].
      simpl in Hl. apply (Hstep _ [b0; b1]); [discriminate | apply IH; lia]. }
    destruct ((224 <=? byte_val b0)%Z && (byte_val b0 <? 240)%Z).
    { destruct r0 as [|b1 [|b2 r2]]; cbn beta iota; try (apply (Hstep _ [b0]); [discriminate | exact IH0]).
      destruct (is_cont b1 && is_cont b2); [|apply (Hstep _ [b0]); [discriminate | exact IH0]].
      simpl in Hl. apply (Hstep _ [b0; b1; b2]); [discriminate | apply IH; lia]. }
    destruct ((240 <=? byte_val b0)%Z && (byte_val b0 <? 248)%Z).
    { destruct r0 as [|b1 [|b2 [|b3 r3]]]; cbn beta iota; try (apply (Hstep _ [b0]); [discriminate | exact IH0]).
      destruct (is_cont b1 && is_cont b2 && is_cont b3); [|apply (Hstep _ [b0]); [discriminate | exact IH0]].
      simpl in Hl. apply (Hstep _ [b0; b1; b2; b3]); [discriminate | apply IH; lia]. }
    apply (Hstep _ [b0]); [discriminate | exact IH0].
Qed.

Lemma utf8_chars_bytes (l : list ascii) : chars_bytes (utf8_chars l) = l.
Proof. exact (proj1 (utf8_chars_bytes_len (length l) l (le_n _))). Qed.

Lemma utf8_chars_nonempty (l : list ascii) : Forall (fun p => p.2 <> []) (utf8_chars l).
Proof. exact (proj2 (utf8_chars_bytes_len (length l) l (le_n _))). Qed.

Lemma chars_bytes_app (x y : list (Z * list ascii)) :
  chars_bytes (x ++ y) = (chars_bytes x ++ chars_bytes y)%list.
Proof. unfold chars_bytes. rewrite map_app, concat_app. reflexivity. Qed.

Lemma drop_ws_suffix (cs : list (Z * list ascii)) : exists pre, cs = (pre ++ drop_ws cs)%list.
Proof.
  induction cs as [|[c bs] rest IH]; [exists []; reflexivity|]. simpl.
  destruct (char_is_whitespace c); [|exists []; reflexivity].
  destruct IH as [pre Hpre]. exists ((c, bs) :: pre). simpl. rewrite <- Hpre. reflexivity.
Qed.

Lemma drop_ws_nil (cs : list (Z * list ascii)) :
  drop_ws cs = [] <-> forallb (fun p => char_is_whitespace p.1) cs = true.
Proof.
  induction cs as [|[c bs] rest IH]; simpl; [tauto|].
  destruct (char_is_whitespace c); simpl; [exact IH|]. split; discriminate.
Qed.

Lemma drop_ws_all (cs : list (Z * list ascii)) :
  forallb (fun p => char_is_whitespace p.1) (drop_ws cs) = true -> drop_ws cs = [].
Proof.
  induction cs as [|[c bs] rest IH]; simpl; [reflexivity|].
  destruct (char_is_whitespace c) eqn:Hc; [exact IH|]. simpl. rewrite Hc. discriminate.
Qed.

Lemma forallb_rev {A} (f : A -> bool) (l : list A) : forallb f (rev l) = forallb f l.
Proof.
  induction l as [|x l IH]; simpl; [reflexivity|].
  rewrite forallb_app, IH. simpl. rewrite andb_true_r, andb_comm. reflexivity.
Qed.

Lemma chars_bytes_nil (cs : list (Z * list ascii)) :
  Forall (fun p => p.2 <> []) cs -> chars_bytes cs = [] -> cs = [].
Proof.
  intros Hne H. destruct cs as [|[c bs] rest]; [reflexivity|].
  inversion Hne; subst. unfold chars_bytes in H. simpl in H.
  destruct bs; [contradiction | discriminate].
Qed.

(** The bytes of the trimmed string: a run of whole chars of [s]. *)
Lemma str_trim_infix (s : string) :
  exists pre cs post,
    utf8_chars (list_ascii_of_string s) = (pre ++ cs ++ post)%list /\
    list_ascii_of_string (str_trim s) = chars_bytes cs /\
    (cs = [] <-> forallb (fun p => char_is_whitespace p.1) (utf8_chars (list_ascii_of_string s)) = true).
Proof.
  set (all := utf8_chars (list_ascii_of_string s)).
  destruct (drop_ws_suffix all) as [pre Hpre].
  destruct (drop_ws_suffix (rev (drop_ws all))) as [post' Hpost].
  exists pre, (rev (drop_ws (rev (drop_ws all)))), (rev post').
  split; [|split].
  - rewrite Hpre at 1. f_equal.
    rewrite <- (rev_involutive (drop_ws all)) at 1. rewrite Hpost at 1.
    rewrite rev_app_distr. reflexivity.
  - unfold str_trim. rewrite list_ascii_of_string_of_list_ascii. reflexivity.
  - split.
    + intros H. apply (f_equal (@rev _)) in H. rewrite rev_involutive in H. simpl in H.
      apply drop_ws_nil in H. rewrite forallb_rev in H.
      apply drop_ws_all in H. apply drop_ws_nil, H.
    + intros H. apply drop_ws_nil in H. rewrite H. reflexivity.
Qed.

Lemma Forall_infix {A} (P : A -> Prop) (pre x post : list A) :
  Forall P (pre ++ x ++ post)%list -> Forall P x.
Proof. intros H. apply Forall_app in H as [_ H]. apply Forall_app in H as [H _]. exact H. Qed.


Lemma string_nil_iff (s : string) : s = "" <-> list_ascii_of_string s = [].
Proof.
  split; [intros ->; reflexivity|]. destruct s; [reflexivity | discriminate].
Qed.

Lemma str_trim_empty_iff (s : string) :
  str_trim s = "" <->
  forallb (fun p => char_is_whitespace p.1) (utf8_chars (list_ascii_of_string s)) = true.
Proof.
  destruct (str_trim_infix s) as (pre & cs & post & Hs & Hb & Hiff).
  rewrite string_nil_iff, Hb, <- Hiff. split; [|intros ->; reflexivity].
  apply chars_bytes_nil.
  pose proof (utf8_chars_nonempty (list_ascii_of_string s)) as Hne. rewrite Hs in Hne.
  exact (Forall_infix _ _ _ _ Hne).
Qed.

Lemma trim_is_empty_iff (s : string) :
  trim_is_empty s = true <->
  forallb (fun p => char_is_whitespace p.1) (utf8_chars (list_ascii_of_string s)) = true.
Proof. unfold trim_is_empty. rewrite String.eqb_eq. apply str_trim_empty_iff. Qed.

Lemma utf8_chars_ascii (l : list ascii) :
  Forall (fun b => (byte_val b < 128)%Z) l -> utf8_chars l = map (fun b => (byte_val b, [b])) l.
Proof.
  induction l as [|b l IH]; intros H; [reflexivity|].
  inversion H as [|? ? Hb Hl]; subst. simpl.
  replace (byte_val b <? 128)%Z with true by (symmetry; apply Z.ltb_lt; exact Hb).
  rewrite IH by exact Hl. reflexivity.
Qed.

Lemma is_space_ws (b : ascii) :
  Ascii.is_space b = true -> (byte_val b < 128)%Z /\ char_is_whitespace (byte_val b) = true.
Proof.
  intros H. destruct b as [[] [] [] [] [] [] [] []]; try discriminate H; split; reflexivity.
Qed.


(** An ASCII byte always decodes as a char of its own: decoding splits
    around it. *)
Lemma utf8_chars_split_len (n : nat) : forall (a c : list ascii) (b : ascii), length a <= n ->
  (byte_val b < 128)%Z ->
  utf8_chars (a ++ b :: c)%list = (utf8_chars a ++ (byte_val b, [b]) :: utf8_chars c)%list.
Proof.
  assert (Hnc : forall b, (byte_val b < 128)%Z -> is_cont b = false).
  { intros b Hb. unfold is_cont. apply andb_false_intro1. apply Z.leb_gt. exact Hb. }
  assert (Hb0 : forall b c, (byte_val b < 128)%Z ->
            utf8_chars (b :: c) = (byte_val b, [b]) :: utf8_chars c).
  { intros b c Hb. simpl. replace (byte_val b <? 128)%Z with true by (symmetry; apply Z.ltb_lt; exact Hb).
    reflexivity. }
  induction n as [|n IH]; intros a c b Ha Hb.
  { destruct a; [simpl; apply Hb0, Hb | simpl in Ha; lia]. }
  destruct a as [|b0 r0]; [apply Hb0, Hb|].
  simpl in Ha.
  assert (IH0 := IH r0 c b ltac:(lia) Hb).
  pose proof (Hnc b Hb) as Hcb.
  cbn [utf8_chars app].
  destruct (byte_val b0 <? 128)%Z; [rewrite IH0; reflexivity|].
  destruct ((192 <=? byte_val b0)%Z && (byte_val b0 <? 224)%Z).
  { destruct r0 as [|b1 r1];
      [cbn [app] in *; cbn beta iota; rewrite Hcb; rewrite IH0; reflexivity|].
    cbn [app] in *. destruct (is_cont b1); [|rewrite IH0; reflexivity].
    simpl in Ha. rewrite (IH r1 c b ltac:(lia) Hb). reflexivity. }
  destruct ((224 <=? byte_val b0)%Z && (byte_val b0 <? 240)%Z).
  { destruct r0 as [|b1 [|b2 r2]];
      [destruct c as [|x r]; cbn [app] in *; cbn beta iota; rewrite ?Hcb, ?andb_false_r, ?andb_false_l;
       rewrite IH0; reflexivity
      |cbn [app] in *; cbn beta iota; rewrite ?Hcb, ?andb_false_r, ?andb_false_l; rewrite IH0; reflexivity
      |].
    cbn [app] in *. destruct (is_cont b1 && is_cont b2); [|rewrite IH0; reflexivity].
    simpl in Ha. rewrite (IH r2 c b ltac:(lia) Hb). reflexivity. }
  destruct ((240 <=? byte_val b0)%Z && (byte_val b0 <? 248)%Z).
  { destruct r0 as [|b1 [|b2 [|b3 r3]]];
      [destruct c as [|x [|y r]] | destruct c as [|x r] | |];
      try (cbn [app] in *; cbn beta iota; rewrite ?Hcb, ?andb_false_r, ?andb_false_l;
           rewrite IH0; reflexivity).
    cbn [app] in *. destruct (is_cont b1 && is_cont b2 && is_cont b3); [|rewrite IH0; reflexivity].
    simpl in Ha. rewrite (IH r3 c b ltac:(lia) Hb). reflexivity. }
  rewrite IH0. reflexivity.
Qed.

Lemma utf8_chars_split (a c : list ascii) (b : ascii) :
  (byte_val b < 128)%Z ->
  utf8_chars (a ++ b :: c)%list = (utf8_chars a ++ (byte_val b, [b]) :: utf8_chars c)%list.
Proof. apply (utf8_chars_split_len (length a)). lia. Qed.


Lemma ws_all_split (a c : list ascii) (b : ascii) :
  (byte_val b < 128)%Z -> ws_all (a ++ b :: c)%list = true -> ws_all a = true /\ ws_all c = true.
Proof.
  unfold ws_all. intros Hb. rewrite utf8_chars_split by exact Hb.
  rewrite forallb_app. simpl. intros H.
  apply andb_prop in H as [Ha H]. apply andb_prop in H as [_ Hc]. auto.
Qed.

(** [str::trim] removes Unicode white space: U+00A0 (bytes C2 A0) and
    U+3000 (bytes E3 80 80) as well as ASCII blanks. *)
Example str_trim_unicode :
  str_trim (String (ascii_of_nat 194) (String (ascii_of_nat 160) " ok" ++
            String (ascii_of_nat 227) (String (ascii_of_nat 128) (String (ascii_of_nat 128) "")))) = "ok" /\
  trim_is_empty (String (ascii_of_nat 194) (String (ascii_of_nat 160) "")) = true /\
  trim_is_empty (String (ascii_of_nat 194) (String (ascii_of_nat 169) "")) = false.
Proof. vm_compute. auto. Qed.

End TrimProofs.

Module RunnerProofs.
Import Runner RunnerSamples.

Example start_next_sample :
  fst (fst (start_next (set_queue runner0 [msg1]) world0)) = true.
Proof. reflexivity. Qed.

(** C1 (as stated: a finished turn whose output carries the
    [complete_mission] sentinel leaves the runner Finished). Refuted: the
    runner goes back to Queued and only the [explicitly_completed] flag
    records the completion. *)
Lemma poll_completion_sentinel_stays_queued :
  let '(res, r') := poll_completion runner_waiting (world_done (JoinOk 11 "go" res_completed)) in
  contains (ar_output res_completed) "complete_mission" = true /\
  res = Some (11%N, "go", res_completed) /\
  state r' = Queued /\ state r' <> Finished /\ explicitly_completed r' = true.
Proof. vm_compute. repeat split; discriminate. Qed.

(** C1 (amended): when the runner's turn task has finished without
    panicking, [poll_completion] returns the task's (message id, input,
    result), clears the handle, sets [last_activity] to now, appends the
    (user, assistant) pair to the history, sets the state to Queued, and
    sets [explicitly_completed] when the output contains "Mission marked as"
    or "complete_mission"; nothing else of the runner changes. *)
Theorem poll_completion_ok (r : MissionRunner) (w : World) (h mid : N)
    (input : string) (res : AgentResult) :
  running_handle r = Some h ->
  handle_finished w h = Some (JoinOk mid input res) ->
  poll_completion r w =
    (Some (mid, input, res),
     mkRunner (mission_id r) (workspace_id r) (backend_id r) Queued (agent_override r)
       (queue r) (history r ++ [("user", input); ("assistant", ar_output res)])%list
       (cancel_token r) None (deliverables r) (now w)
       (explicitly_completed r || contains (ar_output res) "Mission marked as"
                               || contains (ar_output res) "complete_mission")).
Proof.
  intros Hh Hf. unfold poll_completion. rewrite Hh, Hf.
  destruct r; simpl.
  destruct (contains (ar_output res) "Mission marked as"),
           (contains (ar_output res) "complete_mission"),
           explicitly_completed0; reflexivity.
Qed.

Lemma poll_completion_ok_witness :
  running_handle runner_waiting = Some 3%N /\
  handle_finished (world_done (JoinOk 11 "go" res_completed)) 3 = Some (JoinOk 11 "go" res_completed) /\
  poll_completion runner_waiting (world_done (JoinOk 11 "go" res_completed)) =
    (Some (11%N, "go", res_completed),
     mkRunner 7 8 "claudecode" Queued None []
       ([("user", "hi"); ("assistant", "hello")] ++ [("user", "go"); ("assistant", ar_output res_completed)])%list
       (Some 2%N) None [] 42 (false || contains (ar_output res_completed) "Mission marked as"
                              || contains (ar_output res_completed) "complete_mission")).
Proof.
  split; [reflexivity|]. split; [reflexivity|].
  exact (poll_completion_ok runner_waiting (world_done (JoinOk 11 "go" res_completed))
           3 11 "go" res_completed eq_refl eq_refl).
Defined.

(** C2 (as stated: after explicit completion [start_next] is refused).
    Refuted: [start_next] never reads [explicitly_completed]; a completed
    runner with a queued message starts a new turn. *)
Lemma start_next_after_completion_starts :
  explicitly_completed runner_completed = true /\
  fst (fst (start_next runner_completed world0)) = true /\
  state (snd (fst (start_next runner_completed world0))) = Running /\
  queue (snd (fst (start_next runner_completed world0))) = [].
Proof. vm_compute. repeat split. Qed.

(** C2 (amended): [start_next] ignores [explicitly_completed]. On a runner
    that is not running and has a message at the head of its queue, it
    returns true, pops that message, sets the state to Running, installs a
    fresh untripped token, emits the UserMessage event and spawns the turn,
    whether or not explicit completion was recorded (the flag is kept). *)
Theorem start_next_ignores_completion (r : MissionRunner) (w : World)
    (msg : QueuedMessage) (rest : list QueuedMessage) :
  is_running r = false ->
  queue r = msg :: rest ->
  let '(started, r', w') := start_next r w in
  started = true /\ state r' = Running /\ queue r' = rest /\
  explicitly_completed r' = explicitly_completed r /\
  history r' = history r /\
  cancel_token r' = Some (next_ref w) /\
  tokens w' !! next_ref w = Some false /\
  running_handle r' = Some (N.succ (next_ref w)) /\
  tasks w' !! N.succ (next_ref w) =
    Some (TaskRunning (qm_id msg) (qm_content msg) (history r) (next_ref w)) /\
  events w' = (events w ++ [UserMessage (qm_id msg) (qm_content msg) false (Some (mission_id r))])%list.
Proof.
  intros Hrun Hq. unfold start_next. rewrite Hrun, Hq. simpl.
  repeat split.
  - apply lookup_insert_eq.
  - apply lookup_insert_eq.
Qed.

Lemma start_next_ignores_completion_witness :
  is_running runner_completed = false /\ queue runner_completed = [msg1] /\
  let '(started, r', w') := start_next runner_completed world0 in
  started = true /\ state r' = Running /\ queue r' = [] /\
  explicitly_completed r' = explicitly_completed runner_completed /\
  history r' = history runner_completed /\
  cancel_token r' = Some (next_ref world0) /\
  tokens w' !! next_ref world0 = Some false /\
  running_handle r' = Some (N.succ (next_ref world0)) /\
  tasks w' !! N.succ (next_ref world0) =
    Some (TaskRunning (qm_id msg1) (qm_content msg1) (history runner_completed) (next_ref world0)) /\
  events w' = (events world0 ++
    [UserMessage (qm_id msg1) (qm_content msg1) false (Some (mission_id runner_completed))])%list.
Proof.
  split; [reflexivity|]. split; [reflexivity|].
  exact (start_next_ignores_completion runner_completed world0 msg1 [] eq_refl eq_refl).
Defined.

(** C4: for a turn whose task has finished, [poll_completion] grows the
    history by exactly two entries iff the task did not panic; on a normal
    completion they are the user input followed by the assistant output,
    and on a panic the history is unchanged and the state becomes Finished. *)
Theorem poll_completion_history (r : MissionRunner) (w : World) (h : N) (o : JoinOutcome) :
  running_handle r = Some h ->
  handle_finished w h = Some o ->
  let r' := snd (poll_completion r w) in
  (o <> JoinPanicked <-> length (history r') = length (history r) + 2) /\
  (forall mid input res, o = JoinOk mid input res ->
     history r' = (history r ++ [("user", input); ("assistant", ar_output res)])%list) /\
  (o = JoinPanicked -> history r' = history r /\ state r' = Finished).
Proof.
  intros Hh Hf. unfold poll_completion. rewrite Hh, Hf.
  destruct o as [mid input res|]; simpl.
  - destruct (contains (ar_output res) "Mission marked as"),
             (contains (ar_output res) "complete_mission"); simpl;
      (split; [rewrite length_app; simpl; split; [lia|discriminate]|]);
      (split; [intros ??? [= -> -> ->]; reflexivity | discriminate]).
  - split; [split; [congruence | lia] |].
    split; [discriminate | auto].
Qed.

Lemma poll_completion_history_witness :
  running_handle runner_waiting = Some 3%N /\
  handle_finished (world_done JoinPanicked) 3 = Some JoinPanicked /\
  let r' := snd (poll_completion runner_waiting (world_done JoinPanicked)) in
  (JoinPanicked <> JoinPanicked <-> length (history r') = length (history runner_waiting) + 2) /\
  (forall mid input res, JoinPanicked = JoinOk mid input res ->
     history r' = (history runner_waiting ++ [("user", input); ("assistant", ar_output res)])%list) /\
  (JoinPanicked = JoinPanicked -> history r' = history runner_waiting /\ state r' = Finished).
Proof.
  split; [reflexivity|]. split; [reflexivity|].
  exact (poll_completion_history runner_waiting (world_done JoinPanicked) 3 JoinPanicked
           eq_refl eq_refl).
Defined.

(** C9: [start_next] on a running runner (Running or WaitingForTool) or on
    an empty queue returns false and changes neither the runner (state,
    queue, history, token, handle) nor the world (no event, no task, no
    token). *)
Theorem start_next_refused_noop (r : MissionRunner) (w : World) :
  is_running r = true \/ queue r = [] ->
  start_next r w = (false, r, w).
Proof.
  intros [Hrun | Hq]; unfold start_next.
  - rewrite Hrun. reflexivity.
  - destruct (is_running r); [reflexivity|]. rewrite Hq. reflexivity.
Qed.

Lemma start_next_refused_noop_witness :
  (is_running runner_waiting = true \/ queue runner_waiting = []) /\
  start_next runner_waiting world0 = (false, runner_waiting, world0).
Proof.
  split; [left; reflexivity|].
  apply start_next_refused_noop. left. reflexivity.
Defined.

(** C10: [cancel] never changes a runner field; without a token it changes
    nothing at all, and with a token it only trips that token in the shared
    token store. *)
Theorem cancel_frame (r : MissionRunner) (w : World) :
  fst (cancel r w) = r /\
  (cancel_token r = None -> snd (cancel r w) = w) /\
  (forall t, cancel_token r = Some t ->
     snd (cancel r w) = mkWorld (now w) (<[t := true]> (tokens w)) (tasks w) (events w) (next_ref w)).
Proof.
  unfold cancel. destruct (cancel_token r) as [t|]; simpl.
  - split; [reflexivity|]. split; [discriminate|]. intros t' [= <-]. reflexivity.
  - split; [reflexivity|]. split; [reflexivity|]. discriminate.
Qed.

End RunnerProofs.

Module HistoryContextProofs.
Import HistoryContext StringFacts.

Example build_sample :
  build_history_context [("user", "a"); ("assistant", "b")] 100 =
  "USER: a" ++ nl ++ nl ++ "ASSISTANT: b" ++ nl ++ nl.
Proof. reflexivity. Qed.

Lemma entry_nonempty (p : string * string) : entry p <> "".
Proof.
  unfold entry. destruct (to_uppercase (fst p)); discriminate.
Qed.

Lemma cat_entries_app (l1 l2 : list (string * string)) :
  cat_entries (l1 ++ l2) = cat_entries l1 ++ cat_entries l2.
Proof.
  induction l1 as [|p l1 IH]; simpl; [reflexivity|].
  rewrite IH. unfold entry. rewrite !append_assoc. reflexivity.
Qed.

(** Once the accumulated result alone exceeds the limit, the loop stops. *)
Lemma build_go_over (m : nat) (l : list (string * string)) (acc : string) :
  acc <> "" -> m < String.length acc ->
  build_go m l acc (String.length acc) = acc.
Proof.
  intros Hne Hlt. destruct l as [|p rest]; simpl; [reflexivity|].
  destruct (String.eqb_spec acc ""); [congruence|].
  replace (Nat.ltb m (String.length acc + String.length (entry p))) with true
    by (symmetry; apply Nat.ltb_lt; lia).
  reflexivity.
Qed.

(** Loop invariant: the loop prepends the entries of a prefix of its input
    (in reverse), stops only at an entry that overflows a non-empty result,
    and keeps the result within the limit unless the very first entry
    alone overflows. *)
Lemma build_go_spec (m : nat) (l : list (string * string)) (acc : string) :
  (acc = "" \/ String.length acc <= m) ->
  exists j,
    build_go m l acc (String.length acc) = cat_entries (rev (take j l)) ++ acc /\
    (j = length l \/ exists p, l !! j = Some p /\
       m < String.length (build_go m l acc (String.length acc)) + String.length (entry p)) /\
    (String.length (build_go m l acc (String.length acc)) <= m \/
     exists p, acc = "" /\ head l = Some p /\
       build_go m l acc (String.length acc) = entry p /\ m < String.length (entry p)).
Proof.
  revert acc. induction l as [|p rest IH]; intros acc Hacc; simpl.
  - exists 0. simpl. split; [reflexivity|]. split; [left; reflexivity|].
    destruct Hacc as [-> | Hle]; [left; simpl; lia | left; exact Hle].
  - destruct (String.eqb_spec acc "") as [Heq | Hne]; simpl.
    + (* first entry: always taken *)
      subst acc. rewrite Bool.andb_false_r. simpl.
      destruct (Nat.le_gt_cases (String.length (entry p)) m) as [Hle | Hgt].
      * destruct (IH (entry p ++ "")) as [j [Hj1 [Hj2 Hj3]]].
        { right. rewrite length_append. simpl. lia. }
        rewrite length_append in Hj1, Hj2, Hj3. simpl in Hj1, Hj2, Hj3.
        rewrite Nat.add_0_r in Hj1, Hj2, Hj3.
        exists (S j). simpl. rewrite cat_entries_app. simpl.
        split; [rewrite Hj1, !append_assoc; reflexivity|].
        split.
        { destruct Hj2 as [-> | [q [Hq Hlt]]]; [left; reflexivity | right; eauto]. }
        destruct Hj3 as [Hle' | [q [Habs _]]]; [left; exact Hle'|].
        exfalso. apply (append_nonempty_l (entry p) ""); [apply entry_nonempty | exact Habs].
      * rewrite append_nil_r.
        rewrite (build_go_over m rest (entry p)) by (apply entry_nonempty || lia).
        exists 1. simpl. rewrite !append_nil_r.
        split; [reflexivity|]. split.
        { destruct rest as [|q rest']; [left; reflexivity|].
          right. exists q. split; [reflexivity|]. lia. }
        right. exists p. auto.
    + destruct Hacc as [Habs | Hle]; [congruence|].
      destruct (Nat.ltb_spec m (String.length acc + String.length (entry p))) as [Hlt | Hge];
        simpl.
      * exists 0. simpl. split; [reflexivity|]. split; [right; exists p; auto|].
        left. exact Hle.
      * destruct (IH (entry p ++ acc)) as [j [Hj1 [Hj2 Hj3]]].
        { right. rewrite length_append. lia. }
        rewrite length_append in Hj1, Hj2, Hj3.
        rewrite (Nat.add_comm (String.length acc)).
        exists (S j). simpl. rewrite cat_entries_app. simpl.
        split; [rewrite Hj1, !append_assoc; reflexivity|].
        split.
        { destruct Hj2 as [-> | [q [Hq Hlt]]]; [left; reflexivity | right; eauto]. }
        destruct Hj3 as [Hle' | [q [Habs _]]]; [left; exact Hle'|].
        exfalso. apply (append_nonempty_l (entry p) acc); [apply entry_nonempty | exact Habs].
Qed.

Lemma build_go_nonempty (m : nat) (l : list (string * string)) (acc : string) (n : nat) :
  acc <> "" -> build_go m l acc n <> "".
Proof.
  revert acc n. induction l as [|p rest IH]; intros acc n Hacc; simpl; [exact Hacc|].
  destruct (_ && _); [exact Hacc|].
  apply IH. intros H. apply (append_nonempty_l (entry p) acc); [apply entry_nonempty | exact H].
Qed.

Lemma reverse_rev {A} (l : list A) : reverse l = rev l.
Proof. unfold reverse. rewrite <- rev_alt. reflexivity. Qed.

(** C8 (as stated: entries are prefixed "ROLE:\n" and the result never
    exceeds the limit). Refuted on one history entry and a limit of 0: the
    newest entry is always kept, and the prefix is "ROLE: " with the entry
    closed by a blank line. *)
Lemma build_history_context_overflows :
  build_history_context [("user", "hello")] 0 = "USER: hello" ++ nl ++ nl /\
  0 < String.length (build_history_context [("user", "hello")] 0).
Proof. split; [reflexivity | vm_compute; lia]. Qed.

(** C8 (amended): walking the history from the newest entry, each entry is
    rendered "ROLE: content\n\n" (role upper-cased); the result is the
    concatenation, in history order, of the entries of a suffix of the
    history; the walk stops at the first older entry that would make the
    total exceed [max_chars]; the newest entry is always included (the
    suffix is non-empty when the history is), so the result exceeds
    [max_chars] only when it is exactly that newest entry and that entry
    alone is longer than the limit. *)
Theorem build_history_context_spec (history : list (string * string)) (max_chars : nat) :
  let result := build_history_context history max_chars in
  exists k,
    result = cat_entries (drop k history) /\
    (k = 0 \/ exists p, history !! (k - 1) = Some p /\
                  max_chars < String.length result + String.length (entry p)) /\
    (String.length result <= max_chars \/
     exists p, last history = Some p /\ result = entry p /\
               max_chars < String.length (entry p)) /\
    (history <> [] -> k < length history).
Proof.
  unfold build_history_context.
  assert (Hne : history <> [] -> build_go max_chars (rev history) "" 0 <> "").
  { intros Hh. destruct (rev history) as [|p rest] eqn:Hr.
    - apply (f_equal (@rev _)) in Hr. rewrite rev_involutive in Hr. simpl in Hr. contradiction.
    - simpl. rewrite Bool.andb_false_r.
      apply build_go_nonempty. rewrite append_nil_r. apply entry_nonempty. }
  destruct (build_go_spec max_chars (rev history) "" (or_introl eq_refl))
    as [j [H1 [H2 H3]]].
  set (result := build_go max_chars (rev history) "" (String.length "")) in *.
  simpl in result. fold result in H1, H2, H3, Hne |- *.
  exists (length history - j). split; [|split; [|split]].
  4: { intros Hh. specialize (Hne Hh). rewrite H1, append_nil_r in Hne.
       destruct (Nat.lt_ge_cases (length history - j) (length history)) as [Hlt|Hge]; [exact Hlt|].
       exfalso. apply Hne. rewrite firstn_rev, rev_involutive.
       rewrite drop_ge by lia. reflexivity. }
  - rewrite H1, append_nil_r, firstn_rev, rev_involutive. reflexivity.
  - destruct H2 as [Hj | [p [Hp Hlt]]].
    + left. rewrite length_rev in Hj. lia.
    + right. exists p. split; [|exact Hlt].
      rewrite <- reverse_rev in Hp.
      assert (Hlen : j < length history).
      { apply lookup_lt_Some in Hp. rewrite length_reverse in Hp. exact Hp. }
      rewrite reverse_lookup in Hp by exact Hlen.
      replace (length history - j - 1) with (length history - S j) by lia. exact Hp.
  - destruct H3 as [Hle | [p [_ [Hhd Hrest]]]]; [left; exact Hle|].
    right. exists p. rewrite <- reverse_rev, head_reverse in Hhd. auto.
Qed.

End HistoryContextProofs.

Module WorkspaceProofs.
Import Workspace WorkspaceSamples.
Local Open Scope Z_scope.

Example sanitize_sample :
  sanitize_key [77; 121; 45; 83; 86] = [109; 121; 95; 115; 118]. (* "My-SV" *)
Proof. reflexivity. Qed.

(** C7 (as stated). Refuted on three inputs: "é" (U+00E9) is alphanumeric
    and survives sanitising although it is not in [a-z0-9_]; "İ" (U+0130)
    lower-cases to "i" + U+0307, which a second pass removes, so the
    sanitizer is not idempotent; and with the names "a_2", "a", "a" the
    shared used-set makes the third key "a_3", not "a_2". *)
Lemma sanitize_key_counterexample :
  sanitize_key [233] = [233] /\
  sanitize_key [304] = [105; 775] /\
  sanitize_key (sanitize_key [304]) = [105] /\
  sanitize_key (sanitize_key [304]) <> sanitize_key [304] /\
  assign_keys [s_a_2; s_a; s_a] ∅ = Some [s_a_2; s_a; s_a_3].
Proof.
  split; [reflexivity|]. split; [reflexivity|]. split; [reflexivity|].
  split; [discriminate|]. vm_compute. reflexivity.
Qed.

Instance latin1_ascii_compatible : AsciiCompatible (H := latin1_tables).
Proof.
  split.
  - intros c Hc. simpl. unfold latin1_is_alphanumeric.
    destruct (ascii_alnum c); [reflexivity|]. simpl.
    repeat match goal with
    | |- context [?a =? ?b] => destruct (Z.eqb_spec a b); [lia|]
    | |- context [?a <=? ?b] => destruct (Z.leb_spec a b)
    end; simpl; try reflexivity; lia.
  - intros s Hs. simpl. induction Hs as [|c s Hc Hs IH]; [reflexivity|].
    simpl. rewrite IH. unfold latin1_lower_char, ascii_lower.
    destruct ((65 <=? c) && (c <=? 90)) eqn:E; [reflexivity|].
    replace (((192 <=? c) && (c <=? 222)) && negb (c =? 215)) with false.
    2: { symmetry. apply andb_false_iff. left. apply andb_false_iff. left.
         apply Z.leb_gt. lia. }
    destruct (Z.eqb_spec c 304); [lia | reflexivity].
Qed.

(** Case analysis on every integer comparison in sight. *)
Ltac zcases :=
  repeat (simpl in *; match goal with
  | H : context [?a =? ?b] |- _ => destruct (Z.eqb_spec a b)
  | H : context [?a <=? ?b] |- _ => destruct (Z.leb_spec a b)
  | |- context [?a =? ?b] => destruct (Z.eqb_spec a b)
  | |- context [?a <=? ?b] => destruct (Z.leb_spec a b)
  end); simpl in *; try reflexivity; try discriminate; lia.

Section Sanitize.
Context `{Tab : UnicodeTables} `{!AsciiCompatible}.

Lemma sanitize_char (c : Z) :
  0 <= c < 128 ->
  is_alphanumeric c || (c =? 95) || (c =? 45) = true ->
  key_char (if ascii_lower c =? 45 then 95 else ascii_lower c) = true.
Proof.
  intros Hc Hp. rewrite alnum_ascii in Hp by exact Hc.
  unfold ascii_alnum in Hp. unfold key_char, ascii_lower.
  zcases.
Qed.

Lemma sanitize_key_ascii_chars (name : ustring) :
  Forall (fun c => 0 <= c < 128) name ->
  Forall (fun c => key_char c = true) (sanitize_key name).
Proof.
  intros Hn. unfold sanitize_key.
  set (P := fun c => is_alphanumeric c || (c =? 95) || (c =? 45)).
  assert (Hf : Forall (fun c => 0 <= c < 128 /\ P c = true) (List.filter P name)).
  { induction Hn as [|c s Hc Hs IH]; simpl; [constructor|].
    destruct (P c) eqn:E; [constructor; auto | exact IH]. }
  rewrite lower_ascii.
  2: { eapply Forall_impl; [exact Hf | intros c [Hc _]; exact Hc]. }
  rewrite map_map. apply Forall_map.
  eapply Forall_impl; [exact Hf|]. intros c [Hc Hp]. apply sanitize_char; assumption.
Qed.

Lemma sanitize_key_fixed (s : ustring) :
  Forall (fun c => key_char c = true) s -> sanitize_key s = s.
Proof.
  intros Hs.
  assert (Ha : Forall (fun c => 0 <= c < 128) s).
  { eapply Forall_impl; [exact Hs|]. intros c Hc. unfold key_char in Hc.
    destruct (Z.leb_spec 48 c), (Z.leb_spec c 57), (Z.leb_spec 97 c),
             (Z.leb_spec c 122), (Z.eqb_spec c 95); simpl in Hc; try discriminate; lia. }
  unfold sanitize_key.
  assert (Hkeep : List.filter (fun c => is_alphanumeric c || (c =? 95) || (c =? 45)) s = s).
  { induction Hs as [|c s Hc Hs IH]; [reflexivity|].
    inversion Ha as [|? ? Hca Has]; subst. simpl. rewrite (IH Has).
    rewrite alnum_ascii by exact Hca. unfold key_char, ascii_alnum in *.
    destruct (Z.leb_spec 48 c), (Z.leb_spec c 57), (Z.leb_spec 97 c),
             (Z.leb_spec c 122), (Z.eqb_spec c 95); simpl in Hc |- *;
      try discriminate; rewrite ?orb_true_r; reflexivity. }
  rewrite Hkeep.
  rewrite lower_ascii by exact Ha. rewrite map_map. clear Hkeep.
  induction Hs as [|c s Hc Hs IH]; [reflexivity|].
  inversion Ha as [|? ? Hca Has]; subst.
  simpl. rewrite (IH Has). f_equal.
  unfold key_char, ascii_lower in *. zcases.
Qed.

End Sanitize.

End WorkspaceProofs.

Module UniqueKeyProofs.
Import Workspace.

Lemma map_inj {A B} (f : A -> B) (l1 l2 : list A) :
  (forall x y, f x = f y -> x = y) -> map f l1 = map f l2 -> l1 = l2.
Proof.
  intros Hf. revert l2. induction l1 as [|x l1 IH]; intros [|y l2]; simpl;
    try discriminate; [reflexivity|].
  intros [= Hxy Hl]. f_equal; auto.
Qed.

Lemma NoDup_map_inj {A B} (f : A -> B) (l : list A) :
  (forall x y, f x = f y -> x = y) -> List.NoDup l -> List.NoDup (map f l).
Proof.
  intros Hf Hl. induction Hl as [|x l Hx Hl IH]; simpl; constructor; [|exact IH].
  intros Hin. apply in_map_iff in Hin as [y [Hy Hin]].
  apply Hf in Hy. subst. contradiction.
Qed.

Lemma digits_inj (i j : N) : digits i = digits j -> i = j.
Proof.
  unfold digits. intros Hd. apply map_inj in Hd.
  - apply (inj pretty). rewrite <- (string_of_list_ascii_of_string (pretty i)),
      <- (string_of_list_ascii_of_string (pretty j)), Hd. reflexivity.
  - intros a b Hab. apply Nat2Z.inj in Hab.
    rewrite <- (ascii_nat_embedding a), <- (ascii_nat_embedding b), Hab. reflexivity.
Qed.

Lemma candidate_inj (base : ustring) (i j : N) : candidate base i = candidate base j -> i = j.
Proof.
  unfold candidate. intros H. apply app_inv_head in H. injection H as H.
  apply digits_inj, H.
Qed.

Lemma unique_from_some (base : ustring) (used : gset ustring) (i : N) (f : nat)
    (k : ustring) (used' : gset ustring) :
  unique_from base used i f = Some (k, used') ->
  (k ∉ used) /\ used' = {[k]} ∪ used /\ (exists j, (i <= j)%N /\ k = candidate base j).
Proof.
  revert i. induction f as [|f IH]; intros i; simpl; [discriminate|].
  destruct (decide (candidate base i ∈ used)) as [Hin | Hnin].
  - intros Hu. destruct (IH (N.succ i) Hu) as [Hk [Hu' [j [Hj ->]]]].
    split; [exact Hk|]. split; [exact Hu'|]. exists j. split; [lia | reflexivity].
  - intros [= <- <-]. split; [exact Hnin|]. split; [reflexivity|].
    exists i. split; [lia | reflexivity].
Qed.

Lemma unique_from_none (base : ustring) (used : gset ustring) (i : N) (f : nat) :
  unique_from base used i f = None ->
  forall n, n < f -> candidate base (i + N.of_nat n) ∈ used.
Proof.
  revert i. induction f as [|f IH]; intros i; simpl; [intros _ n Hn; lia|].
  destruct (decide (candidate base i ∈ used)) as [Hin | Hnin]; [|discriminate].
  intros Hu [|n] Hn.
  - rewrite N.add_0_r. exact Hin.
  - replace (i + N.of_nat (S n))%N with (N.succ i + N.of_nat n)%N by lia.
    apply IH; [exact Hu | lia].
Qed.

(** The [loop] of [unique_key] terminates within [size used + 1] rounds:
    the candidates it tries are pairwise distinct. *)
Lemma unique_from_total (base : ustring) (used : gset ustring) (i : N) :
  unique_from base used i (S (size used)) <> None.
Proof.
  intros Hn. pose proof (unique_from_none _ _ _ _ Hn) as Hall.
  set (L := map (fun n => candidate base (i + N.of_nat n)) (seq 0 (S (size used)))).
  assert (HL : List.NoDup L).
  { apply NoDup_map_inj; [|apply seq_NoDup].
    intros x y Hxy. apply candidate_inj in Hxy. lia. }
  assert (Hsub : (list_to_set L : gset ustring) ⊆ used).
  { intros x Hx. apply elem_of_list_to_set, list_elem_of_In in Hx.
    apply in_map_iff in Hx as [n [<- Hn']]. apply in_seq in Hn'.
    apply Hall. lia. }
  apply subseteq_size in Hsub. rewrite size_list_to_set in Hsub by (apply NoDup_ListNoDup; exact HL).
  unfold L in Hsub. rewrite length_map, length_seq in Hsub. lia.
Qed.

Lemma unique_key_spec (base : ustring) (used : gset ustring) :
  exists k, unique_key base used = Some (k, {[k]} ∪ used) /\ (k ∉ used) /\
    (k = base \/ exists j, (2 <= j)%N /\ k = candidate base j).
Proof.
  unfold unique_key. destruct (decide (base ∈ used)) as [Hin | Hnin].
  - destruct (unique_from base used 2 (S (size used))) as [[k used']|] eqn:E.
    + destruct (unique_from_some _ _ _ _ _ _ E) as [Hk [-> Hj]].
      exists k. auto.
    + exfalso. exact (unique_from_total base used 2 E).
  - exists base. auto.
Qed.

(** The keys written to [opencode.json] for a list of enabled servers. *)
Lemma assign_keys_spec `{UnicodeTables} (names : list ustring) (used : gset ustring) :
  exists keys, assign_keys names used = Some keys /\ NoDup keys /\
    Forall (fun k => k ∉ used) keys /\
    Forall2 (fun n k => k = sanitize_key n \/
                        exists j, (2 <= j)%N /\ k = candidate (sanitize_key n) j) names keys.
Proof.
  revert used. induction names as [|n rest IH]; intros used; simpl.
  - exists []. repeat split; constructor.
  - destruct (unique_key_spec (sanitize_key n) used) as [k [Hk [Hnin Hform]]].
    rewrite Hk. destruct (IH ({[k]} ∪ used)) as [ks [Hks [Hnd [Hfresh Hrel]]]].
    rewrite Hks. exists (k :: ks). split; [reflexivity|].
    split; [|split].
    + constructor; [|exact Hnd].
      intros Hin. eapply Forall_forall in Hfresh; [|exact Hin]. set_solver.
    + constructor; [exact Hnin|].
      eapply Forall_impl; [exact Hfresh|]. intros x Hx. set_solver.
    + constructor; [exact Hform | exact Hrel].
Qed.

Lemma unique_key_cases (base : ustring) (used : gset ustring) (k : ustring) (used' : gset ustring) :
  unique_key base used = Some (k, used') ->
  used' = {[k]} ∪ used /\ (base ∉ used -> k = base) /\
  (base ∈ used -> exists j, (2 <= j)%N /\ k = candidate base j).
Proof.
  unfold unique_key. destruct (decide (base ∈ used)) as [Hin | Hnin].
  - intros Hu. destruct (unique_from_some _ _ _ _ _ _ Hu) as [_ [-> Hj]].
    split; [reflexivity|]. split; [intros Hn; contradiction | intros _; exact Hj].
  - intros [= <- <-]. split; [reflexivity|]. split; [reflexivity | intros Hin; contradiction].
Qed.

(** Position by position: the [i]-th name gets its sanitised base when no
    earlier key and no key of [used] is that base, and [base_j] with
    [j >= 2] otherwise. *)
Lemma assign_keys_base `{UnicodeTables} (names : list ustring) :
  forall (used : gset ustring) (keys : list ustring),
  assign_keys names used = Some keys ->
  forall i n k, names !! i = Some n -> keys !! i = Some k ->
    (sanitize_key n ∉ used -> sanitize_key n ∉ take i keys -> k = sanitize_key n) /\
    (sanitize_key n ∈ used \/ sanitize_key n ∈ take i keys ->
       exists j, (2 <= j)%N /\ k = candidate (sanitize_key n) j).
Proof.
  induction names as [|n0 rest IH]; intros used keys Ha i n k Hn Hk; [discriminate|].
  simpl in Ha.
  destruct (unique_key (sanitize_key n0) used) as [[k0 u']|] eqn:Hu; [|discriminate].
  destruct (assign_keys rest u') as [ks|] eqn:Hr; [|discriminate].
  injection Ha as <-.
  destruct (unique_key_cases _ _ _ _ Hu) as [Hu' [Hb Hc]].
  destruct i as [|i].
  - simpl in Hn, Hk. injection Hn as <-. injection Hk as <-. simpl.
    split; [intros H1 _; exact (Hb H1)|].
    intros [H1|H1]; [exact (Hc H1)|]. apply elem_of_nil in H1. contradiction.
  - simpl in Hn, Hk. destruct (IH u' ks Hr i n k Hn Hk) as [IH1 IH2].
    simpl. subst u'. split.
    + intros H1 H2. rewrite elem_of_cons in H2. apply IH1; [set_solver|]. intros H3. apply H2. right. exact H3.
    + intros H1. apply IH2. rewrite elem_of_cons in H1. set_solver.
Qed.

End UniqueKeyProofs.

Module WorkspaceClaims.
Import Workspace WorkspaceSamples WorkspaceProofs UniqueKeyProofs.

(** C7 (amended): for Unicode tables that behave as Rust's do on ASCII,
    sanitising an ASCII name yields a key over [a-z0-9_] that sanitising
    again leaves unchanged; and for every list of server names (in any
    script), the keys assigned with one shared used-set are pairwise
    distinct, each being the name's sanitised base when no earlier key is
    that base, and [base_i] for some [i >= 2] otherwise. *)
Theorem sanitize_unique_keys `{Tab : UnicodeTables} `{!AsciiCompatible} :
  (forall name, Forall (fun c => 0 <= c < 128)%Z name ->
     Forall (fun c => key_char c = true) (sanitize_key name) /\
     sanitize_key (sanitize_key name) = sanitize_key name) /\
  (forall names, exists keys,
     assign_keys names ∅ = Some keys /\ NoDup keys /\
     Forall2 (fun n k => k = sanitize_key n \/
                         exists j, (2 <= j)%N /\ k = candidate (sanitize_key n) j) names keys /\
     (forall i n k, names !! i = Some n -> keys !! i = Some k ->
        (sanitize_key n ∉ take i keys -> k = sanitize_key n) /\
        (sanitize_key n ∈ take i keys ->
           exists j, (2 <= j)%N /\ k = candidate (sanitize_key n) j))).
Proof.
  split.
  - intros name Hn. pose proof (sanitize_key_ascii_chars name Hn) as Hc.
    split; [exact Hc | apply sanitize_key_fixed, Hc].
  - intros names. destruct (assign_keys_spec names ∅) as [ks [Hks [Hnd [_ Hrel]]]].
    exists ks. split; [exact Hks|]. split; [exact Hnd|]. split; [exact Hrel|].
    intros i n k Hn Hk.
    destruct (assign_keys_base names ∅ ks Hks i n k Hn Hk) as [H1 H2].
    split; [intros Hnin; apply H1; [set_solver | exact Hnin] | intros Hin; apply H2; right; exact Hin].
Qed.

Lemma sanitize_unique_keys_witness :
  AsciiCompatible (H := latin1_tables) /\
  (forall name, Forall (fun c => 0 <= c < 128)%Z name ->
     Forall (fun c => key_char c = true) (sanitize_key name) /\
     sanitize_key (sanitize_key name) = sanitize_key name) /\
  (forall names, exists keys,
     assign_keys names ∅ = Some keys /\ NoDup keys /\
     Forall2 (fun n k => k = sanitize_key n \/
                         exists j, (2 <= j)%N /\ k = candidate (sanitize_key n) j) names keys /\
     (forall i n k, names !! i = Some n -> keys !! i = Some k ->
        (sanitize_key n ∉ take i keys -> k = sanitize_key n) /\
        (sanitize_key n ∈ take i keys ->
           exists j, (2 <= j)%N /\ k = candidate (sanitize_key n) j))).
Proof.
  split; [exact latin1_ascii_compatible|].
  exact (@sanitize_unique_keys latin1_tables latin1_ascii_compatible).
Defined.

End WorkspaceClaims.

Module ClaudeThinkingProofs.
Import Claude StringFacts.

Example thinking_sample :
  thinking_contents (snd (claude_run values_in_map_order 1 claude_init
    (map thinking_line [(0%N, "a"); (1%N, "b"); (0%N, "c")]))) = ["a"; "ba"; "bac"].
Proof. vm_compute. reflexivity. Qed.

Lemma sum_lengths_perm (l1 l2 : list string) : l1 ≡ₚ l2 -> sum_lengths l1 = sum_lengths l2.
Proof. induction 1; simpl; lia. Qed.

Lemma concat_cons (s : string) (l : list string) :
  String.concat "" (s :: l) = s ++ String.concat "" l.
Proof. destruct l; simpl; [symmetry; apply append_nil_r | reflexivity]. Qed.

Lemma length_concat (l : list string) : String.length (String.concat "" l) = sum_lengths l.
Proof.
  induction l as [|s l IH]; [reflexivity|].
  rewrite concat_cons, length_append, IH. reflexivity.
Qed.

Lemma prefix_append (s t : string) : String.prefix s (s ++ t) = true.
Proof.
  induction s as [|c s IH]; simpl; [destruct t; reflexivity|].
  destruct (ascii_dec c c); [exact IH | congruence].
Qed.

Lemma buffers_total_push (m : gmap N string) (i : N) (t : string) :
  buffers_total (buffer_push m i t) = buffers_total m + String.length t.
Proof.
  unfold buffers_total, buffer_push.
  rewrite <- insert_delete_eq.
  rewrite (sum_lengths_perm _ _ (fmap_Permutation snd _ _
             (map_to_list_insert _ _ _ (lookup_delete_eq m i)))).
  destruct (m !! i) as [b|] eqn:Hb; simpl.
  - rewrite <- (sum_lengths_perm _ _ (fmap_Permutation snd _ _ (map_to_list_delete m i b Hb))).
    simpl. rewrite length_append. lia.
  - rewrite delete_id by exact Hb. rewrite Nat.add_comm. reflexivity.
Qed.

Section Emission.
Variable hm_values : gmap N string -> list string.
Hypothesis hm_values_perm : forall m, hm_values m ≡ₚ (map_to_list m).*2.
Variable mid : N.

Lemma hm_total (m : gmap N string) : sum_lengths (hm_values m) = buffers_total m.
Proof. apply sum_lengths_perm, hm_values_perm. Qed.

(** The read loop on thinking deltas emits exactly [emitted_contents],
    one Thinking event per delta, when [last_thinking_len] is in sync. *)
Lemma claude_run_thinking (st : ClaudeSt) (ds : list (N * string)) :
  Forall (fun d => snd d <> "") ds ->
  last_thinking_len st = buffers_total (thinking_buffer st) ->
  snd (claude_run hm_values mid st (map thinking_line ds)) =
  map (fun c => Thinking c false (Some mid)) (emitted_contents hm_values (thinking_buffer st) ds).
Proof.
  revert st. induction ds as [|[i t] ds IH]; intros st Hne Hlast; [reflexivity|].
  inversion Hne as [|? ? Ht Hne']; subst. simpl in Ht.
  simpl. unfold on_delta.
  destruct (String.eqb_spec t "") as [->|_]; [congruence|].
  simpl. rewrite hm_total, buffers_total_push, Hlast.
  destruct (Nat.ltb_spec (buffers_total (thinking_buffer st))
              (buffers_total (thinking_buffer st) + String.length t)) as [_|Hge].
  2: { destruct t; [congruence | simpl in Hge; lia]. }
  destruct (claude_run hm_values mid _ (map thinking_line ds)) as [st'' evs'] eqn:Hrun.
  simpl. f_equal.
  pose proof (IH (set_thinking st (buffer_push (thinking_buffer st) i t)
                    (buffers_total (thinking_buffer st) + String.length t)) Hne') as H.
  rewrite Hrun in H. simpl in H. rewrite H; [reflexivity|].
  rewrite buffers_total_push. reflexivity.
Qed.

Lemma thinking_contents_map (cs : list string) :
  thinking_contents (map (fun c => Thinking c false (Some mid)) cs) = cs.
Proof. induction cs; simpl; congruence. Qed.

Lemma emitted_contents_length (m : gmap N string) (ds : list (N * string)) :
  length (emitted_contents hm_values m ds) = length ds.
Proof. revert m. induction ds; simpl; auto. Qed.

Lemma emitted_contents_lookup (m : gmap N string) (ds : list (N * string)) (k : nat) (c : string) :
  emitted_contents hm_values m ds !! k = Some c ->
  c = String.concat "" (hm_values (push_all m (take (S k) ds))).
Proof.
  revert m k. induction ds as [|d ds IH]; intros m k; simpl; [discriminate|].
  destruct k as [|k]; simpl; [intros [= <-]; reflexivity|].
  apply IH.
Qed.

Lemma emitted_contents_grow (m : gmap N string) (ds : list (N * string)) (k : nat) (c c' : string) :
  Forall (fun d => snd d <> "") ds ->
  emitted_contents hm_values m ds !! k = Some c ->
  emitted_contents hm_values m ds !! S k = Some c' ->
  String.length c < String.length c'.
Proof.
  revert m k. induction ds as [|d ds IH]; intros m k Hne; simpl; [discriminate|].
  inversion Hne as [|? ? Hd Hne']; subst.
  destruct k as [|k]; simpl.
  - intros [= <-]. destruct ds as [|d' ds]; simpl; [discriminate|].
    intros [= <-]. rewrite !length_concat, !hm_total, !buffers_total_push.
    inversion Hne' as [|? ? Hd' _]; subst.
    destruct (snd d'); [congruence | simpl; lia].
  - apply IH, Hne'.
Qed.

(** With a single index, the buffers are that one buffer. *)
Lemma emitted_contents_single (m : gmap N string) (i0 : N) (ds : list (N * string)) :
  (forall j, j <> i0 -> m !! j = None) ->
  Forall (fun d => fst d = i0) ds ->
  forall k c c', emitted_contents hm_values m ds !! k = Some c ->
    emitted_contents hm_values m ds !! S k = Some c' ->
    exists t, c' = c ++ t.
Proof.
  intros Hdom Hidx.
  assert (Hone : forall (m0 : gmap N string) t,
            (forall j, j <> i0 -> m0 !! j = None) ->
            String.concat "" (hm_values (buffer_push m0 i0 t)) = default "" (m0 !! i0) ++ t /\
            (forall j, j <> i0 -> buffer_push m0 i0 t !! j = None) /\
            buffer_push m0 i0 t !! i0 = Some (default "" (m0 !! i0) ++ t)).
  { intros m0 t Hd.
    assert (Hm : buffer_push m0 i0 t = {[i0 := default "" (m0 !! i0) ++ t]}).
    { apply map_eq. intros j. unfold buffer_push.
      destruct (decide (j = i0)) as [->|Hj].
      - rewrite lookup_insert_eq, lookup_singleton_eq. reflexivity.
      - rewrite lookup_insert_ne, lookup_singleton_ne by congruence. apply Hd, Hj. }
    rewrite Hm. split; [|split].
    - pose proof (hm_values_perm {[i0 := default "" (m0 !! i0) ++ t]}) as Hp.
      rewrite map_to_list_singleton in Hp. simpl in Hp.
      apply Permutation_singleton_r in Hp. rewrite Hp. simpl. reflexivity.
    - intros j Hj. apply lookup_singleton_ne. congruence.
    - apply lookup_singleton_eq. }
  revert m Hdom. induction Hidx as [|d ds Hd Hidx IH]; intros m Hdom k c c'; simpl;
    [discriminate|].
  destruct d as [i t]; simpl in Hd; subst i. simpl.
  destruct (Hone m t Hdom) as [Hc [Hdom' Hlk]].
  destruct k as [|k]; simpl.
  - intros [= <-]. destruct ds as [|[i' t'] ds]; simpl; [discriminate|].
    pose proof (Forall_inv Hidx) as Hi'; simpl in Hi'; subst i'.
    intros [= <-]. destruct (Hone _ t' Hdom') as [Hc' _].
    rewrite Hc, Hc', Hlk. simpl. exists t'. reflexivity.
  - apply IH, Hdom'.
Qed.

Lemma run_contents_emitted (ds : list (N * string)) :
  Forall (fun d => snd d <> "") ds ->
  run_contents hm_values mid ds = emitted_contents hm_values ∅ ds.
Proof.
  intros Hne. unfold run_contents.
  rewrite (claude_run_thinking claude_init ds Hne); [apply thinking_contents_map|].
  reflexivity.
Qed.

(** C3 (amended). On a sequence of non-empty thinking deltas the read loop
    emits one Thinking event per delta; the k-th content is the
    concatenation of the per-index buffers accumulated so far, taken in the
    HashMap's iteration order (some permutation of the buffers); the
    contents strictly grow in length; and when all deltas carry one index,
    each content extends its predecessor. *)
Theorem thinking_emission_spec (ds : list (N * string)) :
  Forall (fun d => snd d <> "") ds ->
  length (run_contents hm_values mid ds) = length ds /\
  (forall k c, run_contents hm_values mid ds !! k = Some c ->
     exists l, l ≡ₚ (map_to_list (push_all ∅ (take (S k) ds))).*2 /\
               c = String.concat "" l) /\
  (forall k c c', run_contents hm_values mid ds !! k = Some c -> run_contents hm_values mid ds !! S k = Some c' ->
     String.length c < String.length c') /\
  (forall i0, Forall (fun d => fst d = i0) ds ->
     forall k c c', run_contents hm_values mid ds !! k = Some c -> run_contents hm_values mid ds !! S k = Some c' ->
     exists t, c' = c ++ t).
Proof.
  intros Hne. rewrite (run_contents_emitted ds Hne).
  split; [|split; [|split]].
  - apply emitted_contents_length.
  - intros k c Hk. apply emitted_contents_lookup in Hk.
    exists (hm_values (push_all ∅ (take (S k) ds))). split; [apply hm_values_perm | exact Hk].
  - intros k c c'. apply emitted_contents_grow, Hne.
  - intros i0 Hidx. apply (emitted_contents_single ∅ i0 ds); [|exact Hidx].
    intros j _. apply lookup_empty.
Qed.

End Emission.

(** C3 (counterexample). Deltas (0,"a"), (1,"b"), (0,"c"). With the
    iteration order of [map_to_list] the contents are "a", "ba", "bac": the
    buffers are not joined in index order and "ba" does not extend "a".
    Even joined in index order the contents "a", "ab", "acb" are no prefix
    chain: "acb" does not extend "ab". *)
Example thinking_not_prefix_chain :
  run_contents values_in_map_order 1 [(0%N, "a"); (1%N, "b"); (0%N, "c")] = ["a"; "ba"; "bac"] /\
  String.prefix "a" "ba" = false /\
  run_contents values_in_index_order 1 [(0%N, "a"); (1%N, "b"); (0%N, "c")] = ["a"; "ab"; "acb"] /\
  String.prefix "ab" "acb" = false.
Proof. vm_compute. repeat split. Qed.

Lemma values_in_map_order_perm (m : gmap N string) :
  values_in_map_order m ≡ₚ (map_to_list m).*2.
Proof. reflexivity. Qed.

Lemma thinking_emission_spec_witness :
  Forall (fun d : N * string => snd d <> "") [(0%N, "a"); (0%N, "b")] /\
  length (run_contents values_in_map_order 1 [(0%N, "a"); (0%N, "b")]) = 2.
Proof.
  assert (Hne : Forall (fun d : N * string => snd d <> "") [(0%N, "a"); (0%N, "b")])
    by (repeat constructor; discriminate).
  split; [exact Hne|].
  destruct (thinking_emission_spec values_in_map_order values_in_map_order_perm 1
              [(0%N, "a"); (0%N, "b")] Hne) as [Hl _].
  exact Hl.
Defined.

End ClaudeThinkingProofs.

(** ** Cancellation of a turn *)
Module TurnProofs.
Import Claude OpenCode Turn Adapters TurnSamples.

Section Generic.
Context {St In BgSt BgIn : Type}.
Variable read_step : St -> In -> St * list AgentEvent * bool.
Variable bg_step : BgSt -> BgIn -> option (BgSt * list AgentEvent).
Variable finish : St -> list AgentEvent * AgentResult.
Hypothesis finish_not_cancelled : forall st, ar_terminal_reason (finish st).2 <> Some Cancelled.

Local Notation step := (turn_step read_step bg_step finish).

Lemma turn_inv_start st input bs bg_input alive :
  turn_inv (@turn_start St In BgSt BgIn st input bs bg_input alive).
Proof. split; simpl; [discriminate | intros r [=]]. Qed.

Lemma turn_inv_step (c c' : Cfg) : turn_inv c -> step c c' -> turn_inv c'.
Proof.
  intros Hinv Hs. revert Hinv.
  destruct Hs as [c0 Ht Hp|c0 Hp Ht|c0 x rest st' evs brk Hp Hi Hrs|c0 Hp Hi
                 |c0 y rest bs' evs Ha Hi Hb|c0 y rest Ha Hi Hb|c0 Ha Hi|c0 evs r Hp Ha Hf];
    intros [Hk Hr]; split; simpl;
    try (intros Hkill; destruct (Hk Hkill) as (?&?&Hph); rewrite Hph in *; simpl in *; congruence);
    try (intros r0 Hph; destruct (Hr r0 Hph); rewrite Hph in *; simpl in *; congruence).
  - intros _. auto.
  - intros r [= <-]. auto.
  - destruct brk; discriminate.
  - discriminate.
  - intros r0 [= <-]. split; [reflexivity|].
    intros Hc. exfalso. apply (finish_not_cancelled (c_st c0)). rewrite Hf. exact Hc.
Qed.

Lemma turn_inv_rtc (c c' : Cfg) : rtc step c c' -> turn_inv c -> turn_inv c'.
Proof. induction 1; eauto using turn_inv_step. Qed.

Lemma turn_kill_step (c c' : Cfg) :
  step c c' -> c_killed c = false -> c_killed c' = true ->
  c_tripped c = true /\ c_phase c = Looping /\ c_events c' = c_events c /\
  c_phase c' = Returned cancelled_result.
Proof.
  destruct 1; simpl; intros Hk Hk'; try congruence. auto.
Qed.

Lemma cancel_facts_inv (c : Cfg) : turn_inv c -> cancel_facts read_step bg_step finish c.
Proof.
  intros [Hk Hr]. split; [|split; [exact Hk|]].
  - intros r Hph. split; [apply Hr, Hph|].
    intros Hkill. destruct (Hk Hkill) as (_&_&Hph'). rewrite Hph in Hph'.
    injection Hph' as ->. reflexivity.
  - intros c'. apply turn_kill_step.
Qed.

Lemma cancel_facts_reachable st input bs bg_input alive (c : Cfg) :
  rtc step (@turn_start St In BgSt BgIn st input bs bg_input alive) c ->
  cancel_facts read_step bg_step finish c.
Proof.
  intros Hrun. apply cancel_facts_inv. eapply turn_inv_rtc; [exact Hrun|].
  apply turn_inv_start.
Qed.

End Generic.

Lemma claude_end_not_cancelled (st : ClaudeSt) :
  ar_terminal_reason (claude_end st).2 <> Some Cancelled.
Proof.
  unfold claude_end, claude_finish. simpl.
  destruct (trim_is_empty (final_result st) && negb (had_error st)); simpl;
    [discriminate|].
  destruct (had_error st); discriminate.
Qed.

Lemma opencode_finish_not_cancelled mid exit recover (st : string * bool) :
  ar_terminal_reason (opencode_finish mid exit recover st).2 <> Some Cancelled.
Proof.
  destruct st as [fr err]. unfold opencode_finish.
  destruct exit as [status|]; simpl; [discriminate|].
  destruct err; discriminate.
Qed.

(** C5 (amended). In both adapters, from the start of the read loop, over
    every interleaving of the token trip, the unbiased select, the stderr
    reader and the code after the loop: a turn returns with reason
    Cancelled exactly when the child was killed; the child is killed only
    by the select's cancelled branch, taken only after the trip, which
    stops the stderr reader, emits no event and returns
    [cancelled_result] (success false, output "Cancelled"). *)
Theorem cancellation_spec (hm_values : gmap N string -> list string) (mission_id : Uuid)
    (lines : list ClaudeLine) (exit : option string) (recover : string -> option string)
    (chunks : list StdoutRead) (stderr : list (string * string)) :
  (forall c, rtc (claude_turn hm_values mission_id) (claude_turn_start lines) c ->
     cancel_facts (claude_step hm_values mission_id) claude_no_reader claude_end c) /\
  (forall c, rtc (opencode_turn mission_id exit recover) (opencode_turn_start chunks stderr) c ->
     cancel_facts (stdout_step mission_id) (stderr_line mission_id)
       (opencode_finish mission_id exit recover) c).
Proof.
  split; intros c Hrun.
  - exact (cancel_facts_reachable _ _ _ claude_end_not_cancelled _ _ _ _ _ c Hrun).
  - exact (cancel_facts_reachable _ _ _ (opencode_finish_not_cancelled mission_id exit recover)
             _ _ _ _ _ c Hrun).
Qed.

(** C5 (counterexample). Claude: the token trips before any line is read;
    the unbiased select still takes the two ready lines (a tool call, sent
    as a ToolCall event after the trip, then the success result), the loop
    breaks and the turn returns success without killing the child.
    OpenCode: after the trip the stderr reader sends an Error event for an
    error line before the select takes the cancelled branch. *)
Example cancellation_trip_not_observed :
  rtc (claude_turn values_in_map_order 1) (claude_turn_start claude_lines) claude_tripped /\
  rtc (claude_turn values_in_map_order 1) claude_tripped claude_returned /\
  c_tripped claude_tripped = true /\ c_events claude_tripped = [] /\
  c_killed claude_returned = false /\
  c_phase claude_returned = Returned (AgentResult_success "done" 0) /\
  c_events claude_returned = [ToolCall "t1" "bash" JNull (Some 1%N)] /\
  rtc (opencode_turn 1 None (fun _ => None)) (opencode_turn_start [] oc_stderr) oc_tripped /\
  rtc (opencode_turn 1 None (fun _ => None)) oc_tripped oc_returned /\
  c_tripped oc_tripped = true /\ c_events oc_tripped = [] /\
  c_events oc_returned =
    [Error "Error: boom" (Some 1%N) true; Thinking "Error: boom" false (Some 1%N)].
Proof.
  split; [|split; [|split; [reflexivity|split; [reflexivity|split; [reflexivity|
    split; [reflexivity|split; [reflexivity|split; [|split; [|split; [reflexivity|
    split; reflexivity]]]]]]]]]].
  - eapply rtc_l; [apply TripToken; reflexivity|]. apply rtc_refl.
  - eapply rtc_l; [eapply SelectLine; reflexivity|].
    eapply rtc_l; [eapply SelectLine; reflexivity|].
    eapply rtc_l; [eapply LoopExitReturn; reflexivity|]. apply rtc_refl.
  - eapply rtc_l; [apply TripToken; reflexivity|]. apply rtc_refl.
  - eapply rtc_l; [eapply ReaderLine; reflexivity|].
    eapply rtc_l; [apply SelectCancelled; reflexivity|]. apply rtc_refl.
Qed.

Lemma cancellation_spec_witness :
  rtc (opencode_turn 1 None (fun _ => None)) (opencode_turn_start [] oc_stderr) oc_returned /\
  c_tripped oc_returned = true /\ c_bg_alive oc_returned = false.
Proof.
  assert (Hrun : rtc (opencode_turn 1 None (fun _ => None))
                   (opencode_turn_start [] oc_stderr) oc_returned).
  { eapply rtc_l; [apply TripToken; reflexivity|].
    eapply rtc_l; [eapply ReaderLine; reflexivity|].
    eapply rtc_l; [apply SelectCancelled; reflexivity|]. apply rtc_refl. }
  split; [exact Hrun|].
  destruct (cancellation_spec values_in_map_order 1 [] None (fun _ => None) [] oc_stderr)
    as [_ Hoc].
  destruct (Hoc oc_returned Hrun) as (_ & Hk & _).
  destruct (Hk eq_refl) as (Ht & Ha & _). split; [exact Ht | exact Ha].
Defined.

End TurnProofs.

(** ** The OpenCode storage fallback *)
Module StorageProofs.
Import Storage StorageSamples StorageScan.

#[local] Instance part_le_trans : Transitive part_le.
Proof.
  intros [[s1 n1] t1] [[s2 n2] t2] [[s3 n3] t3]; unfold part_le; simpl.
  intros [H12|[-> H12]] [H23|[-> H23]]; [left; lia | left; lia | left; lia |].
  right. split; [reflexivity | etrans; eassumption].
Qed.

#[local] Instance part_le_total : Total part_le.
Proof.
  intros [[s1 n1] t1] [[s2 n2] t2]; unfold part_le; simpl.
  destruct (Z.lt_trichotomy s1 s2) as [H|[->|H]]; [left; left; exact H| |right; left; exact H].
  destruct (total String.le n1 n2); [left | right]; right; auto.
Qed.

Lemma scan_messages_skip (entries : list Entry) (t : Z) (i : option string) :
  Forall parses entries -> List.filter is_assistant entries = [] ->
  scan_messages entries t i = Some i.
Proof.
  induction entries as [|e rest IH]; intros Hp Hf; [reflexivity|].
  inversion Hp as [|? ? He Hp']; subst. simpl in Hf |- *.
  unfold is_assistant in Hf.
  destruct (is_json_file (file_name e)) eqn:Hj; simpl in Hf |- *; [|apply IH; assumption].
  destruct (contents e) as [v|] eqn:Hc; [|exfalso; apply He; assumption].
  destruct (String.eqb (role_of v) "assistant"); simpl; [discriminate|].
  apply IH; assumption.
Qed.

Lemma scan_messages_one (entries : list Entry) (msg : Entry) (t : Z) (i : option string) :
  Forall parses entries -> List.filter is_assistant entries = [msg] ->
  (t <= message_created msg)%Z ->
  scan_messages entries t i = Some (message_id_of msg).
Proof.
  revert t i. induction entries as [|e rest IH]; intros t i Hp Hf Ht; [discriminate|].
  inversion Hp as [|? ? He Hp']; subst. simpl in Hf |- *.
  destruct (is_assistant e) eqn:Ha.
  - injection Hf as -> Hrest.
    unfold is_assistant in Ha. apply andb_prop in Ha as [Hj Hr]. rewrite Hj. simpl.
    unfold message_created, message_id_of in *.
    destruct (contents msg) as [v|]; [|discriminate]. rewrite Hr. simpl.
    destruct (Z.leb_spec t (created_of v)) as [_|]; [|lia].
    apply scan_messages_skip; assumption.
  - unfold is_assistant in Ha.
    destruct (is_json_file (file_name e)) eqn:Hj; simpl in Ha |- *; [|apply IH; assumption].
    destruct (contents e) as [v|] eqn:Hc; [|exfalso; apply He; assumption].
    rewrite Ha. simpl. apply IH; assumption.
Qed.

Lemma text_parts_cons (e : Entry) (rest : list Entry) :
  text_parts (e :: rest) =
    ((match read_part e with Some (Some p) => [p] | _ => [] end) ++ text_parts rest)%list.
Proof. reflexivity. Qed.

Lemma collect_parts_ok (entries : list Entry) :
  Forall parses entries -> collect_parts entries = Some (text_parts entries).
Proof.
  induction entries as [|e rest IH]; intros Hp; [reflexivity|].
  inversion Hp as [|? ? He Hp']; subst. simpl.
  rewrite (IH Hp'), text_parts_cons.
  unfold read_part in *.
  destruct (is_json_file (file_name e)) eqn:Hj; simpl; [|reflexivity].
  destruct (contents e) as [v|] eqn:Hc; [|exfalso; exact (He Hj Hc)].
  destruct (String.eqb _ "text"); simpl; [|reflexivity].
  destruct (String.eqb _ ""); reflexivity.
Qed.

Lemma text_parts_names (entries : list Entry) (p : Z * string * string) :
  p ∈ text_parts entries -> p.1.2 ∈ map file_name entries.
Proof.
  induction entries as [|e rest IH]; simpl; [intros Hp; apply elem_of_nil in Hp; contradiction|].
  rewrite text_parts_cons, elem_of_app, elem_of_cons. intros [Hp|Hp]; [|right; apply IH, Hp].
  left.
  unfold read_part in Hp.
  destruct (is_json_file (file_name e)); simpl in Hp; [|apply elem_of_nil in Hp; contradiction].
  destruct (contents e) as [v|]; [|apply elem_of_nil in Hp; contradiction].
  destruct (String.eqb _ "text"); simpl in Hp; [|apply elem_of_nil in Hp; contradiction].
  destruct (String.eqb _ ""); simpl in Hp; [apply elem_of_nil in Hp; contradiction|].
  apply list_elem_of_singleton in Hp. subst p. reflexivity.
Qed.

Lemma elem_of_map_iff {A B} (f : A -> B) (l : list A) (y : B) :
  y ∈ map f l <-> exists x, y = f x /\ x ∈ l.
Proof.
  induction l as [|a l IH]; simpl.
  - rewrite elem_of_nil. split; [contradiction|]. intros (x & _ & Hx). apply elem_of_nil in Hx. exact Hx.
  - rewrite elem_of_cons, IH. split.
    + intros [->|(x & -> & Hx)]; [exists a | exists x]; rewrite elem_of_cons; eauto.
    + intros (x & -> & Hx). apply elem_of_cons in Hx as [->|Hx]; eauto.
Qed.

Lemma text_parts_NoDup (entries : list Entry) :
  NoDup (map file_name entries) -> NoDup (map (fun p => p.1.2) (text_parts entries)).
Proof.
  induction entries as [|e rest IH]; simpl; intros Hnd; [constructor|].
  apply NoDup_cons in Hnd as [Hnin Hnd].
  rewrite text_parts_cons, map_app. apply NoDup_app. split; [|split; [|apply IH, Hnd]].
  - unfold read_part.
    destruct (is_json_file (file_name e)); simpl; [|constructor].
    destruct (contents e); simpl; [|constructor].
    destruct (String.eqb _ "text"); simpl; [|constructor].
    destruct (String.eqb _ ""); simpl; [constructor|].
    apply NoDup_singleton.
  - intros x Hx Hx'.
    apply elem_of_map_iff in Hx' as [p [-> Hp]].
    apply text_parts_names in Hp. apply Hnin.
    revert Hx. unfold read_part.
    destruct (is_json_file (file_name e)); simpl; [|intros H; apply elem_of_nil in H; contradiction].
    destruct (contents e); simpl; [|intros H; apply elem_of_nil in H; contradiction].
    destruct (String.eqb _ "text"); simpl; [|intros H; apply elem_of_nil in H; contradiction].
    destruct (String.eqb _ ""); simpl; [intros H; apply elem_of_nil in H; contradiction|].
    intros H. apply list_elem_of_singleton in H. simpl in H. rewrite <- H. exact Hp.
Qed.

Lemma NoDup_map_eq {A B} (f : A -> B) (l : list A) (x y : A) :
  NoDup (map f l) -> x ∈ l -> y ∈ l -> f x = f y -> x = y.
Proof.
  induction l as [|a l IH]; simpl; intros Hnd Hx Hy Hf; [apply elem_of_nil in Hx; contradiction|].
  apply NoDup_cons in Hnd as [Hnin Hnd].
  apply elem_of_cons in Hx, Hy.
  destruct Hx as [->|Hx], Hy as [->|Hy]; [reflexivity| | |apply IH; assumption].
  - exfalso. apply Hnin. rewrite Hf. apply elem_of_map_iff. eauto.
  - exfalso. apply Hnin. rewrite <- Hf. apply elem_of_map_iff. eauto.
Qed.

Lemma merge_sort_parts (l parts : list (Z * string * string)) :
  l ≡ₚ parts -> Sorted part_le l -> NoDup (map (fun p => p.1.2) l) ->
  merge_sort part_le parts = l.
Proof.
  intros Hperm Hs Hnd.
  apply (StronglySorted_unique_strong part_le).
  - intros x1 x2 Hx1 Hx2 H12 H21.
    apply (NoDup_map_eq (fun p => p.1.2) l); [exact Hnd| | exact Hx2|].
    + rewrite Hperm, <- (merge_sort_Permutation part_le parts). exact Hx1.
    + destruct x1 as [[s1 n1] t1], x2 as [[s2 n2] t2]; unfold part_le in *; simpl in *.
      destruct H12 as [H12|[-> H12]]; [destruct H21 as [|[]]; lia|].
      destruct H21 as [|[_ H21]]; [lia|]. apply (anti_symm String.le); assumption.
  - apply StronglySorted_merge_sort; [exact part_le_trans | exact part_le_total].
  - apply Sorted_StronglySorted; [apply _ | exact Hs].
  - rewrite merge_sort_Permutation. symmetry. exact Hperm.
Qed.

Lemma scan_messages_unparsed (entries : list Entry) (t : Z) (i : option string) :
  Exists (fun e => unparsed_json e = true) entries -> scan_messages entries t i = None.
Proof.
  revert t i. induction entries as [|e rest IH]; intros t i Hex; [inversion Hex|].
  simpl. inversion Hex as [? ? He|? ? Hr]; subst.
  - unfold unparsed_json in He. destruct (is_json_file (file_name e)); [|discriminate].
    destruct (contents e); [discriminate|reflexivity].
  - destruct (is_json_file (file_name e)); simpl; [|apply IH, Hr].
    destruct (contents e) as [v|]; [|reflexivity].
    destruct (negb _); [apply IH, Hr|]. destruct (_ <=? _)%Z; apply IH, Hr.
Qed.

Lemma collect_parts_unparsed (entries : list Entry) :
  Exists (fun e => unparsed_json e = true) entries -> collect_parts entries = None.
Proof.
  induction entries as [|e rest IH]; intros Hex; [inversion Hex|].
  simpl. inversion Hex as [? ? He|? ? Hr]; subst.
  - unfold unparsed_json in He. unfold read_part.
    destruct (is_json_file (file_name e)); [|discriminate].
    destruct (contents e); [discriminate|reflexivity].
  - rewrite (IH Hr). destruct (read_part e) as [p|]; reflexivity.
Qed.

(** C6 (amended). When the session's message directory parses and holds
    exactly one assistant record, created at time 0 or later, with id
    [message_id], and every .json file of [part/<message_id>/] parses (file
    names distinct, as in a directory), the fallback returns the
    concatenation of the texts of the non-empty "text" parts in
    lexicographic order of (time.start, filename), unless that
    concatenation is empty or white space only, when it returns [None].
    A .json file of the message directory, or (for that message) of the
    part directory, that does not read or parse makes the result [None]. *)
Theorem storage_fallback_spec :
  (forall (storage : StorageTree) (session_id message_id : string)
      (entries part_entries : list Entry) (msg : Entry) (l : list (Z * string * string)),
    message_dirs storage !! session_id = Some entries ->
    Forall parses entries ->
    List.filter is_assistant entries = [msg] ->
    (0 <= message_created msg)%Z ->
    message_id_of msg = Some message_id ->
    part_dirs storage !! message_id = Some part_entries ->
    Forall parses part_entries ->
    NoDup (map file_name part_entries) ->
    l ≡ₚ text_parts part_entries ->
    Sorted part_le l ->
    load_latest_opencode_assistant_text storage session_id =
      if trim_is_empty (texts_concat l) then None else Some (texts_concat l)) /\
  (forall (storage : StorageTree) (session_id : string) (entries : list Entry),
    message_dirs storage !! session_id = Some entries ->
    Exists (fun e => unparsed_json e = true) entries ->
    load_latest_opencode_assistant_text storage session_id = None) /\
  (forall (storage : StorageTree) (session_id message_id : string)
      (entries part_entries : list Entry) (msg : Entry),
    message_dirs storage !! session_id = Some entries ->
    Forall parses entries ->
    List.filter is_assistant entries = [msg] ->
    (0 <= message_created msg)%Z ->
    message_id_of msg = Some message_id ->
    part_dirs storage !! message_id = Some part_entries ->
    Exists (fun e => unparsed_json e = true) part_entries ->
    load_latest_opencode_assistant_text storage session_id = None).
Proof.
  split; [|split].
  2: { intros storage session_id entries Hm Hex. unfold load_latest_opencode_assistant_text.
       rewrite Hm. simpl. rewrite (scan_messages_unparsed entries 0 None Hex). reflexivity. }
  2: { intros storage session_id message_id entries part_entries msg Hm Hp Hf Hc Hid Hpd Hex.
       unfold load_latest_opencode_assistant_text.
       rewrite Hm. simpl. rewrite (scan_messages_one entries msg 0 None Hp Hf Hc), Hid. simpl.
       rewrite Hpd. simpl. rewrite (collect_parts_unparsed _ Hex). reflexivity. }
  intros storage session_id message_id entries part_entries msg l Hm Hp Hf Hc Hid Hpd Hpp Hnd Hperm Hs.
  unfold load_latest_opencode_assistant_text.
  rewrite Hm. simpl.
  rewrite (scan_messages_one entries msg 0 None Hp Hf Hc), Hid. simpl.
  rewrite Hpd. simpl. rewrite (collect_parts_ok _ Hpp). simpl.
  assert (Hndl : NoDup (map (fun p => p.1.2) l)).
  { apply NoDup_ListNoDup.
    eapply Permutation_NoDup; [|apply NoDup_ListNoDup, text_parts_NoDup, Hnd].
    apply Permutation_map. symmetry. exact Hperm. }
  destruct (text_parts part_entries) as [|p ps] eqn:Ht.
  - apply Permutation_nil_r in Hperm. subst l. reflexivity.
  - rewrite (merge_sort_parts l (p :: ps) Hperm Hs Hndl). reflexivity.
Qed.

(** C6 (counterexample). A single text part whose text is one space: the
    concatenation the claim promises is " ", the fallback gives [None]
    (white space only); with no text part the promised "" is [None] too. *)
Example storage_fallback_blank :
  text_parts [mkEntry "prt_1.json" (Some (part_record "text" " " 1))] = [(1%Z, "prt_1.json", " ")] /\
  texts_concat [(1%Z, "prt_1.json", " ")] = " " /\
  load_latest_opencode_assistant_text tree_blank "ses" = None /\
  text_parts [mkEntry "prt_tool.json" (Some (part_record "tool" "ls" 0))] = [] /\
  load_latest_opencode_assistant_text tree_no_text "ses" = None.
Proof. vm_compute. repeat split. Qed.

Lemma storage_fallback_spec_witness :
  load_latest_opencode_assistant_text tree_hello "ses" = Some "hello world" /\
  load_latest_opencode_assistant_text tree_broken "ses" = None /\
  load_latest_opencode_assistant_text tree_broken_part "ses" = None.
Proof.
  split; [|split].
  2: { apply (proj1 (proj2 storage_fallback_spec) tree_broken "ses" messages_broken).
       - vm_compute. reflexivity.
       - unfold messages_broken, messages_ses. simpl.
         apply Exists_cons_tl, Exists_cons_tl, Exists_cons_hd. reflexivity. }
  2: { apply (proj2 (proj2 storage_fallback_spec) tree_broken_part "ses" "m1" messages_ses parts_broken
               (mkEntry "msg_b.json" (Some (msg_record "assistant" "m1" 5)))).
       - reflexivity.
       - repeat constructor; vm_compute; discriminate.
       - reflexivity.
       - vm_compute. discriminate.
       - reflexivity.
       - reflexivity.
       - unfold parts_broken, parts_m1. simpl.
         apply Exists_cons_tl, Exists_cons_tl, Exists_cons_tl, Exists_cons_hd. reflexivity. }
  rewrite (proj1 storage_fallback_spec tree_hello "ses" "m1" messages_ses parts_m1
             (mkEntry "msg_b.json" (Some (msg_record "assistant" "m1" 5)))
             [(1%Z, "prt_1.json", "hello "); (2%Z, "prt_2.json", "world")]).
  - reflexivity.
  - reflexivity.
  - repeat constructor; vm_compute; discriminate.
  - reflexivity.
  - vm_compute. discriminate.
  - reflexivity.
  - reflexivity.
  - repeat constructor; vm_compute; discriminate.
  - vm_compute. apply NoDup_ListNoDup. repeat constructor; simpl; intuition discriminate.
  - vm_compute. apply Permutation_swap.
  - repeat constructor.
Defined.

End StorageProofs.

Module RunnerOpsProofs.
Import Runner RunnerOps.

Lemma handle_inv_step (rw : MissionRunner * World) (op : Op) :
  handle_inv rw.1 -> handle_inv (exec_op rw op).1.
Proof.
  destruct rw as [r w]. unfold handle_inv; simpl. intros Hi.
  destruct op; simpl; try exact Hi.
  - unfold start_next. destruct (is_running r) eqn:Hr; simpl; [rewrite Hr; exact Hi|].
    destruct (queue r); simpl; [rewrite Hr; exact Hi|]. split; [reflexivity|discriminate].
  - unfold poll_completion. destruct (running_handle r) as [h|] eqn:Hh; simpl; [|rewrite Hh; exact Hi].
    destruct (handle_finished w h) as [[mid input res|]|]; simpl.
    + destruct (_ || _); simpl; split; [congruence| discriminate | congruence | discriminate].
    + split; [congruence|discriminate].
    + split; [intros _; apply Hi; congruence | congruence].
  - unfold cancel. destruct (cancel_token r); exact Hi.
Qed.

Lemma handle_inv_exec (ops : list Op) (rw : MissionRunner * World) :
  handle_inv rw.1 -> handle_inv (exec_ops rw ops).1.
Proof.
  revert rw. induction ops as [|op rest IH]; intros rw Hi; [exact Hi|].
  apply IH, handle_inv_step, Hi.
Qed.

(** X1. Whatever sequence of operations an owner applies to a runner fresh
    from [MissionRunner::new], the runner holds a task handle exactly when
    its state is Running or WaitingForTool. *)
Theorem runner_handle_iff_running (mid wid : Uuid) (agent backend : option string)
    (w : World) (ops : list Op) :
  let r := (exec_ops (new_runner mid wid agent backend w, w) ops).1 in
  running_handle r <> None <-> is_running r = true.
Proof.
  apply handle_inv_exec. unfold handle_inv; simpl. split; [congruence|discriminate].
Qed.


(** X2. On a runner built by [new] and driven by any operations,
    [start_next] starts a turn exactly when no task handle is held and the
    queue is non-empty: it never replaces (and so orphans) a running task. *)
Theorem start_next_never_orphans (mid wid : Uuid) (agent backend : option string)
    (w : World) (ops : list Op) :
  let '(r, w') := exec_ops (new_runner mid wid agent backend w, w) ops in
  fst (fst (start_next r w')) = true <-> running_handle r = None /\ queue r <> [].
Proof.
  pose proof (runner_handle_iff_running mid wid agent backend w ops) as Hi.
  destruct (exec_ops _ ops) as [r w']. simpl in Hi.
  unfold start_next. destruct (is_running r) eqn:Hr; simpl.
  - split; [discriminate|]. intros [Hn _]. exfalso. apply Hi; [reflexivity | exact Hn].
  - destruct (queue r) eqn:Hq; simpl.
    + split; [discriminate|]. intros [_ Hne]. contradiction.
    + split; [|reflexivity]. intros _. split; [|discriminate].
      destruct (running_handle r); [|reflexivity]. exfalso.
      assert (Some n <> None) as Hs by discriminate. apply Hi in Hs. discriminate.
Qed.

Lemma user_messages_app (l1 l2 : list AgentEvent) :
  user_messages (l1 ++ l2) = (user_messages l1 ++ user_messages l2)%list.
Proof.
  induction l1 as [|e l1 IH]; [reflexivity|]. destruct e; simpl; rewrite ?IH; reflexivity.
Qed.

Lemma exec_op_queue (rw : MissionRunner * World) (op : Op) :
  (user_messages (events (exec_op rw op).2) ++ map msg_key (queue (exec_op rw op).1))%list =
  (user_messages (events rw.2) ++ map msg_key (queue rw.1) ++ queued_by [op])%list.
Proof.
  destruct rw as [r w]. destruct op; simpl.
  - unfold queue_message. simpl. rewrite map_app. reflexivity.
  - rewrite app_nil_r. reflexivity.
  - rewrite app_nil_r. unfold start_next. destruct (is_running r); simpl; [reflexivity|].
    destruct (queue r) as [|m rest] eqn:Hq; simpl; [rewrite Hq; reflexivity|].
    rewrite user_messages_app. simpl. rewrite <- app_assoc. reflexivity.
  - rewrite app_nil_r. unfold poll_completion. destruct (running_handle r); simpl; [|reflexivity].
    destruct (handle_finished w n) as [[]|]; simpl; [destruct (_ || _)|..]; reflexivity.
  - rewrite app_nil_r. unfold cancel. destruct (cancel_token r); reflexivity.
  - rewrite app_nil_r. reflexivity.
  - rewrite app_nil_r. unfold finish_task. destruct (tasks w !! h) as [[]|]; reflexivity.
  - rewrite app_nil_r. unfold finish_task. destruct (tasks w !! h) as [[]|]; reflexivity.
  - rewrite app_nil_r. reflexivity.
Qed.


Lemma queued_by_cons (op : Op) (ops : list Op) :
  queued_by (op :: ops) = (queued_by [op] ++ queued_by ops)%list.
Proof. destruct op; reflexivity. Qed.

(** X3. Messages are delivered in FIFO order and never lost or duplicated:
    after any operations, the UserMessage events emitted followed by the
    messages still queued are the ones emitted and queued before, followed by
    those queued by the operations, in order. *)
Theorem runner_fifo (rw : MissionRunner * World) (ops : list Op) :
  let '(r', w') := exec_ops rw ops in
  (user_messages (events w') ++ map msg_key (queue r'))%list =
  (user_messages (events rw.2) ++ map msg_key (queue rw.1) ++ queued_by ops)%list.
Proof.
  revert rw. induction ops as [|op rest IH]; intros rw.
  - destruct rw. simpl. rewrite app_nil_r. reflexivity.
  - rewrite queued_by_cons. specialize (IH (exec_op rw op)).
    change (exec_ops rw (op :: rest)) with (exec_ops (exec_op rw op) rest).
    destruct (exec_ops (exec_op rw op) rest) as [r' w'].
    rewrite IH, app_assoc, exec_op_queue, <- !app_assoc. reflexivity.
Qed.

(** X4. [start_next] on an idle runner does not depend on the per-message
    agent of the message it dequeues: only the runner's own override is
    used. *)
Theorem start_next_ignores_message_agent (r : MissionRunner) (w : World) (id : Uuid)
    (content : string) (a1 a2 : option string) (rest : list QueuedMessage) :
  is_running r = false ->
  start_next (set_queue r (mkQueuedMessage id content a1 :: rest)) w =
  start_next (set_queue r (mkQueuedMessage id content a2 :: rest)) w.
Proof.
  intros Hr. unfold start_next, is_running in *. destruct r as [? ? ? st]; simpl in *.
  destruct st; try discriminate; reflexivity.
Qed.

Lemma explicitly_completed_step (rw : MissionRunner * World) (op : Op) :
  explicitly_completed rw.1 = true -> explicitly_completed (exec_op rw op).1 = true.
Proof.
  destruct rw as [r w]. simpl. intros He. destruct op; simpl; try exact He.
  - unfold start_next. destruct (is_running r); [exact He|].
    destruct (queue r); exact He.
  - unfold poll_completion. destruct (running_handle r) as [h|]; [|exact He].
    destruct (handle_finished w h) as [[mid input res|]|]; simpl; try exact He.
    destruct (_ || _); simpl; [reflexivity | exact He].
  - unfold cancel. destruct (cancel_token r); exact He.
Qed.

(** X5. Once a runner has recorded explicit completion it keeps it under
    every operation, and [check_health] then never reports missing
    deliverables. *)
Theorem explicit_completion_sticks (rw : MissionRunner * World) (ops : list Op) :
  explicitly_completed rw.1 = true ->
  let r' := (exec_ops rw ops).1 in
  explicitly_completed r' = true /\
  forall w missing m, check_health r' w missing <> MissingDeliverables m.
Proof.
  intros He. assert (Hr : explicitly_completed (exec_ops rw ops).1 = true).
  { revert rw He. induction ops as [|op rest IH]; intros rw He; [exact He|].
    apply IH, explicitly_completed_step, He. }
  split; [exact Hr|]. intros w missing m. unfold check_health. rewrite Hr.
  destruct (is_running _ && _); [discriminate|].
  rewrite andb_false_r, andb_false_l. discriminate.
Qed.

(** X6. When [check_finished] is false, [poll_completion] returns nothing
    and leaves the runner unchanged; when it is true, the runner holds no
    task handle after [poll_completion]. *)
Theorem poll_completion_check_finished (r : MissionRunner) (w : World) :
  (check_finished r w = false -> poll_completion r w = (None, r)) /\
  (check_finished r w = true -> running_handle (snd (poll_completion r w)) = None).
Proof.
  unfold check_finished, poll_completion.
  destruct (running_handle r) as [h|] eqn:Hh.
  - destruct (handle_finished w h) as [[mid input res|]|]; simpl.
    + split; [discriminate|]. intros _. destruct (_ || _); reflexivity.
    + split; [discriminate|reflexivity].
    + split; [|discriminate]. intros _. destruct r; simpl in *. subst. reflexivity.
  - split; [discriminate|]. intros _. exact Hh.
Qed.

Lemma start_next_ignores_message_agent_witness :
  is_running RunnerSamples.runner0 = false /\
  start_next (set_queue RunnerSamples.runner0 [mkQueuedMessage 11 "hi" (Some "reviewer")]) RunnerSamples.world0 =
  start_next (set_queue RunnerSamples.runner0 [mkQueuedMessage 11 "hi" None]) RunnerSamples.world0.
Proof. split; [reflexivity|]. apply start_next_ignores_message_agent. reflexivity. Defined.

Lemma explicit_completion_sticks_witness :
  explicitly_completed RunnerSamples.runner_completed = true /\
  explicitly_completed (exec_ops (RunnerSamples.runner_completed, RunnerSamples.world0) [OpStartNext; OpCancel]).1 = true.
Proof.
  split; [reflexivity|].
  exact (proj1 (explicit_completion_sticks (RunnerSamples.runner_completed, RunnerSamples.world0)
                  [OpStartNext; OpCancel] eq_refl)).
Defined.

End RunnerOpsProofs.

Module OpenCodeTextProofs.
Import OpenCode Storage OpenCodeText StringFacts TrimProofs.

Lemma strip_cons_other (c : ascii) (s : string) :
  c <> esc -> strip_ansi_codes (String c s) = String c (strip_ansi_codes s).
Proof.
  intros Hc. simpl. destruct (Ascii.eqb_spec c esc); [contradiction|reflexivity].
Qed.

Lemma strip_prefix (p s : string) :
  no_char esc p -> strip_ansi_codes (p ++ s) = p ++ strip_ansi_codes s.
Proof.
  induction p as [|c p IH]; intros Hp; [reflexivity|].
  inversion Hp as [|? ? Hc Hp']; subst. simpl (String c p ++ s).
  rewrite strip_cons_other by exact Hc. rewrite IH by exact Hp'. reflexivity.
Qed.

Lemma skip_csi_app (codes rest : string) :
  no_char "m"%char codes -> skip_csi (codes ++ String "m"%char rest) = strip_ansi_codes rest.
Proof.
  induction codes as [|c codes IH]; intros Hc; [reflexivity|].
  inversion Hc as [|? ? Hc1 Hc']; subst. simpl.
  destruct (Ascii.eqb_spec c "m"%char); [contradiction|]. apply IH, Hc'.
Qed.

Lemma skip_csi_none (q : string) : no_char "m"%char q -> skip_csi q = "".
Proof.
  induction q as [|c q IH]; intros Hq; [reflexivity|].
  inversion Hq as [|? ? Hc Hq']; subst. simpl.
  destruct (Ascii.eqb_spec c "m"%char); [contradiction|]. apply IH, Hq'.
Qed.

(** X7. [strip_ansi_codes] leaves a text without ESC unchanged. *)
Theorem strip_ansi_codes_plain (s : string) :
  no_char esc s -> strip_ansi_codes s = s.
Proof.
  intros Hs. rewrite <- (append_nil_r s) at 1. rewrite strip_prefix by exact Hs.
  apply append_nil_r.
Qed.

(** X8. [strip_ansi_codes] removes an ESC '[' sequence up to and including
    the first 'm', and an unterminated one removes everything to the end of
    the text. *)
Theorem strip_ansi_codes_sequences (p codes rest q : string) :
  no_char esc p -> no_char "m"%char codes -> no_char "m"%char q ->
  strip_ansi_codes (p ++ String esc (String "["%char (codes ++ String "m"%char rest))) =
    p ++ strip_ansi_codes rest /\
  strip_ansi_codes (p ++ String esc (String "["%char q)) = p.
Proof.
  intros Hp Hc Hq. rewrite !strip_prefix by exact Hp. split.
  - f_equal. simpl. apply skip_csi_app, Hc.
  - simpl. rewrite skip_csi_none by exact Hq. apply append_nil_r.
Qed.

(** X9. [strip_ansi_codes] never makes a text longer. *)
Theorem strip_ansi_codes_shorter (s : string) :
  String.length (strip_ansi_codes s) <= String.length s.
Proof.
  enough (H : forall n s, String.length s <= n ->
            String.length (strip_ansi_codes s) <= String.length s /\
            String.length (skip_csi s) <= String.length s) by apply (H _ s (le_n _)).
  induction n as [|n IH]; intros t Ht.
  - destruct t; [simpl; lia | simpl in Ht; lia].
  - destruct t as [|c t']; [simpl; lia|]. simpl in Ht.
    destruct (IH t' ltac:(lia)) as [H1 H2]. split.
    + simpl. destruct (Ascii.eqb c esc); [|simpl; lia].
      destruct t' as [|c' t'']; [simpl; lia|].
      destruct (Ascii.eqb c' "["%char); [|simpl in H1 |- *; lia].
      simpl in Ht. destruct (IH t'' ltac:(lia)) as [_ H3]. simpl. lia.
    + simpl. destruct (Ascii.eqb c "m"%char); simpl; lia.
Qed.

Lemma take_token_spec (v t : string) :
  take_token v = t <->
  exists rest, v = t ++ rest /\ Forall (fun c => token_char c = true) (list_ascii_of_string t) /\
               token_stops rest.
Proof.
  revert t. induction v as [|c v IH]; intros t; simpl.
  - split.
    + intros <-. exists "". repeat constructor.
    + intros (rest & Hv & _ & _). destruct t; [reflexivity|discriminate].
  - destruct (token_char c) eqn:Hc.
    + split.
      * intros <-. destruct (proj1 (IH (take_token v)) eq_refl) as (rest & Hv & Ht & Hs).
        exists rest. split; [simpl; rewrite <- Hv; reflexivity|]. split; [constructor; assumption | exact Hs].
      * intros (rest & Hv & Ht & Hs). destruct t as [|c' t'].
        -- simpl in Hv. subst rest. simpl in Hs. congruence.
        -- simpl in Hv. injection Hv as <- Hv. f_equal. apply IH.
           inversion Ht; subst. exists rest. auto.
    + split.
      * intros <-. exists (String c v). split; [reflexivity|]. split; [constructor | exact Hc].
      * intros (rest & Hv & Ht & Hs). destruct t as [|c' t']; [reflexivity|].
        simpl in Hv. injection Hv as <- _. inversion Ht; subst. congruence.
Qed.

(** X10. [parse_opencode_session_token] returns the longest prefix of
    ASCII letters, digits, '-' and '_', and returns it exactly when it
    starts with "ses_" or has at least 8 bytes. *)
Theorem parse_opencode_session_token_spec (value token : string) :
  parse_opencode_session_token value = Some token <->
  (exists rest, value = token ++ rest /\
     Forall (fun c => token_char c = true) (list_ascii_of_string token) /\ token_stops rest) /\
  (String.prefix "ses_" token = true \/ 8 <= String.length token).
Proof.
  unfold parse_opencode_session_token. rewrite <- take_token_spec. split.
  - destruct (String.prefix "ses_" (take_token value)) eqn:Hp.
    + intros [= <-]. auto.
    + destruct (Nat.ltb_spec (String.length (take_token value)) 8); [discriminate|].
      intros [= <-]. auto.
  - intros [<- [Hp|Hl]]; [rewrite Hp; reflexivity|].
    destruct (String.prefix _ _); [reflexivity|].
    destruct (Nat.ltb_spec (String.length (take_token value)) 8); [lia|reflexivity].
Qed.

Lemma parse_valid (v t : string) : parse_opencode_session_token v = Some t -> valid_token t.
Proof.
  intros H. apply parse_opencode_session_token_spec in H as [(rest & _ & Hc & _) Hl].
  split; assumption.
Qed.

Lemma try_keys_valid (lower trimmed : string) (keys : list string) (t : string) :
  try_keys lower trimmed keys = Some (Some t) -> valid_token t.
Proof.
  induction keys as [|key ks IH]; simpl; [discriminate|].
  destruct (find lower key); [|exact IH].
  destruct (slice_from _ _); [|discriminate].
  destruct (parse_opencode_session_token _) eqn:Hp; [intros [= <-]; eapply parse_valid; exact Hp|exact IH].
Qed.

(** X11. A session id [extract_opencode_session_id] returns is made of
    ASCII letters, digits, '-' and '_', and starts with "ses_" or has at
    least 8 bytes. *)
Theorem extract_session_id_valid (to_lowercase : string -> string) (output t : string) :
  extract_opencode_session_id to_lowercase output = Some (Some t) -> valid_token t.
Proof.
  unfold extract_opencode_session_id. induction (lines output) as [|l ls IH];
    cbn [extract_from_lines]; [discriminate|].
  intros H. destruct (String.eqb (str_trim l) ""); [exact (IH H)|].
  destruct (try_keys (to_lowercase (str_trim l)) (str_trim l) session_keys) as [[t'|]|] eqn:Ht;
    [|exact (IH H)|discriminate].
  injection H as <-. eapply try_keys_valid. exact Ht.
Qed.

Lemma strip_cr_chars (P : ascii -> Prop) (l : string) : chars_ok P l -> chars_ok P (strip_cr l).
Proof.
  induction l as [|c l IH]; intros H; [exact H|].
  inversion H as [|? ? Hc Hl]; subst. simpl.
  destruct l as [|c' l'].
  - destruct (Ascii.eqb c cr); [constructor | exact H].
  - constructor; [exact Hc | apply IH, Hl].
Qed.

Lemma lines_go_chars (P : ascii -> Prop) (s : string) :
  chars_ok P s ->
  let '(l, t, ls) := lines_go s in chars_ok P l /\ Forall (chars_ok P) ls.
Proof.
  induction s as [|c s IH]; intros H; simpl; [split; constructor|].
  inversion H as [|? ? Hc Hs]; subst.
  specialize (IH Hs). destruct (lines_go s) as [[l t] ls] eqn:E.
  destruct (Ascii.eqb c lf).
  - split; [constructor|]. destruct s; [constructor|].
    destruct IH as [Hl Hls]. constructor; [|exact Hls].
    unfold finish_line. destruct t; [apply strip_cr_chars|]; exact Hl.
  - destruct IH as [Hl Hls]. split; [constructor; assumption | exact Hls].
Qed.

Lemma lines_chars (P : ascii -> Prop) (s : string) :
  chars_ok P s -> Forall (chars_ok P) (lines s).
Proof.
  intros H. destruct s as [|c s']; [constructor|]. unfold lines.
  pose proof (lines_go_chars P _ H) as Hg.
  destruct (lines_go (String c s')) as [[l t] ls]. destruct Hg as [Hl Hls].
  constructor; [|exact Hls]. unfold finish_line. destruct t; [apply strip_cr_chars|]; exact Hl.
Qed.

Lemma str_trim_chars (P : ascii -> Prop) (s : string) : chars_ok P s -> chars_ok P (str_trim s).
Proof.
  unfold chars_ok. intros H.
  destruct (str_trim_infix s) as (pre & cs & post & Hs & -> & _).
  rewrite <- (utf8_chars_bytes (list_ascii_of_string s)), Hs, !chars_bytes_app in H.
  exact (Forall_infix P _ _ _ H).
Qed.


Lemma ascii_lowercase_length (s : string) : String.length (ascii_lowercase s) = String.length s.
Proof. induction s; simpl; congruence. Qed.

Lemma prefix_length (pat s : string) : String.prefix pat s = true -> String.length pat <= String.length s.
Proof.
  revert s. induction pat as [|c pat IH]; intros s H; simpl; [lia|].
  destruct s as [|c' s]; [discriminate|]. simpl in H.
  destruct (ascii_dec c c'); [|discriminate]. specialize (IH s H). simpl. lia.
Qed.

Lemma find_from_unfold (s pat : string) (i : nat) :
  find_from s pat i =
    if String.prefix pat s then Some i
    else match s with EmptyString => None | String _ s' => find_from s' pat (S i) end.
Proof. destruct s; reflexivity. Qed.

Lemma find_from_bound (s pat : string) (i k : nat) :
  find_from s pat i = Some k -> i <= k /\ k - i + String.length pat <= String.length s.
Proof.
  revert i. induction s as [|c s IH]; intros i; rewrite find_from_unfold.
  - destruct (String.prefix pat "") eqn:Hp; [|discriminate].
    intros H. inversion H; subst. apply prefix_length in Hp. simpl in Hp. lia.
  - destruct (String.prefix pat (String c s)) eqn:Hp.
    + intros H. inversion H; subst. apply prefix_length in Hp. lia.
    + intros H. destruct (IH (S i) H). simpl. lia.
Qed.

Lemma get_ascii (s : string) (k : nat) (c : ascii) :
  is_ascii_str s -> String.get k s = Some c -> nat_of_ascii c < 128.
Proof.
  revert k. induction s as [|c' s IH]; intros k Hs Hg; [discriminate|].
  inversion Hs; subst. destruct k as [|k]; simpl in Hg.
  - injection Hg as <-. assumption.
  - apply (IH k); assumption.
Qed.

Lemma get_none (s : string) (k : nat) : String.get k s = None -> String.length s <= k.
Proof.
  revert k. induction s as [|c s IH]; intros k Hg; simpl; [lia|].
  destruct k as [|k]; [discriminate|]. simpl in Hg. specialize (IH k Hg). lia.
Qed.

Lemma slice_from_ascii (s : string) (k : nat) :
  is_ascii_str s -> k <= String.length s -> slice_from s k <> None.
Proof.
  intros Hs Hk. unfold slice_from.
  destruct (String.get k s) as [c|] eqn:Hg.
  - pose proof (get_ascii s k c Hs Hg).
    destruct (Nat.leb_spec 128 (nat_of_ascii c)); [lia|]. simpl. discriminate.
  - apply get_none in Hg. destruct (Nat.eqb_spec k (String.length s)); [discriminate|lia].
Qed.

Lemma try_keys_no_panic (trimmed : string) (keys : list string) :
  is_ascii_str trimmed -> try_keys (ascii_lowercase trimmed) trimmed keys <> None.
Proof.
  intros Ht. induction keys as [|key ks IH]; simpl; [discriminate|].
  destruct (find (ascii_lowercase trimmed) key) as [idx|] eqn:Hf; [|exact IH].
  destruct (find_from_bound _ _ _ _ Hf) as [_ Hb]. rewrite ascii_lowercase_length in Hb.
  destruct (slice_from trimmed (idx + String.length key)) eqn:Hs.
  - destruct (parse_opencode_session_token _); [discriminate|exact IH].
  - exfalso. revert Hs. apply slice_from_ascii; [exact Ht | lia].
Qed.

(** X12. On ASCII output [extract_opencode_session_id] does not panic: the
    byte index found in the lowercased line is a valid slice index of the
    line. *)
Theorem extract_session_id_ascii_no_panic (to_lowercase : string -> string) (output : string) :
  (forall s, is_ascii_str s -> to_lowercase s = ascii_lowercase s) ->
  is_ascii_str output ->
  extract_opencode_session_id to_lowercase output <> None.
Proof.
  intros Hlow Hout. unfold extract_opencode_session_id.
  pose proof (lines_chars _ _ Hout) as Hls.
  induction (lines output) as [|l ls IH]; cbn [extract_from_lines]; [discriminate|].
  inversion Hls as [|? ? Hl Hls']; subst.
  destruct (String.eqb (str_trim l) ""); [apply IH, Hls'|].
  pose proof (str_trim_chars _ _ Hl) as Htr. rewrite (Hlow _ Htr).
  pose proof (try_keys_no_panic (str_trim l) session_keys Htr) as Hnp.
  destruct (try_keys (ascii_lowercase (str_trim l)) (str_trim l) session_keys) as [[t|]|];
    [discriminate | apply IH, Hls' | contradiction].
Qed.

Lemma str_trim_spaces (s : string) :
  chars_ok (fun c => Ascii.is_space c = true) s -> str_trim s = "".
Proof.
  unfold chars_ok. intros H. apply str_trim_empty_iff.
  rewrite utf8_chars_ascii.
  - induction H as [|b l Hb _ IH]; [reflexivity|]. simpl. rewrite (proj2 (is_space_ws b Hb)). exact IH.
  - eapply Forall_impl; [exact H|]. intros b Hb. apply (is_space_ws b Hb).
Qed.


Lemma bytes_app (a b : string) :
  list_ascii_of_string (a ++ b) = (list_ascii_of_string a ++ list_ascii_of_string b)%list.
Proof. induction a as [|c a IH]; simpl; [reflexivity | rewrite IH; reflexivity]. Qed.

Lemma strip_cr_cases (l : string) : strip_cr l = l \/ l = strip_cr l ++ String cr "".
Proof.
  induction l as [|c l IH]; [left; reflexivity|].
  destruct l as [|c' l'].
  - simpl. destruct (Ascii.eqb_spec c cr) as [->|_]; [right|left]; reflexivity.
  - change (strip_cr (String c (String c' l'))) with (String c (strip_cr (String c' l'))).
    destruct IH as [H|H]; [left; rewrite H; reflexivity|].
    right. simpl. f_equal. exact H.
Qed.

Lemma ws_all_strip_cr (l : string) :
  ws_all (list_ascii_of_string l) = true -> ws_all (list_ascii_of_string (strip_cr l)) = true.
Proof.
  intros Hw. destruct (strip_cr_cases l) as [->|H]; [exact Hw|].
  rewrite H, bytes_app in Hw. simpl in Hw.
  exact (proj1 (ws_all_split _ [] cr eq_refl Hw)).
Qed.

Lemma lines_go_ws (s : string) : forall pre : list ascii,
  ws_all (pre ++ list_ascii_of_string s)%list = true ->
  let '(l, t, ls) := lines_go s in
  ws_all (pre ++ list_ascii_of_string l)%list = true /\
  Forall (fun x => ws_all (list_ascii_of_string x) = true) ls.
Proof.
  induction s as [|c s IH]; intros pre H; simpl.
  - split; [exact H | constructor].
  - destruct (Ascii.eqb_spec c lf) as [->|Hc].
    + simpl in H. destruct (ws_all_split pre _ lf eq_refl H) as [Hpre Hs].
      split; [rewrite app_nil_r; exact Hpre|].
      specialize (IH [] Hs). destruct s as [|c' s']; [constructor|].
      destruct (lines_go (String c' s')) as [[l t] ls]. destruct IH as [Hl Hls].
      constructor; [|exact Hls]. unfold finish_line.
      destruct t; [apply ws_all_strip_cr|]; exact Hl.
    + specialize (IH (pre ++ [c])%list). rewrite <- app_assoc in IH. specialize (IH H).
      destruct (lines_go s) as [[l t] ls]. rewrite <- app_assoc in IH. exact IH.
Qed.

Lemma lines_ws (s : string) :
  ws_all (list_ascii_of_string s) = true ->
  Forall (fun x => ws_all (list_ascii_of_string x) = true) (lines s).
Proof.
  intros H. destruct s as [|c s']; [constructor|]. unfold lines.
  pose proof (lines_go_ws (String c s') [] H) as Hg.
  destruct (lines_go (String c s')) as [[l t] ls]. destruct Hg as [Hl Hls].
  constructor; [|exact Hls]. unfold finish_line.
  destruct t; [apply ws_all_strip_cr|]; exact Hl.
Qed.


(** X13. If the output (ANSI codes stripped) has a non-blank line that
    contains none of the banner phrases, the storage fallback is skipped and
    the output is kept. *)
Theorem storage_fallback_kept (to_lowercase : string -> string) (storage : StorageTree)
    (captured : option string) (final_result line : string) :
  In line (lines (strip_ansi_codes final_result)) ->
  str_trim line <> "" ->
  is_banner (to_lowercase (str_trim line)) = false ->
  storage_fallback to_lowercase storage captured final_result = Some None.
Proof.
  intros Hin Hne Hb. unfold storage_fallback, opencode_output_needs_fallback.
  set (ls := List.filter _ _).
  assert (Hl : In (str_trim line) ls).
  { apply filter_In. split; [apply in_map, Hin|].
    destruct (String.eqb_spec (str_trim line) ""); [contradiction|reflexivity]. }
  assert (Hf : forallb (fun l => is_banner (to_lowercase l)) ls = false).
  { apply not_true_iff_false. intros Hall. rewrite forallb_forall in Hall.
    specialize (Hall _ Hl). congruence. }
  clearbody ls. destruct ls as [|x xs]; [destruct Hl|]. rewrite Hf. reflexivity.
Qed.

(** X14. If the output is blank after stripping ANSI codes and the stderr
    task captured a session id, the result is what
    [load_latest_opencode_assistant_text] finds for that session. *)
Theorem storage_fallback_blank_output (to_lowercase : string -> string) (storage : StorageTree)
    (session_id final_result : string) :
  trim_is_empty (strip_ansi_codes final_result) = true ->
  storage_fallback to_lowercase storage (Some session_id) final_result =
    Some (load_latest_opencode_assistant_text storage session_id).
Proof.
  intros H. unfold storage_fallback, opencode_output_needs_fallback.
  apply trim_is_empty_iff in H. pose proof (lines_ws _ H) as Hls.
  assert (Hnil : forall ls, Forall (fun x => ws_all (list_ascii_of_string x) = true) ls ->
            List.filter (fun l => negb (String.eqb l "")) (map str_trim ls) = []).
  { induction ls as [|l ls IH]; intros Hall; [reflexivity|].
    inversion Hall as [|? ? Hl Hall']; subst. simpl.
    rewrite (proj2 (str_trim_empty_iff l) Hl). simpl. apply IH. exact Hall'. }
  rewrite (Hnil _ Hls). reflexivity.
Qed.

Lemma strip_ansi_codes_plain_witness :
  no_char esc "plain text" /\ strip_ansi_codes "plain text" = "plain text".
Proof.
  assert (H : no_char esc "plain text") by (unfold no_char; vm_compute; repeat constructor; discriminate).
  split; [exact H | exact (strip_ansi_codes_plain _ H)].
Defined.

Lemma strip_ansi_codes_sequences_witness :
  no_char esc "ok " /\ no_char "m"%char "31" /\ no_char "m"%char "0" /\
  strip_ansi_codes ("ok " ++ String esc (String "["%char ("31" ++ String "m"%char "red"))) =
    "ok " ++ strip_ansi_codes "red".
Proof.
  assert (H1 : no_char esc "ok ") by (unfold no_char; vm_compute; repeat constructor; discriminate).
  assert (H2 : no_char "m"%char "31") by (unfold no_char; vm_compute; repeat constructor; discriminate).
  assert (H3 : no_char "m"%char "0") by (unfold no_char; vm_compute; repeat constructor; discriminate).
  split; [exact H1|]. split; [exact H2|]. split; [exact H3|].
  exact (proj1 (strip_ansi_codes_sequences "ok " "31" "red" "0" H1 H2 H3)).
Defined.

Lemma extract_session_id_valid_witness :
  extract_opencode_session_id ascii_lowercase "Session id: ses_abc" = Some (Some "ses_abc") /\
  valid_token "ses_abc".
Proof.
  assert (H : extract_opencode_session_id ascii_lowercase "Session id: ses_abc" = Some (Some "ses_abc"))
    by (vm_compute; reflexivity).
  split; [exact H | exact (extract_session_id_valid _ _ _ H)].
Defined.

Lemma extract_session_id_ascii_no_panic_witness :
  is_ascii_str "Session: ses_1" /\
  extract_opencode_session_id ascii_lowercase "Session: ses_1" <> None.
Proof.
  assert (H : is_ascii_str "Session: ses_1")
    by (unfold is_ascii_str, chars_ok; vm_compute; repeat constructor).
  split; [exact H|].
  apply (extract_session_id_ascii_no_panic ascii_lowercase); [intros; reflexivity | exact H].
Defined.

Lemma storage_fallback_kept_witness :
  In "All done, the file is written." (lines (strip_ansi_codes "All done, the file is written.")) /\
  str_trim "All done, the file is written." <> "" /\
  is_banner (ascii_lowercase (str_trim "All done, the file is written.")) = false /\
  storage_fallback ascii_lowercase StorageSamples.tree_hello None "All done, the file is written." = Some None.
Proof.
  assert (H1 : In "All done, the file is written." (lines (strip_ansi_codes "All done, the file is written.")))
    by (vm_compute; left; reflexivity).
  assert (H2 : str_trim "All done, the file is written." <> "") by (vm_compute; discriminate).
  assert (H3 : is_banner (ascii_lowercase (str_trim "All done, the file is written.")) = false)
    by (vm_compute; reflexivity).
  split; [exact H1|]. split; [exact H2|]. split; [exact H3|].
  exact (storage_fallback_kept _ _ _ _ _ H1 H2 H3).
Defined.

Lemma storage_fallback_blank_output_witness :
  trim_is_empty (strip_ansi_codes "  ") = true /\
  storage_fallback ascii_lowercase StorageSamples.tree_hello (Some "ses") "  " =
    Some (load_latest_opencode_assistant_text StorageSamples.tree_hello "ses").
Proof.
  assert (H : trim_is_empty (strip_ansi_codes "  ") = true) by (vm_compute; reflexivity).
  split; [exact H | exact (storage_fallback_blank_output _ _ _ _ H)].
Defined.

End OpenCodeTextProofs.

Module AdapterRunProofs.
Import Claude OpenCode AdapterRuns StringFacts.

Section ClaudeRuns.
Variable hm_values : gmap N string -> list string.
Variable mission_id : N.

Lemma claude_step_breaks (st : ClaudeSt) (l : ClaudeLine) :
  (claude_step hm_values mission_id st l).2 = claude_breaks l.
Proof.
  destruct l as [ev| |]; try reflexivity.
  destruct ev as [|[]| | |subtype is_error result cost]; simpl; try reflexivity.
  - destruct (on_delta _ _ _ _ _ _); reflexivity.
  - destruct (fold_left _ _ _); reflexivity.
  - destruct (is_error || _); reflexivity.
Qed.

(** X15. The Claude read loop stops at the first read error or Result
    event: lines after it have no effect. *)
Theorem claude_run_stops_at_break (st : ClaudeSt) (ls post : list ClaudeLine) :
  Exists (fun l => claude_breaks l = true) ls ->
  claude_run hm_values mission_id st (ls ++ post) = claude_run hm_values mission_id st ls.
Proof.
  revert st. induction ls as [|l ls IH]; intros st Hex; [inversion Hex|].
  simpl. pose proof (claude_step_breaks st l) as Hb.
  destruct (claude_step hm_values mission_id st l) as [[st' evs] brk]. simpl in Hb.
  destruct brk; [reflexivity|].
  inversion Hex as [? ? Hl|? ? Hls]; subst; [congruence|].
  rewrite (IH st' Hls). reflexivity.
Qed.

Lemma assistant_blocks_keep (blocks : list ContentBlock) (st : ClaudeSt) (evs : list AgentEvent) :
  err_cost (fold_left (on_assistant_block mission_id) blocks (st, evs)).1 = err_cost st.
Proof.
  revert st evs. induction blocks as [|b bs IH]; intros st evs; [reflexivity|].
  simpl. destruct b; simpl; try (destruct (String.eqb _ _)); rewrite IH; reflexivity.
Qed.

Lemma claude_step_keeps (st : ClaudeSt) (l : ClaudeLine) :
  claude_breaks l = false ->
  err_cost (claude_step hm_values mission_id st l).1.1 = err_cost st.
Proof.
  destruct l as [ev| |]; try discriminate; [|reflexivity].
  destruct ev as [|[index dt text| |]|blocks| |]; simpl; intros Hb; try reflexivity; try discriminate.
  - unfold on_delta. destruct text as [t|]; [|reflexivity].
    destruct (String.eqb t ""); [reflexivity|].
    destruct (String.eqb dt "thinking_delta"); [|destruct (String.eqb dt "text_delta"); reflexivity].
    destruct (Nat.ltb _ _); reflexivity.
  - pose proof (assistant_blocks_keep blocks st []).
    destruct (fold_left _ _ _). exact H.
Qed.

Lemma claude_run_app (st : ClaudeSt) (pre rest : list ClaudeLine) :
  Forall (fun l => claude_breaks l = false) pre ->
  (claude_run hm_values mission_id st (pre ++ rest)).1 =
  (claude_run hm_values mission_id (claude_run hm_values mission_id st pre).1 rest).1 /\
  err_cost (claude_run hm_values mission_id st pre).1 = err_cost st.
Proof.
  revert st. induction pre as [|l pre IH]; intros st Hpre; [split; reflexivity|].
  inversion Hpre as [|? ? Hl Hpre']; subst. simpl.
  pose proof (claude_step_breaks st l) as Hb. pose proof (claude_step_keeps st l Hl) as Hk.
  destruct (claude_step hm_values mission_id st l) as [[st' evs] brk]. simpl in Hb, Hk.
  rewrite Hl in Hb. subst brk.
  destruct (IH st' Hpre') as [H1 H2].
  destruct (claude_run hm_values mission_id st' (pre ++ rest)) as [s1 e1] eqn:E1.
  destruct (claude_run hm_values mission_id st' pre) as [s2 e2] eqn:E2. simpl in *.
  split; [exact H1 | congruence].
Qed.

(** X16. A Result event after lines that do not stop the Claude loop
    decides the outcome: an error Result gives a failure carrying its text
    ("Unknown error" if none) and its cost, marked LlmError; a successful
    Result with non-blank text gives a success with that text and cost. *)
Theorem claude_result_event (pre : list ClaudeLine) (subtype : string) (is_error : bool)
    (result : option string) (cost : option N) :
  Forall (fun l => claude_breaks l = false) pre ->
  let st := (claude_run hm_values mission_id claude_init
               (pre ++ [LineEvent (ResultEv subtype is_error result cost)])).1 in
  (is_error || String.eqb subtype "error" = true ->
     claude_finish st =
       with_terminal_reason (AgentResult_failure (default "Unknown error" result) (default 0%N cost)) LlmError) /\
  (forall r, is_error || String.eqb subtype "error" = false -> result = Some r ->
     trim_is_empty r = false ->
     claude_finish st = AgentResult_success r (default 0%N cost)).
Proof.
  intros Hpre. destruct (claude_run_app claude_init pre [LineEvent (ResultEv subtype is_error result cost)] Hpre)
    as [H1 H2]. cbv zeta. rewrite H1.
  destruct (claude_run hm_values mission_id claude_init pre) as [st0 evs0]. simpl in H2 |- *.
  unfold err_cost in H2. simpl in H2. injection H2 as Herr Hcost.
  split.
  - intros He. rewrite He. unfold claude_finish. simpl. rewrite andb_false_r.
    rewrite Hcost. reflexivity.
  - intros r He Hr Ht. rewrite He, Hr. unfold claude_finish. simpl.
    rewrite Ht, Herr, Hcost. reflexivity.
Qed.

Lemma claude_step_no_result (st : ClaudeSt) (l : ClaudeLine) :
  sets_result l = false ->
  err_cost (claude_step hm_values mission_id st l).1.1 = err_cost st /\
  final_result (claude_step hm_values mission_id st l).1.1 = final_result st.
Proof.
  destruct l as [ev| |]; try (intros; split; reflexivity).
  destruct ev as [|[index dt text| |]|blocks| |]; simpl; intros Hs; try discriminate; try (split; reflexivity).
  unfold on_delta. destruct text as [t|]; [|split; reflexivity].
  destruct (String.eqb t ""); [split; reflexivity|].
  destruct (String.eqb dt "thinking_delta"); [|destruct (String.eqb dt "text_delta"); split; reflexivity].
  destruct (Nat.ltb _ _); split; reflexivity.
Qed.

(** X17. If no assistant message and no Result event is read, the Claude
    turn fails with the no-output message, cost 0, marked LlmError. *)
Theorem claude_no_result_fails (ls : list ClaudeLine) :
  Forall (fun l => sets_result l = false) ls ->
  claude_finish (claude_run hm_values mission_id claude_init ls).1 =
    with_terminal_reason (AgentResult_failure no_output_message 0) LlmError.
Proof.
  intros Hls.
  assert (H : forall st, Forall (fun l => sets_result l = false) ls ->
            err_cost (claude_run hm_values mission_id st ls).1 = err_cost st /\
            final_result (claude_run hm_values mission_id st ls).1 = final_result st).
  { clear Hls. induction ls as [|l ls IH]; intros st Hls; [split; reflexivity|].
    inversion Hls as [|? ? Hl Hls']; subst. simpl.
    pose proof (claude_step_no_result st l Hl) as [K1 K2].
    destruct (claude_step hm_values mission_id st l) as [[st' evs] brk]. simpl in K1, K2.
    destruct brk; [split; assumption|].
    destruct (IH st' Hls') as [J1 J2].
    destruct (claude_run hm_values mission_id st' ls) as [s e]. simpl in *. split; congruence. }
  destruct (H claude_init Hls) as [H1 H2].
  destruct (claude_run hm_values mission_id claude_init ls) as [st evs]. simpl in *.
  unfold err_cost in H1. simpl in H1. injection H1 as He Hc.
  unfold claude_finish. rewrite H2, He, Hc. reflexivity.
Qed.

End ClaudeRuns.

Section OpenCodeRuns.
Variable mission_id : Uuid.

Lemma stdout_run_chunks (fr : string) (he : bool) (cs : list string) (rest : list StdoutRead) :
  stdout_run mission_id (fr, he) (map Chunk cs ++ rest) =
    let '(st', evs') := stdout_run mission_id (fr ++ String.concat "" cs, he || existsb chunk_has_error cs) rest in
    (st', (map (fun c => Thinking c false (Some mission_id)) (List.filter (fun c => negb (String.eqb c "")) cs) ++ evs')%list).
Proof.
  revert fr he. induction cs as [|c cs IH]; intros fr he.
  - simpl. rewrite append_nil_r, orb_false_r. destruct (stdout_run _ _ rest). reflexivity.
  - change (map Chunk (c :: cs) ++ rest)%list with (Chunk c :: (map Chunk cs ++ rest))%list.
    cbn [stdout_run stdout_step]. rewrite ClaudeThinkingProofs.concat_cons.
    destruct (String.eqb_spec c "") as [->|Hc].
    + rewrite IH. simpl. destruct (stdout_run _ _ rest). reflexivity.
    + cbn [filter negb]. cbn iota.
      rewrite IH, append_assoc.
      replace (he || existsb chunk_has_error (c :: cs))
        with (he || contains c "Error:" || contains c "error:" || existsb chunk_has_error cs)
        by (simpl; unfold chunk_has_error;
            destruct he, (contains c "Error:"), (contains c "error:"); reflexivity).
      destruct (stdout_run _ _ rest). simpl. rewrite (proj2 (String.eqb_neq c "") Hc). reflexivity.
Qed.

(** X18. Over stdout chunks (up to EOF or a read error) the OpenCode loop
    accumulates the concatenation of the chunks, sets [had_error] exactly
    when a chunk contains "Error:" or "error:", and emits one Thinking
    event per non-empty chunk, in order. *)
Theorem stdout_chunks_accumulate (cs : list string) (rest : list StdoutRead) :
  let expected := ((String.concat "" cs, existsb chunk_has_error cs),
                   map (fun c => Thinking c false (Some mission_id))
                     (List.filter (fun c => negb (String.eqb c "")) cs)) in
  stdout_run mission_id ("", false) (map Chunk cs) = expected /\
  stdout_run mission_id ("", false) (map Chunk cs ++ ReadError :: rest) = expected.
Proof.
  split.
  - rewrite <- (app_nil_r (map Chunk cs)), stdout_run_chunks. simpl. rewrite app_nil_r. reflexivity.
  - rewrite stdout_run_chunks. simpl. rewrite app_nil_r. reflexivity.
Qed.

Lemma stderr_results_paired_from (bs : StderrSt) (lines : list (string * string)) :
  (bs = (None, None) \/ exists id name, bs = (Some id, Some name)) ->
  results_paired (last_call bs) (snd (stderr_run mission_id bs lines)).
Proof.
  revert bs. induction lines as [|[raw uuid] lines IH]; intros bs Hbs; [exact I|].
  cbn [stderr_run]. unfold stderr_line.
  destruct (String.eqb (str_trim raw) "").
  { pose proof (IH bs Hbs) as H. simpl. destruct (stderr_run mission_id bs lines). exact H. }
  destruct bs as [tid tname].
  destruct (contains (str_trim raw) "TOOL.EXECUTE:").
  - destruct (find (str_trim raw) "TOOL.EXECUTE:") as [ns|].
    + destruct (slice_from (str_trim raw) (ns + 14)) as [np|]; [|exact I].
      simpl.
      pose proof (IH (Some ("opencode-" ++ uuid), Some (trim_dquotes (str_trim np)))) as H.
      destruct (stderr_run _ _ lines). apply H. right. eauto.
    + simpl. pose proof (IH (tid, tname) Hbs) as H.
      destruct (stderr_run _ _ lines). exact H.
  - pose proof (IH (tid, tname) Hbs) as H.
    destruct (contains (str_trim raw) "TOOL.RESULT:").
    + simpl. destruct (stderr_run _ _ lines). simpl. split; [|exact H].
      destruct Hbs as [Hn|[id [name Hs]]]; [inversion Hn | inversion Hs]; subst; simpl.
      * split; [reflexivity | destruct uuid; reflexivity].
      * split; reflexivity.
    + destruct (_ || _); simpl; destruct (stderr_run _ _ lines); exact H.
Qed.

(** X19. Every ToolResult the OpenCode stderr task emits carries the id and
    name of the latest ToolCall it emitted before, or the name "unknown"
    and an "opencode-" id when there was none. *)
Theorem stderr_results_paired (lines : list (string * string)) :
  results_paired None (snd (stderr_run mission_id (None, None) lines)).
Proof. apply (stderr_results_paired_from (None, None)). left. reflexivity. Qed.

End OpenCodeRuns.

Lemma claude_run_stops_at_break_witness :
  Exists (fun l => claude_breaks l = true) [LineSkipped; LineReadError] /\
  claude_run values_in_map_order 1 claude_init ([LineSkipped; LineReadError] ++ [LineEvent (ResultEv "success" false (Some "late") None)])
  = claude_run values_in_map_order 1 claude_init [LineSkipped; LineReadError].
Proof.
  assert (H : Exists (fun l => claude_breaks l = true) [LineSkipped; LineReadError])
    by (right; left; reflexivity).
  split; [exact H | exact (claude_run_stops_at_break _ _ _ _ _ H)].
Defined.

Lemma claude_result_event_witness :
  Forall (fun l => claude_breaks l = false) [LineSkipped; LineEvent SystemEv] /\
  claude_finish (claude_run values_in_map_order 1 claude_init
    ([LineSkipped; LineEvent SystemEv] ++ [LineEvent (ResultEv "error" false (Some "rate limited") (Some 12%N))])).1 =
  with_terminal_reason (AgentResult_failure "rate limited" 12) LlmError.
Proof.
  assert (H : Forall (fun l => claude_breaks l = false) [LineSkipped; LineEvent SystemEv])
    by (repeat constructor).
  split; [exact H|].
  exact (proj1 (claude_result_event values_in_map_order 1 _ "error" false (Some "rate limited") (Some 12%N) H) eq_refl).
Defined.

Lemma claude_no_result_fails_witness :
  Forall (fun l => sets_result l = false) [LineEvent SystemEv; LineSkipped] /\
  claude_finish (claude_run values_in_map_order 1 claude_init [LineEvent SystemEv; LineSkipped]).1 =
    with_terminal_reason (AgentResult_failure no_output_message 0) LlmError.
Proof.
  assert (H : Forall (fun l => sets_result l = false) [LineEvent SystemEv; LineSkipped])
    by (repeat constructor).
  split; [exact H | exact (claude_no_result_fails _ _ _ H)].
Defined.

End AdapterRunProofs.

Module WorkspaceConfigProofs.
Import Workspace UniqueKeyProofs WorkspaceConfig.

(** X20. A stdio MCP server becomes a local entry running its command
    followed by its arguments, with its enabled flag and an environment
    that always holds OPEN_AGENT_WORKSPACE (the server's own value if it
    set one, the workspace directory otherwise) and otherwise equals the
    server's environment. *)
Theorem opencode_entry_stdio_env (enabled : bool) (nm : ustring) (command workspace_dir : string)
    (args : list string) (env : gmap string string) :
  exists merged,
    opencode_entry_from_mcp (mkMcpServerConfig nm enabled (Stdio command args env)) workspace_dir =
      EntryLocal (command :: args) enabled (Some merged) /\
    merged !! workspace_var = Some (default workspace_dir (env !! workspace_var)) /\
    (forall k, k <> workspace_var -> merged !! k = env !! k).
Proof.
  unfold opencode_entry_from_mcp. simpl.
  destruct (env !! workspace_var) as [v|] eqn:Hv.
  - exists env. destruct (decide (env = ∅)) as [He|He].
    + subst. rewrite lookup_empty in Hv. discriminate.
    + split; [reflexivity|]. split; [exact Hv | reflexivity].
  - exists (<[workspace_var := workspace_dir]> env).
    destruct (decide (<[workspace_var := workspace_dir]> env = ∅)) as [He|He].
    + exfalso. apply (insert_non_empty env workspace_var workspace_dir), He.
    + split; [reflexivity|]. split; [apply lookup_insert_eq|].
      intros k Hk. apply lookup_insert_ne. congruence.
Qed.

Section Tables.
Context `{UnicodeTables}.

Lemma insert_entries_spec (workspace_dir : string) (configs : list McpServerConfig) :
  forall (used : gset ustring) (m : gmap ustring OpencodeEntry),
  (forall k, is_Some (m !! k) -> k ∈ used) ->
  exists m' keys,
    insert_entries workspace_dir configs used m = Some m' /\
    NoDup keys /\ Forall (fun k => k ∉ used) keys /\
    Forall2 (fun c k => m' !! k = Some (opencode_entry_from_mcp c workspace_dir) /\
                        (k = sanitize_key (name c) \/
                         exists j, (2 <= j)%N /\ k = candidate (sanitize_key (name c)) j)) configs keys /\
    (forall k, k ∉ keys -> m' !! k = m !! k).
Proof.
  induction configs as [|c rest IH]; intros used m Hdom; simpl.
  - exists m, []. split; [reflexivity|]. split; [constructor|]. split; [constructor|].
    split; [constructor|]. intros; reflexivity.
  - destruct (unique_key_spec (sanitize_key (name c)) used) as [k [Hk [Hnin Hform]]].
    rewrite Hk.
    destruct (IH ({[k]} ∪ used) (<[k := opencode_entry_from_mcp c workspace_dir]> m))
      as [m' [keys [Hrun [Hnd [Hfresh [Hrel Hrest]]]]]].
    { intros k' Hk'. destruct (decide (k' = k)) as [->|Hne]; [set_solver|].
      rewrite lookup_insert_ne in Hk' by congruence. apply Hdom in Hk'. set_solver. }
    exists m', (k :: keys). split; [exact Hrun|].
    assert (Hk_notin : k ∉ keys).
    { intros Hin. rewrite Forall_forall in Hfresh. apply (Hfresh k Hin). set_solver. }
    split; [constructor; assumption|].
    split.
    { constructor; [exact Hnin|]. rewrite Forall_forall in Hfresh |- *.
      intros x Hx. specialize (Hfresh x Hx). set_solver. }
    split.
    + constructor; [|exact Hrel]. split; [|exact Hform].
      rewrite (Hrest k Hk_notin). apply lookup_insert_eq.
    + intros k' Hk'. rewrite Hrest by set_solver. apply lookup_insert_ne. set_solver.
Qed.

(** X21. Building the mcp map of opencode.json never fails: the enabled
    servers, in order, get pairwise distinct keys (each the sanitized name
    or that name with a suffix numbered from 2), the map holds exactly
    these keys, and each key maps to its server's entry. *)
Theorem opencode_mcp_map_spec (workspace_dir : string) (mcp_configs : list McpServerConfig) :
  let enabled_configs := List.filter enabled mcp_configs in
  exists m keys,
    opencode_mcp_map workspace_dir mcp_configs = Some m /\
    NoDup keys /\
    (forall k, is_Some (m !! k) <-> k ∈ keys) /\
    Forall2 (fun c k => m !! k = Some (opencode_entry_from_mcp c workspace_dir) /\
                        (k = sanitize_key (name c) \/
                         exists j, (2 <= j)%N /\ k = candidate (sanitize_key (name c)) j))
      enabled_configs keys.
Proof.
  cbv zeta. unfold opencode_mcp_map.
  destruct (insert_entries_spec workspace_dir (List.filter enabled mcp_configs) ∅ ∅)
    as [m [keys [Hrun [Hnd [_ [Hrel Hrest]]]]]].
  { intros k Hk. rewrite lookup_empty in Hk. destruct Hk; discriminate. }
  exists m, keys. split; [exact Hrun|]. split; [exact Hnd|]. split; [|exact Hrel].
  intros k. split.
  - intros Hs. destruct (decide (k ∈ keys)) as [Hin|Hnin]; [exact Hin|].
    rewrite Hrest in Hs by exact Hnin. rewrite lookup_empty in Hs. destruct Hs; discriminate.
  - intros Hin. apply list_elem_of_lookup_1 in Hin as [i Hi].
    destruct (Forall2_lookup_r _ _ _ _ _ Hrel Hi) as [c [_ [Hc _]]].
    rewrite Hc. eexists; reflexivity.
Qed.

End Tables.

End WorkspaceConfigProofs.

Module WorkspaceDirProofs.
Import WorkspaceDirs StringFacts.

Lemma hex_nibbles_length (u : Uuid) (k n : nat) : String.length (hex_nibbles u k n) = n.
Proof. induction n; simpl; congruence. Qed.

Lemma substring_app (a b : string) : String.substring 0 (String.length a) (a ++ b) = a.
Proof.
  induction a as [|c a IH]; simpl; [destruct b; reflexivity|]. rewrite IH. reflexivity.
Qed.

Lemma get_app_length (a r : string) (c : ascii) : String.get (String.length a) (a ++ String c r) = Some c.
Proof. induction a; simpl; auto. Qed.

Lemma slice_to_prefix (a r : string) (c : ascii) :
  nat_of_ascii c < 128 -> slice_to (a ++ String c r) (String.length a) = Some a.
Proof.
  intros Hc. unfold slice_to. rewrite get_app_length.
  destruct (Nat.leb_spec 128 (nat_of_ascii c)); [lia|]. simpl. f_equal. apply substring_app.
Qed.

Lemma short_id_eq (u : Uuid) : slice_to (uuid_to_string u) 8 = Some (hex_nibbles u 24 8).
Proof.
  unfold uuid_to_string. rewrite <- (hex_nibbles_length u 24 8) at 2.
  apply slice_to_prefix. cbv. lia.
Qed.

Lemma append_inj_l (a x y : string) : a ++ x = a ++ y -> x = y.
Proof. induction a as [|c a IH]; simpl; [auto|]. intros H. injection H. exact IH. Qed.

Lemma path_join_inj (base p1 p2 : string) :
  String.prefix "/" p1 = false -> String.prefix "/" p2 = false ->
  path_join base p1 = path_join base p2 -> p1 = p2.
Proof.
  unfold path_join. intros H1 H2. rewrite H1, H2.
  destruct (last_char base) as [c|]; [|auto].
  destruct (Ascii.eqb c "/"%char); [apply append_inj_l|].
  intros H. apply append_inj_l in H. apply (append_inj_l "/"), H.
Qed.

Lemma hex_digit_inj (n1 n2 : N) : (n1 < 16)%N -> (n2 < 16)%N -> hex_digit n1 = hex_digit n2 -> n1 = n2.
Proof.
  intros H1 H2 H. apply (f_equal N_of_ascii) in H. unfold hex_digit in H.
  destruct (N.ltb_spec n1 10), (N.ltb_spec n2 10);
    rewrite !N_ascii_embedding in H by lia; lia.
Qed.

Lemma nibble_lt (u : Uuid) (k : nat) : (nibble u k < 16)%N.
Proof.
  unfold nibble. change 15%N with (N.ones 4). rewrite N.land_ones.
  apply N.mod_lt. discriminate.
Qed.

Lemma hex_nibbles_inj (u1 u2 : Uuid) (k n : nat) :
  hex_nibbles u1 k n = hex_nibbles u2 k n -> forall j, (j < n)%nat -> nibble u1 (k + j) = nibble u2 (k + j).
Proof.
  induction n as [|n IH]; simpl; intros H j Hj; [lia|].
  injection H as Hd Hr. destruct (Nat.eq_dec j n) as [->|Hne].
  - apply hex_digit_inj; [apply nibble_lt | apply nibble_lt | exact Hd].
  - apply IH; [exact Hr | lia].
Qed.

Lemma hex_nibbles_ext (u1 u2 : Uuid) (k n : nat) :
  (forall j, (j < n)%nat -> nibble u1 (k + j) = nibble u2 (k + j)) -> hex_nibbles u1 k n = hex_nibbles u2 k n.
Proof.
  induction n as [|n IH]; simpl; intros H; [reflexivity|].
  rewrite (H n) by lia. f_equal. apply IH. intros j Hj. apply H. lia.
Qed.

Lemma nibble_top (u : Uuid) (j : nat) : nibble u (24 + j) = nibble (N.shiftr u 96) j.
Proof.
  unfold nibble. rewrite N.shiftr_shiftr. f_equal. f_equal. lia.
Qed.

Lemma nibbles_determine (t1 t2 : N) :
  (t1 < 2 ^ 32)%N -> (t2 < 2 ^ 32)%N -> (forall j, (j < 8)%nat -> nibble t1 j = nibble t2 j) -> t1 = t2.
Proof.
  intros H1 H2 H. apply N.bits_inj. intros i.
  destruct (N.lt_ge_cases i 32%N) as [Hi|Hi].
  - set (j := N.to_nat (i / 4)%N).
    assert (Hj : (j < 8)%nat).
    { assert ((i / 4 < 8)%N) by (apply N.Div0.div_lt_upper_bound; lia). unfold j. lia. }
    pose proof (f_equal (fun x => N.testbit x (i mod 4)%N) (H j Hj)) as Hb. simpl in Hb.
    unfold nibble in Hb. rewrite !N.land_spec, !N.shiftr_spec' in Hb.
    assert (Hk : (4 * N.of_nat j + i mod 4)%N = i).
    { unfold j. rewrite N2Nat.id. rewrite (N.div_mod i 4) at 3 by discriminate. lia. }
    rewrite N.add_comm, Hk in Hb.
    assert (H15 : N.testbit 15 (i mod 4)%N = true).
    { assert ((i mod 4 < 4)%N) by (apply N.mod_lt; discriminate).
      destruct (i mod 4)%N as [|p] eqn:E; [reflexivity|].
      destruct p as [[]|[]|]; try reflexivity; lia. }
    rewrite H15, !andb_true_r in Hb. exact Hb.
  - rewrite <- (N.mod_small t1 (2 ^ 32)%N), <- (N.mod_small t2 (2 ^ 32)%N) by assumption.
    rewrite !N.mod_pow2_bits_high by lia. reflexivity.
Qed.

Lemma shiftr_96_bound (u : Uuid) : (u < 2 ^ 128)%N -> (N.shiftr u 96 < 2 ^ 32)%N.
Proof.
  intros H. rewrite N.shiftr_div_pow2. apply N.Div0.div_lt_upper_bound.
  rewrite <- N.pow_add_r. exact H.
Qed.

Lemma mission_dir_eq (wd : string) (u : Uuid) :
  mission_workspace_dir wd u = Some (path_join (workspaces_root wd) ("mission-" ++ hex_nibbles u 24 8)).
Proof. unfold mission_workspace_dir. rewrite short_id_eq. reflexivity. Qed.

Lemma task_dir_eq (wd : string) (u : Uuid) :
  task_workspace_dir wd u = Some (path_join (workspaces_root wd) ("task-" ++ hex_nibbles u 24 8)).
Proof. unfold task_workspace_dir. rewrite short_id_eq. reflexivity. Qed.

(** X22. For 128-bit mission ids, two missions get the same workspace
    directory exactly when their ids agree on the top 32 bits (the first
    8 hex digits of the UUID string). *)
Theorem mission_dir_shared_prefix (wd : string) (u1 u2 : Uuid) :
  (u1 < 2 ^ 128)%N -> (u2 < 2 ^ 128)%N ->
  mission_workspace_dir wd u1 = mission_workspace_dir wd u2 <-> N.shiftr u1 96 = N.shiftr u2 96.
Proof.
  intros H1 H2. rewrite !mission_dir_eq. split.
  - intros H. injection H as H. apply path_join_inj in H; [|reflexivity|reflexivity].
    assert (H' : hex_nibbles u1 24 8 = hex_nibbles u2 24 8) by (apply (append_inj_l "mission-"); exact H).
    apply nibbles_determine; [apply shiftr_96_bound; assumption | apply shiftr_96_bound; assumption|].
    intros j Hj. rewrite <- !nibble_top. apply (hex_nibbles_inj _ _ 24 8 H' j Hj).
  - intros H. do 3 f_equal. apply hex_nibbles_ext. intros j _. rewrite !nibble_top, H. reflexivity.
Qed.

Lemma mission_dir_shared_prefix_witness :
  ((0x123e4567e89b12d3a456426614174000 < 2 ^ 128)%N /\ (0x123e4567ffffffffffffffffffffffff < 2 ^ 128)%N) /\
  mission_workspace_dir "/srv/app" 0x123e4567e89b12d3a456426614174000 =
    mission_workspace_dir "/srv/app" 0x123e4567ffffffffffffffffffffffff.
Proof.
  assert (H1 : (0x123e4567e89b12d3a456426614174000 < 2 ^ 128)%N) by (vm_compute; reflexivity).
  assert (H2 : (0x123e4567ffffffffffffffffffffffff < 2 ^ 128)%N) by (vm_compute; reflexivity).
  split; [split; assumption|].
  apply (proj2 (mission_dir_shared_prefix "/srv/app" _ _ H1 H2)). vm_compute. reflexivity.
Defined.

(** X23. A mission workspace directory and a task workspace directory
    under the same working directory are never the same path. *)
Theorem mission_task_dirs_distinct (wd : string) (u1 u2 : Uuid) :
  exists d1 d2, mission_workspace_dir wd u1 = Some d1 /\ task_workspace_dir wd u2 = Some d2 /\ d1 <> d2.
Proof.
  rewrite mission_dir_eq, task_dir_eq. do 2 eexists. split; [reflexivity|]. split; [reflexivity|].
  intros H. apply path_join_inj in H; [discriminate|reflexivity|reflexivity].
Qed.

End WorkspaceDirProofs.

Module BackendConfigProofs.
Import Storage BackendConfig.

Lemma first_setting_spec {A} (backend : string) (pick : json -> option A) (configs : list json) (x : A) :
  first_setting backend pick configs = Some x <->
  exists pre config post,
    configs = (pre ++ config :: post)%list /\
    Forall (passed_over backend pick) pre /\
    jget config "id" ≫= as_str = Some backend /\
    jget config "settings" ≫= pick = Some x.
Proof.
  induction configs as [|c rest IH]; simpl.
  - split; [discriminate|]. intros (pre & config & post & H & _). destruct pre; discriminate.
  - destruct (jget c "id" ≫= as_str) as [id|] eqn:Hid.
    + destruct (String.eqb_spec id backend) as [->|Hne].
      * destruct (jget c "settings" ≫= pick) as [y|] eqn:Hs.
        -- split.
           ++ intros H. inversion H; subst. exists [], c, rest. auto.
           ++ intros (pre & config & post & Hc & Hpre & Hcid & Hcs).
              destruct pre as [|p pre]; simpl in Hc; inversion Hc; subst; [congruence|].
              inversion Hpre as [|? ? (id' & Hid' & Hp) _]; subst.
              rewrite Hid in Hid'. inversion Hid'; subst. destruct Hp; congruence.
        -- rewrite IH. split.
           ++ intros (pre & config & post & Hc & Hpre & Hcid & Hcs).
              exists (c :: pre), config, post. split; [subst; reflexivity|]. split; [|auto].
              constructor; [|exact Hpre]. exists backend. auto.
           ++ intros (pre & config & post & Hc & Hpre & Hcid & Hcs).
              destruct pre as [|p pre]; simpl in Hc; inversion Hc; subst; [congruence|].
              inversion Hpre; subst. exists pre, config, post. auto.
      * rewrite IH. split.
        -- intros (pre & config & post & Hc & Hpre & Hcid & Hcs).
           exists (c :: pre), config, post. split; [subst; reflexivity|]. split; [|auto].
           constructor; [|exact Hpre]. exists id. auto.
        -- intros (pre & config & post & Hc & Hpre & Hcid & Hcs).
           destruct pre as [|p pre]; simpl in Hc; inversion Hc; subst; [congruence|].
           inversion Hpre; subst. exists pre, config, post. auto.
    + split; [discriminate|]. intros (pre & config & post & Hc & Hpre & Hcid & Hcs).
      destruct pre as [|p pre]; simpl in Hc; inversion Hc; subst; [congruence|].
      inversion Hpre as [|? ? (id' & Hid' & _) _]; subst. congruence.
Qed.

Lemma first_setting_stops_without_id {A} (backend : string) (pick : json -> option A)
    (pre : list json) (config : json) (post : list json) :
  Forall (passed_over backend pick) pre ->
  jget config "id" ≫= as_str = None ->
  first_setting backend pick (pre ++ config :: post)%list = None.
Proof.
  intros Hpre Hid. induction Hpre as [|c pre (id & Hc & Hp) _ IH]; simpl.
  - rewrite Hid. reflexivity.
  - rewrite Hc. destruct (String.eqb_spec id backend) as [->|_]; [|exact IH].
    destruct Hp as [Hp|Hp]; [congruence|]. rewrite Hp. exact IH.
Qed.

Lemma cli_path_setting_some (settings : json) (p : string) :
  cli_path_setting settings = Some p <-> jget settings "cli_path" = Some (JString p) /\ p <> "".
Proof.
  unfold cli_path_setting. destruct (jget settings "cli_path") as [v|]; simpl.
  - destruct v; simpl; try (split; [discriminate | intros [H _]; discriminate]).
    destruct (String.eqb_spec s ""); subst.
    + split; [discriminate | intros [H1 H]; inversion H1; subst; congruence].
    + split; [intros H; inversion H; subst; auto | intros [H _]; inversion H; reflexivity].
  - split; [discriminate | intros [H _]; discriminate].
Qed.

Lemma bind_settings_some {A} (config : json) (pick : json -> option A) (x : A) :
  jget config "settings" ≫= pick = Some x <->
  exists settings, jget config "settings" = Some settings /\ pick settings = Some x.
Proof.
  destruct (jget config "settings"); simpl.
  - split; [eauto | intros (? & H & ?); inversion H; subst; assumption].
  - split; [discriminate | intros (? & H & _); discriminate].
Qed.

(** X24. The Claude Code (resp. OpenCode) CLI path read from the backend
    configs is p exactly when some config has id claudecode (resp.
    opencode) and settings whose cli_path is the non-empty string p, and
    every config before it has a string id and is another backend's or
    gives no such path. *)
Theorem cli_path_from_config_spec (configs : list json) (p : string) :
  (get_claudecode_cli_path_from_config (Some configs) = Some p <->
   exists pre config post settings,
     configs = (pre ++ config :: post)%list /\
     Forall (passed_over "claudecode" cli_path_setting) pre /\
     jget config "id" = Some (JString "claudecode") /\
     jget config "settings" = Some settings /\
     jget settings "cli_path" = Some (JString p) /\ p <> "") /\
  (get_opencode_cli_path_from_config (Some configs) = Some p <->
   exists pre config post settings,
     configs = (pre ++ config :: post)%list /\
     Forall (passed_over "opencode" cli_path_setting) pre /\
     jget config "id" = Some (JString "opencode") /\
     jget config "settings" = Some settings /\
     jget settings "cli_path" = Some (JString p) /\ p <> "").
Proof.
  assert (Hid : forall config backend,
    jget config "id" ≫= as_str = Some backend <-> jget config "id" = Some (JString backend)).
  { intros config backend. destruct (jget config "id") as [v|]; simpl.
    - destruct v; simpl; split; intros H; inversion H; subst; reflexivity.
    - split; discriminate. }
  unfold get_claudecode_cli_path_from_config, get_opencode_cli_path_from_config. simpl.
  split; rewrite first_setting_spec; split.
  all: try (intros (pre & config & post & Hc & Hpre & Hcid & Hs);
            apply bind_settings_some in Hs as (settings & Hs & Hp);
            apply cli_path_setting_some in Hp as [Hp Hne];
            exists pre, config, post, settings; rewrite <- Hid; auto 6).
  all: intros (pre & config & post & settings & Hc & Hpre & Hcid & Hs & Hp & Hne);
       exists pre, config, post; rewrite Hid; repeat split; try assumption;
       apply bind_settings_some; exists settings; split; [exact Hs|];
       apply cli_path_setting_some; auto.
Qed.

(** X25. The OpenCode permissive flag read from the backend configs is b
    exactly when some config has id opencode and settings whose permissive
    field is the boolean b, and every config before it has a string id and
    is another backend's or gives no such flag. *)
Theorem opencode_permissive_from_config_spec (configs : list json) (b : bool) :
  get_opencode_permissive_from_config (Some configs) = Some b <->
  exists pre config post settings,
    configs = (pre ++ config :: post)%list /\
    Forall (passed_over "opencode" permissive_setting) pre /\
    jget config "id" = Some (JString "opencode") /\
    jget config "settings" = Some settings /\
    jget settings "permissive" = Some (JBool b).
Proof.
  assert (Hid : forall config backend,
    jget config "id" ≫= as_str = Some backend <-> jget config "id" = Some (JString backend)).
  { intros config backend. destruct (jget config "id") as [v|]; simpl.
    - destruct v; simpl; split; intros H; inversion H; subst; reflexivity.
    - split; discriminate. }
  assert (Hperm : forall settings, permissive_setting settings = Some b <->
                                   jget settings "permissive" = Some (JBool b)).
  { intros settings. unfold permissive_setting. destruct (jget settings "permissive") as [v|]; simpl.
    - destruct v; simpl; split; intros H; inversion H; subst; reflexivity.
    - split; discriminate. }
  unfold get_opencode_permissive_from_config. simpl. rewrite first_setting_spec. split.
  - intros (pre & config & post & Hc & Hpre & Hcid & Hs).
    apply bind_settings_some in Hs as (settings & Hs & Hp). apply Hperm in Hp.
    exists pre, config, post, settings. rewrite <- Hid. auto.
  - intros (pre & config & post & settings & Hc & Hpre & Hcid & Hs & Hp).
    exists pre, config, post. rewrite Hid. repeat split; try assumption.
    apply bind_settings_some. exists settings. split; [exact Hs|]. apply Hperm. exact Hp.
Qed.

(** X26. A config without a string id that the search reaches ends the
    search for the Claude Code CLI path with no result, whatever configs
    come after it. *)
Theorem claudecode_cli_path_stops_without_id (pre : list json) (config : json) (post : list json) :
  Forall (passed_over "claudecode" cli_path_setting) pre ->
  jget config "id" ≫= as_str = None ->
  get_claudecode_cli_path_from_config (Some (pre ++ config :: post)%list) = None.
Proof. apply first_setting_stops_without_id. Qed.

Lemma claudecode_cli_path_stops_without_id_witness :
  (Forall (passed_over "claudecode" cli_path_setting) [] /\
   jget (JObject [("name", JString "x")]) "id" ≫= as_str = None) /\
  get_claudecode_cli_path_from_config (Some ([] ++ JObject [("name", JString "x")] :: [claude_cfg])%list) = None.
Proof.
  split; [split; [constructor | reflexivity]|].
  apply claudecode_cli_path_stops_without_id; [constructor | reflexivity].
Defined.

End BackendConfigProofs.

Module HistoryFitProofs.
Import HistoryContext HistoryContextProofs StringFacts.

Lemma cat_entries_rev_length (l : list (string * string)) :
  String.length (cat_entries (rev l)) = String.length (cat_entries l).
Proof.
  induction l as [|p l IH]; [reflexivity|]. simpl.
  rewrite cat_entries_app, !length_append, IH. simpl. rewrite append_nil_r. lia.
Qed.

Lemma build_go_fits (m : nat) (l : list (string * string)) (acc : string) :
  String.length acc + String.length (cat_entries l) <= m ->
  build_go m l acc (String.length acc) = cat_entries (rev l) ++ acc.
Proof.
  revert acc. induction l as [|p rest IH]; intros acc H; simpl; [reflexivity|].
  simpl in H. rewrite length_append in H.
  replace (Nat.ltb m (String.length acc + String.length (entry p))) with false
    by (symmetry; apply Nat.ltb_ge; lia).
  simpl. rewrite (Nat.add_comm (String.length acc) (String.length (entry p))), <- length_append.
  rewrite IH by (rewrite length_append; lia).
  rewrite cat_entries_app. simpl. rewrite append_nil_r, append_assoc. reflexivity.
Qed.

(** X27. When the whole history, formatted, fits within max_chars, the
    history context is all of it, in order. *)
Theorem build_history_context_fits (history : list (string * string)) (max_chars : nat) :
  String.length (cat_entries history) <= max_chars ->
  build_history_context history max_chars = cat_entries history.
Proof.
  intros H. unfold build_history_context.
  change 0 with (String.length "").
  rewrite build_go_fits.
  - rewrite rev_involutive. apply append_nil_r.
  - rewrite cat_entries_rev_length. simpl. exact H.
Qed.

Lemma build_history_context_fits_witness :
  String.length (cat_entries [("user", "hi"); ("assistant", "hello")]) <= 100 /\
  build_history_context [("user", "hi"); ("assistant", "hello")] 100 =
    cat_entries [("user", "hi"); ("assistant", "hello")].
Proof.
  assert (H : String.length (cat_entries [("user", "hi"); ("assistant", "hello")]) <= 100)
    by (apply Nat.leb_le; vm_compute; reflexivity).
  split; [exact H | apply build_history_context_fits; exact H].
Defined.

End HistoryFitProofs.

Module StorageScanProofs.
Import Storage StorageSamples StorageScan StorageProofs.

(** X28. If the message directory of the session holds a .json file that
    does not read or parse, the storage fallback returns nothing. *)
Theorem load_latest_unparsed_message (storage : StorageTree) (session_id : string) (entries : list Entry) :
  message_dirs storage !! session_id = Some entries ->
  Exists (fun e => unparsed_json e = true) entries ->
  load_latest_opencode_assistant_text storage session_id = None.
Proof.
  intros Hm Hex. unfold load_latest_opencode_assistant_text. rewrite Hm. simpl.
  rewrite (scan_messages_unparsed entries 0 None Hex). reflexivity.
Qed.

Lemma load_latest_unparsed_message_witness :
  (message_dirs tree_broken !! "ses" = Some messages_broken /\
   Exists (fun e => unparsed_json e = true) messages_broken) /\
  load_latest_opencode_assistant_text tree_broken "ses" = None.
Proof.
  assert (Hm : message_dirs tree_broken !! "ses" = Some messages_broken) by (vm_compute; reflexivity).
  assert (He : Exists (fun e => unparsed_json e = true) messages_broken).
  { unfold messages_broken, messages_ses. simpl.
    apply Exists_cons_tl, Exists_cons_tl, Exists_cons_hd. reflexivity. }
  split; [split; assumption|]. apply (load_latest_unparsed_message tree_broken "ses" messages_broken Hm He).
Defined.

Lemma is_assistant_scan (e : Entry) (v : json) :
  is_json_file (file_name e) = true -> contents e = Some v ->
  is_assistant e = String.eqb (role_of v) "assistant".
Proof. intros Hj Hc. unfold is_assistant. rewrite Hj, Hc. reflexivity. Qed.

Lemma scan_messages_latest_from (entries : list Entry) :
  forall (t : Z) (i : option string),
  Forall parses entries ->
  (scan_messages entries t i = Some i /\
   Forall (fun e => is_assistant e = true -> (message_created e < t)%Z) entries) \/
  (exists pre m post,
     entries = (pre ++ m :: post)%list /\ is_assistant m = true /\ (t <= message_created m)%Z /\
     Forall (fun e => is_assistant e = true -> (message_created e <= message_created m)%Z) pre /\
     Forall (fun e => is_assistant e = true -> (message_created e < message_created m)%Z) post /\
     scan_messages entries t i = Some (message_id_of m)).
Proof.
  induction entries as [|e rest IH]; intros t i Hp; [left; split; [reflexivity | constructor]|].
  inversion Hp as [|? ? He Hp']; subst. simpl.
  destruct (is_json_file (file_name e)) eqn:Hj; simpl.
  2: { assert (Hna : is_assistant e = false) by (unfold is_assistant; rewrite Hj; reflexivity).
       destruct (IH t i Hp') as [[Hs Hall]|(pre & m & post & -> & Hm & Ht & Hpre & Hpost & Hs)].
       - left. split; [exact Hs|]. constructor; [congruence | exact Hall].
       - right. exists (e :: pre), m, post. repeat split; try assumption.
         constructor; [congruence | exact Hpre]. }
  destruct (contents e) as [v|] eqn:Hc.
  2: { exfalso. apply (He Hj Hc). }
  pose proof (is_assistant_scan e v Hj Hc) as Ha.
  assert (Hcr : message_created e = created_of v) by (unfold message_created; rewrite Hc; reflexivity).
  assert (Hid : message_id_of e = id_of v) by (unfold message_id_of; rewrite Hc; reflexivity).
  destruct (String.eqb (role_of v) "assistant") eqn:Hr; simpl.
  2: { destruct (IH t i Hp') as [[Hs Hall]|(pre & m & post & -> & Hm & Ht & Hpre & Hpost & Hs)].
       - left. split; [exact Hs|]. constructor; [congruence | exact Hall].
       - right. exists (e :: pre), m, post. repeat split; try assumption.
         constructor; [congruence | exact Hpre]. }
  destruct (Z.leb_spec t (created_of v)) as [Hle|Hlt].
  - right. destruct (IH (created_of v) (id_of v) Hp')
      as [[Hs Hall]|(pre & m & post & -> & Hm & Ht & Hpre & Hpost & Hs)].
    + exists [], e, rest. split; [reflexivity|]. split; [exact Ha|]. split; [lia|].
      split; [constructor|]. split.
      * rewrite Hcr. exact Hall.
      * rewrite Hs, Hid. reflexivity.
    + exists (e :: pre), m, post. split; [reflexivity|]. split; [exact Hm|]. split; [lia|].
      split; [|split; [exact Hpost | exact Hs]].
      constructor; [intros _; lia | exact Hpre].
  - destruct (IH t i Hp') as [[Hs Hall]|(pre & m & post & -> & Hm & Ht & Hpre & Hpost & Hs)].
    + left. split; [exact Hs|]. constructor; [intros _; lia | exact Hall].
    + right. exists (e :: pre), m, post. split; [reflexivity|]. split; [exact Hm|]. split; [exact Ht|].
      split; [|split; [exact Hpost | exact Hs]].
      constructor; [intros _; lia | exact Hpre].
Qed.

(** X29. Over readable message files, the scan of the message directory
    picks the last assistant message among those with the greatest
    creation time (when that time is at least 0), and no message id when
    every assistant message was created before time 0. *)
Theorem scan_messages_latest (entries : list Entry) :
  Forall parses entries ->
  (scan_messages entries 0 None = Some None /\
   Forall (fun e => is_assistant e = true -> (message_created e < 0)%Z) entries) \/
  (exists pre m post,
     entries = (pre ++ m :: post)%list /\ is_assistant m = true /\ (0 <= message_created m)%Z /\
     Forall (fun e => is_assistant e = true -> (message_created e <= message_created m)%Z) pre /\
     Forall (fun e => is_assistant e = true -> (message_created e < message_created m)%Z) post /\
     scan_messages entries 0 None = Some (message_id_of m)).
Proof. apply scan_messages_latest_from. Qed.

Lemma scan_messages_latest_witness :
  Forall parses messages_ses /\
  ((scan_messages messages_ses 0 None = Some None /\
    Forall (fun e => is_assistant e = true -> (message_created e < 0)%Z) messages_ses) \/
   (exists pre m post,
      messages_ses = (pre ++ m :: post)%list /\ is_assistant m = true /\ (0 <= message_created m)%Z /\
      Forall (fun e => is_assistant e = true -> (message_created e <= message_created m)%Z) pre /\
      Forall (fun e => is_assistant e = true -> (message_created e < message_created m)%Z) post /\
      scan_messages messages_ses 0 None = Some (message_id_of m))).
Proof.
  assert (Hp : Forall parses messages_ses).
  { unfold messages_ses. repeat constructor; intros _ H; discriminate H. }
  split; [exact Hp | apply (scan_messages_latest messages_ses Hp)].
Defined.

End StorageScanProofs.
